(** * mopo: a moped computer (MicroPython)

    A shallow embedding of [mopo.py]: the two interrupt-fed rate meters
    ([Rpm], [Speed]), the multi-click [Button], the ignition [Limiter] and
    the mode-update step of the main loop [show], followed by the
    properties of the specification that concern them.

    Conventions of the embedding.
    - Python integers are [Z].  A float is held as the rational it
      denotes, in [Q], and every float operation rounds its exact result
      to the format of the port, to nearest with ties to even.  The
      format is a parameter, [Format]: its number of significant bits.
      CPython and the double-precision builds of MicroPython have
      [binary64], the single-precision builds [binary32].  The exponent
      range is not modelled: with a distance per tick that a wheel can
      have, the numbers of this program are far from overflow and
      underflow.  Where a statement names no format it is made for
      [binary64]; the state a run reaches does not depend on the format,
      nor does whether an average raises ([Rpm_run_format],
      [Speed_run_format]).
    - An object is a record of its attributes; a method is a computation
      in the state-and-exception monad [M] over that record, so that the
      attribute writes made before an exception is raised persist, as they
      do in Python.
    - What the program takes from MicroPython ([array], [utime.ticks_ms],
      [utime.ticks_diff], [machine.Pin], [machine.PWM], [machine.Timer])
      is modelled in [Py] and in the records of the objects that hold
      them, after the documented behaviour of the library: a clock reading
      and a pin level are arguments of the handler that reads them.
    - An interrupt handler runs to its end once started, and [avg] and
      [get_avg] drain the buffer with interrupts disabled: each is one
      step, and a run is a sequence of such steps. *)

From Stdlib Require Import ZArith QArith Qround Qabs Qpower.
From Stdlib Require Import Lia Lqa Bool String Sorted.
From stdpp Require Import base list.

Open Scope Z_scope.

(** ** The Python run time the program relies on *)

Module Py.

(** The exceptions the modelled code can raise. *)
Inductive exn : Type :=
| IndexError
| ZeroDivisionError
| TypeError
| AttributeError
| Exception (msg : string).

(** Outcome of a computation: a value, a raised exception, or a loop
    that did not finish within the fuel it was given. *)
Inductive result (A : Type) : Type :=
| Ok (a : A)
| Raise (e : exn)
| OutOfFuel.
Arguments Ok {A} a.
Arguments Raise {A} e.
Arguments OutOfFuel {A}.

(** State-and-exception monad: the state reached is returned whatever
    the outcome. *)
Definition M (S A : Type) : Type := S -> S * result A.

Definition ret {S A} (a : A) : M S A := fun s => (s, Ok a).

Definition bind {S A B} (m : M S A) (k : A -> M S B) : M S B :=
  fun s =>
    match m s with
    | (s', Ok a) => k a s'
    | (s', Raise e) => (s', Raise e)
    | (s', OutOfFuel) => (s', OutOfFuel)
    end.

Definition get {S} : M S S := fun s => (s, Ok s).
Definition modify {S} (f : S -> S) : M S unit := fun s => (f s, Ok tt).
Definition raise {S A} (e : exn) : M S A := fun s => (s, Raise e).
Definition out_of_fuel {S A} : M S A := fun s => (s, OutOfFuel).
Definition lift {S A} (r : result A) : M S A := fun s => (s, r).

(** [obj.meth(a1, ..., an)] on a method defined with [params] positional
    parameters ([self] included): the object is bound to the first one,
    and the call raises [TypeError] unless the [nargs] explicit arguments
    fill the others exactly. *)
Definition call_bound {S A} (params nargs : nat) (body : M S A) : M S A :=
  if Nat.eqb params (Datatypes.S nargs) then body else raise TypeError.

(** Subscript of a sequence of length [len]: a negative index counts from
    the end, anything outside [-len, len) raises [IndexError]. *)
Definition index (len i : Z) : result nat :=
  if (0 <=? i) && (i <? len) then Ok (Z.to_nat i)
  else if (- len <=? i) && (i <? 0) then Ok (Z.to_nat (len + i))
  else Raise IndexError.

(** [a[i]] *)
Definition array_get (a : list Z) (i : Z) : result Z :=
  match index (Z.of_nat (length a)) i with
  | Ok n => match a !! n with Some v => Ok v | None => Raise IndexError end
  | Raise e => Raise e
  | OutOfFuel => OutOfFuel
  end.

(** [a[i] = v] *)
Definition array_set (a : list Z) (i v : Z) : result (list Z) :=
  match index (Z.of_nat (length a)) i with
  | Ok n => Ok (<[n := v]> a)
  | Raise e => Raise e
  | OutOfFuel => OutOfFuel
  end.

(** [array.array('i', (0 for x in range(n)))] *)
Definition array_zeros (n : Z) : list Z := replicate (Z.to_nat n) 0.

(** [utime.ticks_ms()] counts modulo [TICKS_PERIOD], a power of two that
    the port fixes (2^30 on the 32-bit ports this program targets). *)
Definition TICKS_PERIOD : Z := 2 ^ 30.
Definition TICKS_HALF : Z := TICKS_PERIOD / 2.

(** [utime.ticks_diff(a, b)]: the signed difference [a - b] reduced into
    [-TICKS_HALF, TICKS_HALF). *)
Definition ticks_diff (a b : Z) : Z :=
  (a - b + TICKS_HALF) mod TICKS_PERIOD - TICKS_HALF.

(** *** Floats *)

(** The integer nearest to [y]; of two equally near, the even one. *)
Definition rint (y : Q) : Z :=
  let f := Qfloor y in
  match (y - inject_Z f ?= 1 # 2)%Q with
  | Lt => f
  | Gt => f + 1
  | Eq => if Z.even f then f else f + 1
  end.

(** The binary exponent of a non-zero [x]: the [e] with
    [2^e <= |x| < 2^(e+1)].  The difference of the bit lengths of
    numerator and denominator is [e] or [e + 1]. *)
Definition exponent (x : Q) : Z :=
  let k := Z.log2 (Z.abs (Qnum x)) - Z.log2 (Zpos (Qden x)) in
  if Qle_bool (2 ^ k) (Qabs x) then k else k - 1.

(** [x] rounded to [p] significant bits: scaled so that its integer
    part has [p] bits, rounded to the nearest integer, scaled back. *)
Definition round_to (p : positive) (x : Q) : Q :=
  if Qeq_bool x 0 then 0%Q
  else
    let e := exponent x - (Zpos p - 1) in
    (inject_Z (rint (x * 2 ^ (- e))) * 2 ^ e)%Q.

(** The float format of the port: its number of significant bits
    ([sys.float_info.mant_dig]). *)
Class Format : Type := { mant_dig : positive }.

Definition binary32 : Format := {| mant_dig := 24 |}.
Definition binary64 : Format := {| mant_dig := 53 |}.

(** Rounding to the format of the port. *)
Definition fround {fmt : Format} (x : Q) : Q := round_to mant_dig x.

(** The conversion of an [int] operand to a float: [/] applies it to
    both of two [int]s, and [/] and [*] to an [int] that meets a float.
    (CPython rounds the quotient of two [int]s once; that is the same
    number whenever both are floats as they are, as all [int]s divided
    here are in [binary64].) *)
Definition of_int {fmt : Format} (z : Z) : Q := fround (inject_Z z).

(** [x / y] on floats. *)
Definition truediv {fmt : Format} (x y : Q) : result Q :=
  if Qeq_bool y 0 then Raise ZeroDivisionError
  else Ok (fround (x / y)%Q).

(** [x * y] on floats. *)
Definition fmul {fmt : Format} (x y : Q) : Q := fround (x * y)%Q.

#[global] Arguments round_to : simpl never.
#[global] Arguments fround : simpl never.
#[global] Arguments of_int : simpl never.
#[global] Arguments fmul : simpl never.

(** Comparisons of numbers, as booleans. *)
Definition Qltb (x y : Q) : bool :=
  match (x ?= y)%Q with Lt => true | _ => false end.
Definition Qgtb (x y : Q) : bool := Qltb y x.

End Py.

Import Py.

(** The monad is used through stdpp's notations: [x ← m; k] and [m;; k]. *)
#[global] Instance M_bind {S} : MBind (M S) := fun A B k m => bind m k.
#[global] Instance M_ret {S} : MRet (M S) := fun A a => ret a.

(** ** class Rpm *)

Module Rpm.

Definition ARRAYSIZE : Z := 20.

Record t : Type := mk {
  sparks : list Z;
  no_sparks : Z;
  prev_spark_ms : Z;
  spark_write_index : Z;
  spark_read_index : Z;
  spark_count : Z;
  spark_overflow : Z;
  spark_disqualified : Z;
  this_spark_ms : Z
}.

Definition set_sparks (v : list Z) (s : t) : t :=
  mk v (no_sparks s) (prev_spark_ms s) (spark_write_index s)
     (spark_read_index s) (spark_count s) (spark_overflow s)
     (spark_disqualified s) (this_spark_ms s).
Definition set_prev_spark_ms (v : Z) (s : t) : t :=
  mk (sparks s) (no_sparks s) v (spark_write_index s)
     (spark_read_index s) (spark_count s) (spark_overflow s)
     (spark_disqualified s) (this_spark_ms s).
Definition set_spark_write_index (v : Z) (s : t) : t :=
  mk (sparks s) (no_sparks s) (prev_spark_ms s) v
     (spark_read_index s) (spark_count s) (spark_overflow s)
     (spark_disqualified s) (this_spark_ms s).
Definition set_spark_read_index (v : Z) (s : t) : t :=
  mk (sparks s) (no_sparks s) (prev_spark_ms s) (spark_write_index s)
     v (spark_count s) (spark_overflow s)
     (spark_disqualified s) (this_spark_ms s).
Definition set_spark_count (v : Z) (s : t) : t :=
  mk (sparks s) (no_sparks s) (prev_spark_ms s) (spark_write_index s)
     (spark_read_index s) v (spark_overflow s)
     (spark_disqualified s) (this_spark_ms s).
Definition set_spark_overflow (v : Z) (s : t) : t :=
  mk (sparks s) (no_sparks s) (prev_spark_ms s) (spark_write_index s)
     (spark_read_index s) (spark_count s) v
     (spark_disqualified s) (this_spark_ms s).
Definition set_spark_disqualified (v : Z) (s : t) : t :=
  mk (sparks s) (no_sparks s) (prev_spark_ms s) (spark_write_index s)
     (spark_read_index s) (spark_count s) (spark_overflow s)
     v (this_spark_ms s).
Definition set_this_spark_ms (v : Z) (s : t) : t :=
  mk (sparks s) (no_sparks s) (prev_spark_ms s) (spark_write_index s)
     (spark_read_index s) (spark_count s) (spark_overflow s)
     (spark_disqualified s) v.

(** [Rpm.__init__] (the pin and its interrupt registration are hardware). *)
Definition __init__ : t :=
  {| sparks := array_zeros ARRAYSIZE;
     no_sparks := 0;
     prev_spark_ms := 0;
     spark_write_index := -1;
     spark_read_index := 0;
     spark_count := 0;
     spark_overflow := 0;
     spark_disqualified := 0;
     this_spark_ms := 0 |}.

(** [Rpm.cb_spark], the interrupt handler; [now] is what
    [utime.ticks_ms()] returns when it runs. *)
Definition cb_spark (now : Z) : M t unit :=
  modify (set_this_spark_ms now) ;;
  s ← get;
  if spark_write_index s =? -1 then
    modify (set_spark_write_index 0) ;;
    s ← get;
    a ← lift (array_set (sparks s) (spark_write_index s) (this_spark_ms s));
    modify (set_sparks a) ;;
    modify (fun s => set_spark_count (spark_count s + 1) s)
  else
    last ← lift (array_get (sparks s) (spark_write_index s));
    if ticks_diff (this_spark_ms s) last >? 4 then
      if spark_count s <=? ARRAYSIZE then
        modify (fun s =>
          set_spark_write_index ((spark_write_index s + 1) mod ARRAYSIZE) s) ;;
        s ← get;
        a ← lift (array_set (sparks s) (spark_write_index s) (this_spark_ms s));
        modify (set_sparks a) ;;
        modify (fun s => set_spark_count (spark_count s + 1) s)
      else
        modify (fun s => set_spark_overflow (spark_overflow s + 1) s)
    else
      modify (fun s => set_spark_disqualified (spark_disqualified s + 1) s).

(** The [while self.spark_count:] loop of [Rpm.avg]; [acc] is
    [spark_intervals_ms]. *)
Fixpoint avg_loop (fuel : nat) (acc : Z) : M t Z :=
  s ← get;
  if spark_count s =? 0 then ret acc
  else
    match fuel with
    | O => out_of_fuel
    | S fuel' =>
        latest_spark_ms ← lift (array_get (sparks s) (spark_read_index s));
        modify (fun s => set_spark_count (spark_count s - 1) s) ;;
        modify (fun s =>
          set_spark_read_index ((spark_read_index s + 1) mod ARRAYSIZE) s) ;;
        s ← get;
        let acc' := acc + ticks_diff latest_spark_ms (prev_spark_ms s) in
        modify (set_prev_spark_ms latest_spark_ms) ;;
        avg_loop fuel' acc'
    end.

(** [Rpm.avg].  The loop takes one pending entry per iteration, so the
    pending count is fuel enough. *)
Definition avg {fmt : Format} : M t Q :=
  s ← get;
  if spark_count s >? 0 then
    let rounds := spark_count s in
    spark_intervals_ms ← avg_loop (Z.to_nat rounds) 0;
    avg_spark_interval_ms ←
      lift (truediv (of_int spark_intervals_ms) (of_int rounds));
    q ← lift (truediv (of_int (rounds * 1000)) avg_spark_interval_ms);
    ret (fmul q (of_int 60))
  else ret 0%Q.

End Rpm.

(** ** class Speed *)

Module Speed.

Definition ARRAYSIZE : Z := 10.
Definition PIN_HALL : Z := 13.

Record t : Type := mk {
  halls : list Z;
  hall_write_index : Z;
  hall_read_index : Z;
  hall_count : Z;
  hall_overflow : Z;
  hall_disqualified : Z;
  hall_total : Z;
  this_hall_ms : Z;
  prev_hall_ms : Z;
  no_halls : Z;
  dist : Z
}.

Definition set_halls (v : list Z) (s : t) : t :=
  mk v (hall_write_index s) (hall_read_index s) (hall_count s)
     (hall_overflow s) (hall_disqualified s) (hall_total s)
     (this_hall_ms s) (prev_hall_ms s) (no_halls s) (dist s).
Definition set_hall_write_index (v : Z) (s : t) : t :=
  mk (halls s) v (hall_read_index s) (hall_count s)
     (hall_overflow s) (hall_disqualified s) (hall_total s)
     (this_hall_ms s) (prev_hall_ms s) (no_halls s) (dist s).
Definition set_hall_read_index (v : Z) (s : t) : t :=
  mk (halls s) (hall_write_index s) v (hall_count s)
     (hall_overflow s) (hall_disqualified s) (hall_total s)
     (this_hall_ms s) (prev_hall_ms s) (no_halls s) (dist s).
Definition set_hall_count (v : Z) (s : t) : t :=
  mk (halls s) (hall_write_index s) (hall_read_index s) v
     (hall_overflow s) (hall_disqualified s) (hall_total s)
     (this_hall_ms s) (prev_hall_ms s) (no_halls s) (dist s).
Definition set_hall_overflow (v : Z) (s : t) : t :=
  mk (halls s) (hall_write_index s) (hall_read_index s) (hall_count s)
     v (hall_disqualified s) (hall_total s)
     (this_hall_ms s) (prev_hall_ms s) (no_halls s) (dist s).
Definition set_hall_disqualified (v : Z) (s : t) : t :=
  mk (halls s) (hall_write_index s) (hall_read_index s) (hall_count s)
     (hall_overflow s) v (hall_total s)
     (this_hall_ms s) (prev_hall_ms s) (no_halls s) (dist s).
Definition set_hall_total (v : Z) (s : t) : t :=
  mk (halls s) (hall_write_index s) (hall_read_index s) (hall_count s)
     (hall_overflow s) (hall_disqualified s) v
     (this_hall_ms s) (prev_hall_ms s) (no_halls s) (dist s).
Definition set_this_hall_ms (v : Z) (s : t) : t :=
  mk (halls s) (hall_write_index s) (hall_read_index s) (hall_count s)
     (hall_overflow s) (hall_disqualified s) (hall_total s)
     v (prev_hall_ms s) (no_halls s) (dist s).
Definition set_prev_hall_ms (v : Z) (s : t) : t :=
  mk (halls s) (hall_write_index s) (hall_read_index s) (hall_count s)
     (hall_overflow s) (hall_disqualified s) (hall_total s)
     (this_hall_ms s) v (no_halls s) (dist s).
Definition set_no_halls (v : Z) (s : t) : t :=
  mk (halls s) (hall_write_index s) (hall_read_index s) (hall_count s)
     (hall_overflow s) (hall_disqualified s) (hall_total s)
     (this_hall_ms s) (prev_hall_ms s) v (dist s).

(** The attributes as [Speed.__init__] sets them, for a distance per
    tick [d]. *)
Definition fresh (d : Z) : t :=
  {| halls := array_zeros ARRAYSIZE;
     hall_write_index := -1;
     hall_read_index := 0;
     hall_count := 0;
     hall_overflow := 0;
     hall_disqualified := 0;
     hall_total := 0;
     this_hall_ms := 0;
     prev_hall_ms := 0;
     no_halls := 0;
     dist := d |}.

(** [Speed.__init__]: the distance per tick is mandatory. *)
Definition __init__ (hall_tick_dist_mm : option Z) : result t :=
  match hall_tick_dist_mm with
  | None =>
      Raise (Exception
        "You must enter tyre traverse distance per hallsensor tick")
  | Some d => Ok (fresh d)
  end.

(** [Speed.cb_hall], the interrupt handler; [now] is what
    [utime.ticks_ms()] returns when it runs. *)
Definition cb_hall (now : Z) : M t unit :=
  modify (set_this_hall_ms now) ;;
  modify (fun s => set_hall_total (hall_total s + 1) s) ;;
  s ← get;
  if hall_write_index s =? -1 then
    modify (set_hall_write_index 0) ;;
    s ← get;
    a ← lift (array_set (halls s) (hall_write_index s) (this_hall_ms s));
    modify (set_halls a) ;;
    modify (fun s => set_hall_count (hall_count s + 1) s)
  else
    last ← lift (array_get (halls s) (hall_write_index s));
    if ticks_diff (this_hall_ms s) last >? 36 then
      if hall_count s <=? ARRAYSIZE then
        modify (fun s =>
          set_hall_write_index ((hall_write_index s + 1) mod ARRAYSIZE) s) ;;
        s ← get;
        a ← lift (array_set (halls s) (hall_write_index s) (this_hall_ms s));
        modify (set_halls a) ;;
        modify (fun s => set_hall_count (hall_count s + 1) s)
      else
        modify (fun s => set_hall_overflow (hall_overflow s + 1) s)
    else
      modify (fun s => set_hall_disqualified (hall_disqualified s + 1) s) ;;
      modify (fun s => set_hall_total (hall_total s - 1) s).

(** The [while self.hall_count:] loop of [Speed.get_avg]; [acc] is
    [hall_intervals_ms]. *)
Fixpoint get_avg_loop (fuel : nat) (acc : Z) : M t Z :=
  s ← get;
  if hall_count s =? 0 then ret acc
  else
    match fuel with
    | O => out_of_fuel
    | S fuel' =>
        latest_hall_ms ← lift (array_get (halls s) (hall_read_index s));
        modify (fun s => set_hall_count (hall_count s - 1) s) ;;
        modify (fun s =>
          set_hall_read_index ((hall_read_index s + 1) mod ARRAYSIZE) s) ;;
        s ← get;
        let acc' := acc + ticks_diff latest_hall_ms (prev_hall_ms s) in
        modify (set_prev_hall_ms latest_hall_ms) ;;
        get_avg_loop fuel' acc'
    end.

(** [Speed.get_avg] *)
Definition get_avg {fmt : Format} : M t Q :=
  s ← get;
  if hall_count s >? 0 then
    let hall_tics := hall_count s in
    hall_intervals_ms ← get_avg_loop (Z.to_nat hall_tics) 0;
    avg_hall_interval_ms ←
      lift (truediv (of_int hall_intervals_ms) (of_int hall_tics));
    s ← get;
    q ← lift (truediv (of_int (hall_tics * dist s * 10))
                      avg_hall_interval_ms);
    lift (truediv q (of_int 36))
  else
    modify (fun s => set_no_halls (no_halls s + 1) s) ;;
    ret 0%Q.

End Speed.

(** ** class Button *)

Module Button.

Definition NORMAL_SLEEP : Z := 300.
Definition BUTTON_CHECK_SLEEP : Z := 50.
Definition BUTTON_BOUNCE_DELAY_MS : Z := 50.
Definition BUTTON_SERIES_PRESS_DELAY_MS : Z := 200.
Definition BUTTON_DOWN : Z := 0.
Definition BUTTON_UP : Z := 1.

(** A [machine.Timer]: not running, or armed with a period, a mode and
    one of the two callbacks of the class. *)
Inductive timer_mode : Type := ONE_SHOT | PERIODIC.
Inductive callback : Type := Cb_button_debounce | Cb_button_series.
Inductive timer : Type :=
| Stopped
| Armed (period : Z) (mode : timer_mode) (cb : callback).

Record t : Type := mk {
  main_loop_sleep : Z;
  button_press_time_ms : Z;
  button_press_count : Z;
  button_debounce_timer : timer;
  button_waiting_bounce : bool;
  button_waiting_more_clicks : bool;
  button_series_click_timer : timer;
  button_series_click_prev_value : Z
}.

Definition set_main_loop_sleep (v : Z) (s : t) : t :=
  mk v (button_press_time_ms s) (button_press_count s)
     (button_debounce_timer s) (button_waiting_bounce s)
     (button_waiting_more_clicks s) (button_series_click_timer s)
     (button_series_click_prev_value s).
Definition set_button_press_time_ms (v : Z) (s : t) : t :=
  mk (main_loop_sleep s) v (button_press_count s)
     (button_debounce_timer s) (button_waiting_bounce s)
     (button_waiting_more_clicks s) (button_series_click_timer s)
     (button_series_click_prev_value s).
Definition set_button_press_count (v : Z) (s : t) : t :=
  mk (main_loop_sleep s) (button_press_time_ms s) v
     (button_debounce_timer s) (button_waiting_bounce s)
     (button_waiting_more_clicks s) (button_series_click_timer s)
     (button_series_click_prev_value s).
Definition set_button_debounce_timer (v : timer) (s : t) : t :=
  mk (main_loop_sleep s) (button_press_time_ms s) (button_press_count s)
     v (button_waiting_bounce s)
     (button_waiting_more_clicks s) (button_series_click_timer s)
     (button_series_click_prev_value s).
Definition set_button_waiting_bounce (v : bool) (s : t) : t :=
  mk (main_loop_sleep s) (button_press_time_ms s) (button_press_count s)
     (button_debounce_timer s) v
     (button_waiting_more_clicks s) (button_series_click_timer s)
     (button_series_click_prev_value s).
Definition set_button_waiting_more_clicks (v : bool) (s : t) : t :=
  mk (main_loop_sleep s) (button_press_time_ms s) (button_press_count s)
     (button_debounce_timer s) (button_waiting_bounce s)
     v (button_series_click_timer s)
     (button_series_click_prev_value s).
Definition set_button_series_click_timer (v : timer) (s : t) : t :=
  mk (main_loop_sleep s) (button_press_time_ms s) (button_press_count s)
     (button_debounce_timer s) (button_waiting_bounce s)
     (button_waiting_more_clicks s) v
     (button_series_click_prev_value s).
Definition set_button_series_click_prev_value (v : Z) (s : t) : t :=
  mk (main_loop_sleep s) (button_press_time_ms s) (button_press_count s)
     (button_debounce_timer s) (button_waiting_bounce s)
     (button_waiting_more_clicks s) (button_series_click_timer s)
     v.

(** [Button.__init__] *)
Definition __init__ : t :=
  {| main_loop_sleep := NORMAL_SLEEP;
     button_press_time_ms := 0;
     button_press_count := 0;
     button_debounce_timer := Stopped;
     button_waiting_bounce := false;
     button_waiting_more_clicks := false;
     button_series_click_timer := Stopped;
     button_series_click_prev_value := 0 |}.

(** [Button.cb_button_series]; [value] is what [self.button.value()]
    returns, and the [timer] argument is the series timer, whose
    callback this is. *)
Definition cb_button_series (value : Z) : M t unit :=
  s ← get;
  if value =? BUTTON_DOWN then
    (if button_series_click_prev_value s =? BUTTON_UP then
       modify (fun s => set_button_press_count (button_press_count s + 1) s)
     else ret tt) ;;
    modify (set_button_series_click_prev_value BUTTON_DOWN)
  else
    if button_series_click_prev_value s =? BUTTON_DOWN then
      modify (set_button_series_click_prev_value BUTTON_UP)
    else
      modify (set_button_series_click_timer Stopped) ;;
      modify (set_button_waiting_more_clicks false) ;;
      modify (set_main_loop_sleep NORMAL_SLEEP).

(** [Button.cb_button_debounce]; [value] is what [self.button.value()]
    returns. *)
Definition cb_button_debounce (value : Z) : M t unit :=
  (if value =? BUTTON_DOWN then
     modify (set_button_waiting_bounce false) ;;
     modify (set_button_press_count 1) ;;
     modify (set_button_waiting_more_clicks true) ;;
     modify (set_button_series_click_prev_value BUTTON_DOWN) ;;
     modify (set_button_series_click_timer
               (Armed BUTTON_SERIES_PRESS_DELAY_MS PERIODIC Cb_button_series))
   else
     modify (set_main_loop_sleep NORMAL_SLEEP)) ;;
  modify (set_button_waiting_bounce false).

(** [Button.cb_button]; [now] is what [utime.ticks_ms()] returns. *)
Definition cb_button (now : Z) : M t unit :=
  s ← get;
  if negb (button_waiting_bounce s || button_waiting_more_clicks s) then
    modify (set_button_waiting_bounce true) ;;
    modify (set_button_press_time_ms now) ;;
    modify (set_main_loop_sleep BUTTON_CHECK_SLEEP) ;;
    modify (set_button_debounce_timer
              (Armed BUTTON_BOUNCE_DELAY_MS ONE_SHOT Cb_button_debounce))
  else ret tt.

(** [Button.pressed] *)
Definition pressed : M t Z :=
  s ← get;
  if button_waiting_more_clicks s then
    ret (-1)
  else
    let pressed := button_press_count s in
    modify (set_button_press_count 0) ;;
    ret pressed.

End Button.

(** ** class Limiter *)

Module Limiter.

Definition FREQ : Z := 250.
Definition LIMIT_DUTY : Z := 128.
Definition LIMP_DUTY : Z := 768.
Definition UNLIMITED : Z := 0.
Definition LIMITED : Z := 1.
Definition LIMP : Z := 2.

Definition LIMIT_RPM_HIGH : Z := 6000.
Definition LIMIT_RPM_LOW : Z := 5800.
Definition LIMP_RPM_HIGH : Z := 7000.
Definition LIMP_RPM_LOW : Z := 6800.

Definition LIMIT_SPEED_HIGH : Z := 42.
Definition LIMIT_SPEED_LOW : Z := 40.
Definition LIMP_SPEED_HIGH : Z := 50.
Definition LIMP_SPEED_LOW : Z := 48.

(** What [self.ign] is bound to: a [machine.Pin] output with its level
    (unknown until it is driven), or a [machine.PWM] on a pin with its
    frequency and duty (unset until configured) and whether it has been
    released by [deinit]. *)
Inductive output : Type :=
| Pin (id : Z) (level : option Z)
| PWM (id : Z) (freq duty : option Z) (active : bool).

Record t : Type := mk {
  pin : Z;
  ign : output;
  mode : Z
}.

Definition set_ign (v : output) (s : t) : t := mk (pin s) v (mode s).
Definition set_mode (v : Z) (s : t) : t := mk (pin s) (ign s) v.

(** The methods called on [self.ign]; an object of the other class has
    no such attribute. *)
Definition ign_off : M t unit :=
  s ← get;
  match ign s with
  | Pin id _ => modify (set_ign (Pin id (Some 0)))
  | PWM _ _ _ _ => raise AttributeError
  end.
Definition ign_freq (f : Z) : M t unit :=
  s ← get;
  match ign s with
  | PWM id _ d a => modify (set_ign (PWM id (Some f) d a))
  | Pin _ _ => raise AttributeError
  end.
Definition ign_duty (d : Z) : M t unit :=
  s ← get;
  match ign s with
  | PWM id f _ a => modify (set_ign (PWM id f (Some d) a))
  | Pin _ _ => raise AttributeError
  end.
Definition ign_deinit : M t unit :=
  s ← get;
  match ign s with
  | PWM id f d _ => modify (set_ign (PWM id f d false))
  | Pin _ _ => raise AttributeError
  end.

(** [Limiter.limit] *)
Definition limit : M t unit :=
  s ← get;
  (if mode s =? UNLIMITED then
     modify (fun s => set_ign (PWM (pin s) None None true) s) ;;
     ign_freq FREQ
   else ret tt) ;;
  ign_duty LIMIT_DUTY ;;
  modify (set_mode LIMITED).

(** [Limiter.limp] *)
Definition limp : M t unit :=
  s ← get;
  (if mode s =? UNLIMITED then
     modify (set_ign (PWM 15 None None true)) ;;
     ign_freq FREQ
   else ret tt) ;;
  ign_duty LIMP_DUTY ;;
  modify (set_mode LIMP).

(** [Limiter.free] *)
Definition free : M t unit :=
  s ← get;
  (if negb (mode s =? UNLIMITED) then
     ign_deinit ;;
     modify (fun s => set_ign (Pin (pin s) None) s) ;;
     ign_off
   else ret tt) ;;
  modify (set_mode UNLIMITED).

(** [Limiter.get_mode] *)
Definition get_mode : M t Z :=
  s ← get;
  ret (mode s).

(** [Limiter.__init__].  [limit] and [limp] are defined with the single
    parameter [self]; the constructor calls them on [self] with [self]
    as an explicit argument. *)
Definition __init__body (mode_ : option Z) : M t unit :=
  modify (fun s => set_ign (Pin (pin s) None) s) ;;
  ign_off ;;
  modify (set_mode UNLIMITED) ;;
  match mode_ with
  | Some m =>
      if m =? LIMITED then call_bound 1 1 limit
      else if m =? LIMP then call_bound 1 1 limp
      else ret tt
  | None => ret tt
  end.

(** The object exists for the caller only if [__init__] returns; the
    attributes are created by its first statements ([pin], then [ign] and
    [mode], which the body sets before it reads them). *)
Definition __init__ (pin_ : Z) (mode_ : option Z) : result t :=
  match __init__body mode_ (mk pin_ (Pin pin_ None) UNLIMITED) with
  | (s, Ok _) => Ok s
  | (_, Raise e) => Raise e
  | (_, OutOfFuel) => OutOfFuel
  end.

End Limiter.

(** ** The mode update of [show]

    One pass of the [while True:] loop reads the mode once (line 452),
    obtains the two averages, and then runs two [if]/[elif] statements
    one after the other (lines 467-477 and 479-489), both on the mode read
    at the top of the pass. *)

Module Show.
Import Limiter.

(** Lines 467-477. *)
Definition first_statement (mode : Z) (rpm_avg kmh : Q) : M Limiter.t unit :=
  if negb (mode =? UNLIMITED)
     && Qltb rpm_avg (inject_Z LIMIT_RPM_LOW)
     && Qltb kmh (inject_Z LIMIT_SPEED_LOW) then
    call_bound 1 0 free
  else if negb (mode =? LIMP)
     && (Qgtb rpm_avg (inject_Z LIMP_RPM_HIGH)
         || Qgtb kmh (inject_Z LIMP_SPEED_HIGH)) then
    call_bound 1 0 limp
  else ret tt.

(** Lines 479-489. *)
Definition second_statement (mode : Z) (rpm_avg kmh : Q) : M Limiter.t unit :=
  if (mode =? UNLIMITED)
     && (Qgtb rpm_avg (inject_Z LIMIT_RPM_HIGH)
         || Qgtb kmh (inject_Z LIMIT_SPEED_HIGH)) then
    call_bound 1 0 limit
  else if (mode =? LIMP)
     && Qltb rpm_avg (inject_Z LIMP_RPM_LOW)
     && Qltb kmh (inject_Z LIMP_SPEED_LOW) then
    call_bound 1 0 limit
  else ret tt.

(** The mode update of one pass, given the averages of that pass. *)
Definition evaluate (rpm_avg kmh : Q) : M Limiter.t unit :=
  mode ← call_bound 1 0 get_mode;
  first_statement mode rpm_avg kmh ;;
  second_statement mode rpm_avg kmh.

End Show.

(** * Runs, and the vocabulary of the properties *)

(** What happens to a meter: the interrupt fires at time [now], or the
    polling loop asks for the average. *)
Inductive meter_event : Type :=
| Edge (now : Z)
| Drain.

Definition is_edge (e : meter_event) : bool :=
  match e with Edge _ => true | Drain => false end.

(** The state of the [Rpm] object after an event, and after a sequence of
    events on a new object.  The attributes keep what a call wrote even if
    the call raises. *)
Definition Rpm_step {fmt : Format} (s : Rpm.t) (e : meter_event) : Rpm.t :=
  match e with
  | Edge now => fst (Rpm.cb_spark now s)
  | Drain => fst (Rpm.avg s)
  end.

Definition Rpm_run {fmt : Format} (evs : list meter_event) : Rpm.t :=
  fold_left Rpm_step evs Rpm.__init__.

(** The same for [Speed(hall_tick_dist_mm=d)]. *)
Definition Speed_step {fmt : Format} (s : Speed.t) (e : meter_event)
  : Speed.t :=
  match e with
  | Edge now => fst (Speed.cb_hall now s)
  | Drain => fst (Speed.get_avg s)
  end.

Definition Speed_run {fmt : Format} (d : Z) (evs : list meter_event)
  : Speed.t :=
  fold_left Speed_step evs (Speed.fresh d).

(** Edges at the given times, nothing in between. *)
Definition edges (times : list Z) : list meter_event := map Edge times.

(** [n] times [step] apart: [step], [2 * step], ..., [n * step]. *)
Definition spaced (step : Z) (n : nat) : list Z :=
  map (fun i => step * Z.of_nat i) (seq 1 n).

(** What every state a meter can be in satisfies: the buffer keeps its
    size, the write index is the sentinel or a slot, the read index is a
    slot, and the pending count is not negative. *)
Record Rpm_wf (s : Rpm.t) : Prop := {
  rpm_wf_len : length (Rpm.sparks s) = 20%nat;
  rpm_wf_write : -1 <= Rpm.spark_write_index s < 20;
  rpm_wf_read : 0 <= Rpm.spark_read_index s < 20;
  rpm_wf_count : 0 <= Rpm.spark_count s
}.

Record Speed_wf (s : Speed.t) : Prop := {
  speed_wf_len : length (Speed.halls s) = 10%nat;
  speed_wf_write : -1 <= Speed.hall_write_index s < 10;
  speed_wf_read : 0 <= Speed.hall_read_index s < 10;
  speed_wf_count : 0 <= Speed.hall_count s
}.

(** The invariant of the circular buffer in the words of the
    specification, for a buffer of [n] slots: no more than [n] entries
    pending, both indices on a slot. *)
Definition within_capacity (n count write_index read_index : Z) : Prop :=
  count <= n /\ 0 <= write_index < n /\ 0 <= read_index < n.

(** The burst timer samples the button at the given levels, in turn. *)
Fixpoint button_samples (values : list Z) : M Button.t unit :=
  match values with
  | [] => ret tt
  | v :: vs => Button.cb_button_series v ;; button_samples vs
  end.

(** A gesture from the confirmation of the press on: the debounce timer
    fires with the button down, the burst timer samples the given levels,
    and the polling loop then asks for the count. *)
Definition button_gesture (values : list Z) : M Button.t Z :=
  Button.cb_button_debounce Button.BUTTON_DOWN ;;
  button_samples values ;;
  Button.pressed.

(** [Limiter()], as [show] constructs it. *)
Definition show_limiter : Limiter.t :=
  Limiter.mk 15 (Limiter.Pin 15 (Some 0)) Limiter.UNLIMITED.

(** The output object agrees with the mode: a plain pin exactly in
    UNLIMITED mode, a live PWM otherwise. *)
Definition Limiter_wf (l : Limiter.t) : Prop :=
  match Limiter.ign l with
  | Limiter.Pin _ _ => Limiter.mode l = Limiter.UNLIMITED
  | Limiter.PWM _ _ _ active =>
      active = true /\
      (Limiter.mode l = Limiter.LIMITED \/ Limiter.mode l = Limiter.LIMP)
  end.

(** Successive passes of the loop of [show] over the given readings
    [(rpm_avg, kmh)]; the result lists the mode after each pass. *)
Fixpoint show_passes (readings : list (Q * Q)) : M Limiter.t (list Z) :=
  match readings with
  | [] => ret []
  | (rpm_avg, kmh) :: rest =>
      Show.evaluate rpm_avg kmh ;;
      m ← Limiter.get_mode;
      ms ← show_passes rest;
      ret (m :: ms)
  end.

(** The changes of mode in a sequence of modes that follows mode [m]. *)
Fixpoint transitions (m : Z) (ms : list Z) : list (Z * Z) :=
  match ms with
  | [] => []
  | m' :: ms' =>
      if m =? m' then transitions m' ms' else (m, m') :: transitions m' ms'
  end.

(** The sum of the wrap-safe intervals between the times [ts], the first
    one measured from [base]; and the last of these times, [base] if there
    is none. *)
Fixpoint interval_sum (base : Z) (ts : list Z) : Z :=
  match ts with
  | [] => 0
  | t :: ts' => ticks_diff t base + interval_sum t ts'
  end.

Fixpoint newest (base : Z) (ts : list Z) : Z :=
  match ts with
  | [] => base
  | t :: ts' => newest t ts'
  end.

(** Each of the times [ts] is more than [threshold] ticks after the one
    before it, the first after [last] if there is one. *)
Fixpoint spaced_over (threshold : Z) (last : option Z) (ts : list Z) : bool :=
  match ts with
  | [] => true
  | t :: ts' =>
      match last with
      | Some l => ticks_diff t l >? threshold
      | None => true
      end && spaced_over threshold (Some t) ts'
  end.

(** The entries the polling loop has not read yet, oldest first: the
    slots from the read index on, as many as the pending count. *)
Definition Rpm_pending (s : Rpm.t) : list Z :=
  map (fun i : nat =>
         default 0
           (Rpm.sparks s !!
              Z.to_nat ((Rpm.spark_read_index s + Z.of_nat i)
                        mod Rpm.ARRAYSIZE)))
      (seq 0 (Z.to_nat (Rpm.spark_count s))).

(** Producer and consumer agree on the ring: the slot after the pending
    entries is the slot after the write index. *)
Definition Rpm_ring (s : Rpm.t) : Prop :=
  (Rpm.spark_read_index s + Rpm.spark_count s) mod Rpm.ARRAYSIZE
  = (Rpm.spark_write_index s + 1) mod Rpm.ARRAYSIZE.

(** The time of the last edge stored, if any. *)
Definition Rpm_last_stored (s : Rpm.t) : option Z :=
  if Rpm.spark_write_index s =? -1 then None
  else Rpm.sparks s !! Z.to_nat (Rpm.spark_write_index s).

(** An edge passes the bounce filter of the handler. *)
Definition Rpm_passes (s : Rpm.t) (now : Z) : Prop :=
  match Rpm_last_stored s with
  | Some l => ticks_diff now l > 4
  | None => True
  end.

(** The entries the polling loop has not read yet, oldest first: the
    slots from the read index on, as many as the pending count. *)
Definition Speed_pending (s : Speed.t) : list Z :=
  map (fun i : nat =>
         default 0
           (Speed.halls s !!
              Z.to_nat ((Speed.hall_read_index s + Z.of_nat i)
                        mod Speed.ARRAYSIZE)))
      (seq 0 (Z.to_nat (Speed.hall_count s))).

(** Producer and consumer agree on the ring: the slot after the pending
    entries is the slot after the write index. *)
Definition Speed_ring (s : Speed.t) : Prop :=
  (Speed.hall_read_index s + Speed.hall_count s) mod Speed.ARRAYSIZE
  = (Speed.hall_write_index s + 1) mod Speed.ARRAYSIZE.

(** The time of the last edge stored, if any. *)
Definition Speed_last_stored (s : Speed.t) : option Z :=
  if Speed.hall_write_index s =? -1 then None
  else Speed.halls s !! Z.to_nat (Speed.hall_write_index s).

(** An edge passes the bounce filter of the handler. *)
Definition Speed_passes (s : Speed.t) (now : Z) : Prop :=
  match Speed_last_stored s with
  | Some l => ticks_diff now l > 36
  | None => True
  end.

(** What happens to the button detector: the pin interrupt fires at time
    [now]; one of its two timers expires while the pin reads [value]; the
    polling loop asks for the count. *)
Inductive button_event : Type :=
| Press (now : Z)
| Debounce_timeout (value : Z)
| Series_tick (value : Z)
| Poll.

(** One event.  A timer calls back only while it is armed, and a
    one-shot timer is done once it has expired. *)
Definition Button_step (s : Button.t) (e : button_event) : Button.t :=
  match e with
  | Press now => fst (Button.cb_button now s)
  | Debounce_timeout value =>
      match Button.button_debounce_timer s with
      | Button.Armed _ _ Button.Cb_button_debounce =>
          fst (Button.cb_button_debounce value
                 (Button.set_button_debounce_timer Button.Stopped s))
      | _ => s
      end
  | Series_tick value =>
      match Button.button_series_click_timer s with
      | Button.Armed _ _ Button.Cb_button_series =>
          fst (Button.cb_button_series value s)
      | _ => s
      end
  | Poll => fst (Button.pressed s)
  end.

Definition Button_run (evs : list button_event) : Button.t :=
  fold_left Button_step evs Button.__init__.

(** What every state of the detector satisfies: the flags tell which
    timer is armed, at most one is; the polling interval is the short one
    exactly while a flag is up; the count is not negative, and at least 1
    while a burst is counted; the last sampled level is a level. *)
Record Button_inv (s : Button.t) : Prop := {
  button_inv_debounce :
    Button.button_debounce_timer s =
      if Button.button_waiting_bounce s
      then Button.Armed Button.BUTTON_BOUNCE_DELAY_MS Button.ONE_SHOT
             Button.Cb_button_debounce
      else Button.Stopped;
  button_inv_series :
    Button.button_series_click_timer s =
      if Button.button_waiting_more_clicks s
      then Button.Armed Button.BUTTON_SERIES_PRESS_DELAY_MS Button.PERIODIC
             Button.Cb_button_series
      else Button.Stopped;
  button_inv_one :
    Button.button_waiting_bounce s && Button.button_waiting_more_clicks s
    = false;
  button_inv_sleep :
    Button.main_loop_sleep s =
      if Button.button_waiting_bounce s || Button.button_waiting_more_clicks s
      then Button.BUTTON_CHECK_SLEEP
      else Button.NORMAL_SLEEP;
  button_inv_count :
    (if Button.button_waiting_more_clicks s then 1 else 0)
    <= Button.button_press_count s;
  button_inv_level :
    Button.button_series_click_prev_value s = Button.BUTTON_DOWN \/
    Button.button_series_click_prev_value s = Button.BUTTON_UP
}.

(** The samples of a burst, read as the detector reads them: the presses
    they add (a sample that finds the button down after one that found it
    up), and whether they end the burst (two samples in a row that find
    it up).  [down] tells whether the sample before found it down. *)
Fixpoint burst_rises (down : bool) (values : list Z) : Z :=
  match values with
  | [] => 0
  | v :: vs =>
      if v =? Button.BUTTON_DOWN
      then (if down then 0 else 1) + burst_rises true vs
      else if down then burst_rises false vs else 0
  end.

Fixpoint burst_ended (down : bool) (values : list Z) : bool :=
  match values with
  | [] => false
  | v :: vs =>
      if v =? Button.BUTTON_DOWN then burst_ended true vs
      else if down then burst_ended false vs else true
  end.

(** The limiter of [show] in the two restricted modes: the PWM on pin 15
    at [FREQ], with the duty of the mode. *)
Definition limiter_limited : Limiter.t :=
  Limiter.mk 15
    (Limiter.PWM 15 (Some Limiter.FREQ) (Some Limiter.LIMIT_DUTY) true)
    Limiter.LIMITED.

Definition limiter_limp : Limiter.t :=
  Limiter.mk 15
    (Limiter.PWM 15 (Some Limiter.FREQ) (Some Limiter.LIMP_DUTY) true)
    Limiter.LIMP.

(** The state of the limiter of [show] after passes over the given
    readings. *)
Definition limiter_after (readings : list (Q * Q)) : Limiter.t :=
  fst (show_passes readings show_limiter).

(** ** The loop of [show]

    The objects [show] constructs, its pass counter [i], and what it sends
    out: the calls of the two [Display] methods with their arguments, and
    the sleeps.  ([Display] draws through the display driver; of a call
    only the fact and the arguments are kept.  The [print] calls and the
    garbage collector are left out.) *)

Module Loop.

Inductive output : Type :=
| Display_speed (speed : Z)
| Display_rpm_speed (rpm speed : Q)
| Sleep_ms (ms : Z).

Record t : Type := mk {
  rpm : Rpm.t;
  speed : Speed.t;
  button : Button.t;
  limiter : Limiter.t;
  i : Z;
  log : list output
}.

Definition set_rpm (v : Rpm.t) (s : t) : t :=
  mk v (speed s) (button s) (limiter s) (i s) (log s).
Definition set_speed (v : Speed.t) (s : t) : t :=
  mk (rpm s) v (button s) (limiter s) (i s) (log s).
Definition set_button (v : Button.t) (s : t) : t :=
  mk (rpm s) (speed s) v (limiter s) (i s) (log s).
Definition set_limiter (v : Limiter.t) (s : t) : t :=
  mk (rpm s) (speed s) (button s) v (i s) (log s).
Definition set_i (v : Z) (s : t) : t :=
  mk (rpm s) (speed s) (button s) (limiter s) v (log s).
Definition set_log (v : list output) (s : t) : t :=
  mk (rpm s) (speed s) (button s) (limiter s) (i s) v.

(** A method called on one of the objects. *)
Definition on_rpm {A} (m : M Rpm.t A) : M t A :=
  fun s => let (o, r) := m (rpm s) in (set_rpm o s, r).
Definition on_speed {A} (m : M Speed.t A) : M t A :=
  fun s => let (o, r) := m (speed s) in (set_speed o s, r).
Definition on_button {A} (m : M Button.t A) : M t A :=
  fun s => let (o, r) := m (button s) in (set_button o s, r).
Definition on_limiter {A} (m : M Limiter.t A) : M t A :=
  fun s => let (o, r) := m (limiter s) in (set_limiter o s, r).

Definition emit (o : output) : M t unit :=
  modify (fun s => set_log (log s ++ [o]) s).

(** What can interrupt the loop: an edge on one of the three pins, or the
    expiry of one of the two timers of the button. *)
Inductive irq : Type :=
| Spark (now : Z)
| Hall (now : Z)
| Button_irq (e : button_event).

(** Only the loop polls the button. *)
Definition is_poll (e : button_event) : bool :=
  match e with Poll => true | _ => false end.

Definition irq_step {fmt : Format} (s : t) (e : irq) : t :=
  match e with
  | Spark now => set_rpm (Rpm_step (rpm s) (Edge now)) s
  | Hall now => set_speed (Speed_step (speed s) (Edge now)) s
  | Button_irq e =>
      if is_poll e then s else set_button (Button_step (button s) e) s
  end.

Definition irqs {fmt : Format} (es : list irq) : M t unit :=
  modify (fun s => fold_left irq_step es s).

(** The interrupts that arrive during one pass, by the place at which
    they arrive: before the button is polled (the sleep of the pass before
    included), then before each of the later reads of what the handlers
    write: by [rpm.avg()], by [speed.get_avg()], by the test of
    [button.main_loop_sleep] (line 495), and by the read of
    [button.main_loop_sleep] for the sleep (line 502). *)
Record arrivals : Type := mk_arrivals {
  before_pressed : list irq;
  before_avg : list irq;
  before_get_avg : list irq;
  before_render : list irq;
  before_sleep : list irq
}.

(** Lines 456-461: a positive press count is shown for half a second. *)
Definition flash (button_presses : Z) : M t unit :=
  if button_presses >? 0 then
    emit (Display_speed button_presses) ;;
    emit (Sleep_ms 500)
  else ret tt.

(** Lines 463-502: the averages, the mode update on the mode read at the
    top of the pass, the display, the sleep. *)
Definition measure_and_limit {fmt : Format} (a : arrivals) (mode : Z)
  : M t unit :=
  irqs (before_avg a) ;;
  rpm_avg ← on_rpm (call_bound 1 0 Rpm.avg);
  irqs (before_get_avg a) ;;
  kmh ← on_speed (call_bound 1 0 Speed.get_avg);
  on_limiter (Show.first_statement mode rpm_avg kmh) ;;
  on_limiter (Show.second_statement mode rpm_avg kmh) ;;
  irqs (before_render a) ;;
  s ← get;
  (if Button.main_loop_sleep (button s) =? Button.NORMAL_SLEEP then
     emit (Display_rpm_speed rpm_avg kmh)
   else if i s mod (Button.NORMAL_SLEEP / Button.BUTTON_CHECK_SLEEP) =? 0 then
     emit (Display_rpm_speed rpm_avg kmh)
   else ret tt) ;;
  irqs (before_sleep a) ;;
  s ← get;
  emit (Sleep_ms (Button.main_loop_sleep (button s))).

(** One pass of the [while True:] loop (lines 450-502). *)
Definition pass {fmt : Format} (a : arrivals) : M t unit :=
  modify (fun s => set_i (i s + 1) s) ;;
  mode ← on_limiter (call_bound 1 0 Limiter.get_mode);
  irqs (before_pressed a) ;;
  button_presses ← on_button (call_bound 1 0 Button.pressed);
  flash button_presses ;;
  measure_and_limit a mode.

(** The objects as [show] constructs them (lines 438-446), [i = 0]. *)
Definition init : t :=
  {| rpm := Rpm.__init__;
     speed := Speed.fresh 298;
     button := Button.__init__;
     limiter := show_limiter;
     i := 0;
     log := [] |}.

(** The loop, for as many passes as arrivals are given; an exception
    ends it. *)
Fixpoint passes {fmt : Format} (schedule : list arrivals) : M t unit :=
  match schedule with
  | [] => ret tt
  | a :: rest => pass a ;; passes rest
  end.

End Loop.

(** What the loop keeps true of its objects and of what it sends out. *)
Definition output_ok (o : Loop.output) : Prop :=
  match o with
  | Loop.Display_speed n => 1 <= n
  | Loop.Display_rpm_speed _ _ => True
  | Loop.Sleep_ms ms =>
      ms = 500 \/ ms = Button.BUTTON_CHECK_SLEEP \/ ms = Button.NORMAL_SLEEP
  end.

Record Loop_inv (s : Loop.t) : Prop := {
  loop_inv_rpm : Rpm_wf (Loop.rpm s);
  loop_inv_speed : Speed_wf (Loop.speed s);
  loop_inv_button : Button_inv (Loop.button s);
  loop_inv_limiter :
    Loop.limiter s = show_limiter \/ Loop.limiter s = limiter_limited \/
    Loop.limiter s = limiter_limp;
  loop_inv_log : Forall output_ok (Loop.log s)
}.

(** A step of the loop keeps [Loop_inv], and returns or raises
    [ZeroDivisionError]. *)
Definition Loop_safe {A} (m : M Loop.t A) : Prop :=
  forall s : Loop.t,
    Loop_inv s ->
    Loop_inv (fst (m s)) /\
    (snd (m s) = Raise ZeroDivisionError \/ exists a, snd (m s) = Ok a).

(** A step of the loop only adds to what was sent out, and no flash of a
    press count. *)
Definition is_flash (o : Loop.output) : bool :=
  match o with Loop.Display_speed _ => true | _ => false end.

Definition Loop_quiet {A} (m : M Loop.t A) : Prop :=
  forall s : Loop.t,
    exists rest : list Loop.output,
      Loop.log (fst (m s)) = Loop.log s ++ rest /\
      forallb (fun o => negb (is_flash o)) rest = true.

(** Where no format is named, it is double precision. *)
#[global] Existing Instance binary64.

(** * Properties *)

(** ** The run time *)

Section PyFacts.

Lemma Qltb_lt (x y : Q) : Qltb x y = true <-> (x < y)%Q.
Proof.
  unfold Qltb. rewrite Qlt_alt.
  destruct (x ?= y)%Q; split; congruence.
Qed.

Lemma Qltb_ge (x y : Q) : Qltb x y = false <-> (y <= x)%Q.
Proof.
  rewrite <- not_true_iff_false, Qltb_lt. split.
  - apply Qnot_lt_le.
  - apply Qle_not_lt.
Qed.

Lemma index_in_range (len i : Z) :
  0 <= i < len -> index len i = Ok (Z.to_nat i).
Proof.
  intros [H0 H1]. unfold index.
  apply Z.leb_le in H0. apply Z.ltb_lt in H1. now rewrite H0, H1.
Qed.

Lemma array_get_in_range (a : list Z) (i : Z) :
  0 <= i < Z.of_nat (length a) ->
  exists v, a !! Z.to_nat i = Some v /\ array_get a i = Ok v.
Proof.
  intros H. unfold array_get. rewrite index_in_range by exact H.
  destruct (lookup_lt_is_Some_2 a (Z.to_nat i)) as [v Hv]; [lia|].
  exists v. now rewrite Hv.
Qed.

Lemma array_set_in_range (a : list Z) (i v : Z) :
  0 <= i < Z.of_nat (length a) ->
  array_set a i v = Ok (<[Z.to_nat i := v]> a).
Proof. intros H. unfold array_set. now rewrite index_in_range. Qed.

Lemma array_get_set (a : list Z) (i v : Z) :
  0 <= i < Z.of_nat (length a) ->
  array_get (<[Z.to_nat i := v]> a) i = Ok v.
Proof.
  intros H. unfold array_get. rewrite length_insert.
  rewrite index_in_range by exact H.
  rewrite list_lookup_insert_eq by lia. reflexivity.
Qed.

(** A timestamp is never later than itself by more than any threshold. *)
Lemma ticks_diff_same (a : Z) : ticks_diff a a = 0.
Proof. unfold ticks_diff. rewrite Z.sub_diag. reflexivity. Qed.

End PyFacts.

(** ** Floats *)

Section RoundingFacts.

Local Open Scope Q_scope.

Lemma pow2_pos (e : Z) : 0 < 2 ^ e.
Proof. apply Qpower_0_lt. reflexivity. Qed.

Lemma pow2_add (a b : Z) : 2 ^ (a + b) == 2 ^ a * 2 ^ b.
Proof. apply Qpower_plus. discriminate. Qed.

Lemma pow2_succ (e : Z) : 2 ^ (e + 1) == 2 * 2 ^ e.
Proof. rewrite pow2_add. change (2 ^ 1) with 2. ring. Qed.

Lemma pow2_pred (e : Z) : 2 * 2 ^ (e - 1) == 2 ^ e.
Proof.
  rewrite <- pow2_succ. replace (e - 1 + 1)%Z with e by lia. reflexivity.
Qed.

Lemma pow2_cancel (e : Z) : 2 ^ (- e) * 2 ^ e == 1.
Proof.
  rewrite <- pow2_add. replace (- e + e)%Z with 0%Z by lia. reflexivity.
Qed.

Lemma pow2_inject (n : Z) : (0 <= n)%Z -> inject_Z (2 ^ n) == 2 ^ n.
Proof. intros Hn. apply (Zpower_Qpower 2 n Hn). Qed.

Lemma pow2_le (a b : Z) : (a <= b)%Z -> 2 ^ a <= 2 ^ b.
Proof. intros H. apply Qpower_le_compat_l; [exact H | discriminate]. Qed.

Lemma pow2_lt_inv (a b : Z) : 2 ^ a < 2 ^ b -> (a < b)%Z.
Proof.
  intros H. destruct (Z_lt_le_dec a b) as [Hlt|Hge]; [exact Hlt|].
  apply pow2_le in Hge. lra.
Qed.

(** [rint] is within one half of its argument. *)
Lemma rint_error (y : Q) : Qabs (inject_Z (rint y) - y) <= 1 # 2.
Proof.
  unfold rint.
  pose proof (Qfloor_le y) as Hlo. pose proof (Qlt_floor y) as Hhi.
  rewrite inject_Z_plus in Hhi. change (inject_Z 1) with 1 in Hhi.
  apply Qabs_Qle_condition.
  destruct (y - inject_Z (Qfloor y) ?= 1 # 2) eqn:Hcmp.
  - apply Qeq_alt in Hcmp.
    destruct (Z.even (Qfloor y));
      rewrite ?inject_Z_plus; change (inject_Z 1) with 1; lra.
  - apply Qlt_alt in Hcmp. lra.
  - apply Qgt_alt in Hcmp.
    rewrite inject_Z_plus. change (inject_Z 1) with 1. lra.
Qed.

#[local] Instance rint_comp : Proper (Qeq ==> eq) rint.
Proof.
  intros x y Hxy. unfold rint.
  rewrite (Qfloor_comp x y Hxy).
  assert (x - inject_Z (Qfloor y) == y - inject_Z (Qfloor y)) as Heq
    by (rewrite Hxy; reflexivity).
  rewrite (Qcompare_comp _ _ Heq (1 # 2) (1 # 2) (Qeq_refl _)).
  reflexivity.
Qed.

Lemma rint_Z (k : Z) : rint (inject_Z k) = k.
Proof.
  unfold rint. rewrite Qfloor_Z.
  destruct (inject_Z k - inject_Z k ?= 1 # 2) eqn:Hcmp.
  - apply Qeq_alt in Hcmp. lra.
  - reflexivity.
  - apply Qgt_alt in Hcmp. lra.
Qed.

(** [exponent x] is the integer part of the binary logarithm of [|x|]. *)
Lemma exponent_spec (x : Q) :
  ~ x == 0 -> 2 ^ exponent x <= Qabs x /\ Qabs x < 2 ^ (exponent x + 1).
Proof.
  intros Hx. unfold exponent.
  destruct x as [n d]. cbn [Qnum Qden].
  set (a := Z.abs n). set (la := Z.log2 a). set (ld := Z.log2 (Zpos d)).
  assert (0 < a)%Z as Ha.
  { unfold a. unfold Qeq in Hx. cbn in Hx. lia. }
  destruct (Z.log2_spec a Ha) as [Ha1 Ha2]. fold la in Ha1, Ha2.
  destruct (Z.log2_spec (Zpos d) eq_refl) as [Hd1 Hd2]. fold ld in Hd1, Hd2.
  assert (0 <= la)%Z as Hla by apply Z.log2_nonneg.
  assert (0 <= ld)%Z as Hld by apply Z.log2_nonneg.
  assert (Qabs (n # d) == inject_Z a / inject_Z (Zpos d)) as Habs.
  { unfold Qabs, a. rewrite (Qmake_Qdiv (Z.abs n) d). reflexivity. }
  assert (0 < inject_Z (Zpos d)) as HD.
  { unfold Qlt, inject_Z. cbn. lia. }
  assert (2 ^ la <= inject_Z a /\ inject_Z a < 2 * 2 ^ la) as [HA1 HA2].
  { rewrite <- pow2_succ, <- !pow2_inject by lia.
    rewrite <- Zle_Qle, <- Zlt_Qlt.
    replace (la + 1)%Z with (Z.succ la) by lia. split; assumption. }
  assert (2 ^ ld <= inject_Z (Zpos d) /\ inject_Z (Zpos d) < 2 * 2 ^ ld)
    as [HD1 HD2].
  { rewrite <- pow2_succ, <- !pow2_inject by lia.
    rewrite <- Zle_Qle, <- Zlt_Qlt.
    replace (ld + 1)%Z with (Z.succ ld) by lia. split; assumption. }
  pose proof (pow2_pos la) as Hpa. pose proof (pow2_pos ld) as Hpd.
  pose proof (pow2_pos (la - ld)) as Hpk.
  assert (2 ^ la == 2 ^ (la - ld) * 2 ^ ld) as Hk.
  { rewrite <- pow2_add. replace (la - ld + ld)%Z with la by lia.
    reflexivity. }
  assert (2 ^ (la - ld - 1) < Qabs (n # d)) as Hlow.
  { rewrite Habs. apply Qlt_shift_div_l; [exact HD|].
    pose proof (pow2_pred (la - ld)) as Hp.
    pose proof (pow2_pos (la - ld - 1)) as Hq.
    assert (2 ^ (la - ld - 1) * inject_Z (Zpos d)
            < 2 ^ (la - ld - 1) * (2 * 2 ^ ld)) as Hlt
      by (apply Qmult_lt_l; assumption).
    assert (2 ^ (la - ld - 1) * (2 * 2 ^ ld) == 2 ^ la) as Heq
      by (rewrite Hk, <- Hp; ring).
    lra. }
  assert (Qabs (n # d) < 2 ^ (la - ld + 1)) as Hhigh.
  { rewrite Habs. apply Qlt_shift_div_r; [exact HD|].
    rewrite pow2_succ.
    assert (2 ^ (la - ld) * 2 ^ ld <= 2 ^ (la - ld) * inject_Z (Zpos d))
      as Hle by (apply Qmult_le_l; assumption).
    lra. }
  destruct (Qle_bool (2 ^ (la - ld)) (Qabs (n # d))) eqn:Hcmp.
  - apply Qle_bool_iff in Hcmp. split; assumption.
  - assert (Qabs (n # d) < 2 ^ (la - ld)) as Hlt.
    { apply Qnot_le_lt. intros Hle. apply Qle_bool_iff in Hle.
      congruence. }
    replace (la - ld - 1 + 1)%Z with (la - ld)%Z by lia.
    split; [apply Qlt_le_weak|]; assumption.
Qed.

(** Rounding to [p] bits is multiplication by [1 + d] for a [d] of at
    most [2^-p]: the standard model of floating-point arithmetic. *)
Lemma round_to_error (p : positive) (x : Q) :
  exists d : Q,
    Qabs d <= 2 ^ (- Zpos p) /\ round_to p x == x * (1 + d).
Proof.
  unfold round_to. destruct (Qeq_bool x 0) eqn:Hzero.
  - apply Qeq_bool_iff in Hzero. exists 0. split.
    + apply Qlt_le_weak, pow2_pos.
    + rewrite Hzero. ring.
  - assert (~ x == 0) as Hx.
    { intros H. apply Qeq_bool_iff in H. congruence. }
    destruct (exponent_spec x Hx) as [Hlo _].
    set (e := (exponent x - (Zpos p - 1))%Z).
    pose proof (pow2_cancel e) as Hcancel.
    pose proof (pow2_pos e) as Hpe. pose proof (pow2_pos (- e)) as Hpne.
    remember (x * 2 ^ (- e)) as y eqn:Hy.
    assert (y * 2 ^ e == x) as Hback.
    { rewrite Hy, <- Qmult_assoc, Hcancel. ring. }
    assert (2 ^ (Zpos p - 1) <= Qabs y) as Hbig.
    { rewrite Hy, Qabs_Qmult, (Qabs_pos (2 ^ (- e)))
        by (apply Qlt_le_weak; exact Hpne).
      assert (2 ^ (Zpos p - 1) == 2 ^ exponent x * 2 ^ (- e)) as ->.
      { rewrite <- pow2_add. unfold e.
        replace (exponent x + - (exponent x - (Zpos p - 1)))%Z
          with (Zpos p - 1)%Z by lia.
        reflexivity. }
      apply Qmult_le_compat_r; [exact Hlo | apply Qlt_le_weak; exact Hpne]. }
    pose proof (pow2_pos (Zpos p - 1)) as Hpp.
    assert (0 < Qabs y) as Hypos by lra.
    assert (~ y == 0) as Hyn.
    { intros H. assert (Qabs y == 0) as Hz by (rewrite H; reflexivity).
      lra. }
    exists ((inject_Z (rint y) - y) / y). split.
    + unfold Qdiv. rewrite Qabs_Qmult, Qabs_Qinv.
      apply Qle_shift_div_r; [exact Hypos|].
      pose proof (rint_error y) as Herr.
      assert (2 ^ (- Zpos p) * 2 ^ (Zpos p - 1) == 1 # 2) as Hhalf.
      { rewrite <- pow2_add.
        replace (- Zpos p + (Zpos p - 1))%Z with (- 1)%Z by lia.
        reflexivity. }
      pose proof (pow2_pos (- Zpos p)) as Hpm.
      assert (2 ^ (- Zpos p) * 2 ^ (Zpos p - 1)
              <= 2 ^ (- Zpos p) * Qabs y) as Hle
        by (apply Qmult_le_l; assumption).
      lra.
    + rewrite <- Hback. field. exact Hyn.
Qed.

Lemma pow2_neg_le_half (p : positive) : 2 ^ (- Zpos p) <= 1 # 2.
Proof. change (1 # 2) with (2 ^ (- 1)). apply pow2_le. lia. Qed.

(** Rounding keeps zero and nothing else at zero: the exponent range is
    not bounded, there is no underflow. *)
Lemma round_to_zero (p : positive) (x : Q) : round_to p x == 0 <-> x == 0.
Proof.
  split.
  - intros Hr. destruct (round_to_error p x) as (d & Hd & Heq).
    rewrite Heq in Hr.
    pose proof (pow2_neg_le_half p) as Hhalf.
    apply Qabs_Qle_condition in Hd.
    destruct (Qmult_integral _ _ Hr) as [H|H]; [exact H | lra].
  - intros Hx. unfold round_to.
    apply Qeq_bool_iff in Hx. rewrite Hx. reflexivity.
Qed.

(** Integers of at most [p] bits are floats. *)
Lemma round_to_Z (p : positive) (z : Z) :
  (Z.abs z < 2 ^ Zpos p)%Z -> round_to p (inject_Z z) == inject_Z z.
Proof.
  intros Hz. unfold round_to.
  destruct (Qeq_bool (inject_Z z) 0) eqn:Hzero.
  - apply Qeq_bool_iff in Hzero. rewrite Hzero. reflexivity.
  - assert (~ inject_Z z == 0) as Hx.
    { intros H. apply Qeq_bool_iff in H. congruence. }
    destruct (exponent_spec _ Hx) as [Hlo _].
    set (e := (exponent (inject_Z z) - (Zpos p - 1))%Z).
    assert (e <= 0)%Z as He.
    { assert (2 ^ exponent (inject_Z z) < 2 ^ Zpos p) as Hlt.
      { eapply Qle_lt_trans; [exact Hlo|].
        rewrite <- pow2_inject by lia.
        assert (Qabs (inject_Z z) == inject_Z (Z.abs z)) as ->
          by reflexivity.
        rewrite <- Zlt_Qlt. exact Hz. }
      apply pow2_lt_inv in Hlt. unfold e. lia. }
    assert (inject_Z z * 2 ^ (- e) == inject_Z (z * 2 ^ (- e))) as Hy.
    { rewrite inject_Z_mult, pow2_inject by lia. reflexivity. }
    rewrite Hy, rint_Z, <- Hy, <- Qmult_assoc, pow2_cancel. ring.
Qed.

(** A number within [eps] of 1. *)
Lemma near_one (eps d : Q) :
  Qabs d <= eps -> 1 - eps <= 1 + d <= 1 + eps.
Proof. intros H. apply Qabs_Qle_condition in H. lra. Qed.

(** The product of two numbers between [lo] and [hi]. *)
Lemma product_between (lo hi lo' hi' x y : Q) :
  0 <= lo -> 0 <= lo' -> lo <= x <= hi -> lo' <= y <= hi' ->
  lo * lo' <= x * y <= hi * hi'.
Proof.
  intros Hlo Hlo' [Hx1 Hx2] [Hy1 Hy2]. split.
  - apply Qmult_le_compat_nonneg; split; assumption.
  - apply Qmult_le_compat_nonneg; split; lra.
Qed.

(** If [q] is [c] times a ratio of two numbers near each other, [q] is
    near [c]. *)
Lemma ratio_bound (k c q n d : Q) :
  0 < d -> n - d <= k * d -> d - n <= k * d ->
  q == c * (n / d) ->
  Qabs (q - c) <= k * Qabs c.
Proof.
  intros Hd Hup Hdown Hq.
  assert (q - c == (n - d) / d * c) as -> by (rewrite Hq; field; lra).
  rewrite Qabs_Qmult.
  apply Qmult_le_compat_r; [|apply Qabs_nonneg].
  apply Qabs_Qle_condition. split.
  - apply Qle_shift_div_l; [exact Hd | lra].
  - apply Qle_shift_div_r; [exact Hd | lra].
Qed.

(** Four roundings, two above and two below the line. *)
Lemma four_roundings (eps d0 d1 d2 d3 c q : Q) :
  0 <= eps <= 1 # 32768 ->
  Qabs d0 <= eps -> Qabs d1 <= eps -> Qabs d2 <= eps -> Qabs d3 <= eps ->
  q == c * ((1 + d2) * (1 + d3) / ((1 + d0) * (1 + d1))) ->
  Qabs (q - c) <= 5 * eps * Qabs c.
Proof.
  intros Heps H0 H1 H2 H3 Hq.
  apply near_one in H0, H1, H2, H3.
  assert (0 <= 1 - eps) as Hlo by lra.
  pose proof (product_between _ _ _ _ _ _ Hlo Hlo H0 H1) as Hd.
  pose proof (product_between _ _ _ _ _ _ Hlo Hlo H2 H3) as Hn.
  set (n := (1 + d2) * (1 + d3)) in *. set (d := (1 + d0) * (1 + d1)) in *.
  assert (0 <= eps * eps <= eps * (1 # 32768)) as Hsq.
  { split; [apply Qmult_le_0_compat; lra|].
    apply Qmult_le_compat_nonneg; split; lra. }
  assert (0 <= eps * d) as Hed by (apply Qmult_le_0_compat; lra).
  assert (eps * ((1 - eps) * (1 - eps)) <= eps * d) as Hlow.
  { destruct (Qeq_dec eps 0) as [Hz|Hnz]; [rewrite Hz; lra|].
    apply Qmult_le_l; lra. }
  assert (0 <= eps * (eps * eps)) as Hcube
    by (apply Qmult_le_0_compat; lra).
  apply (ratio_bound (5 * eps) c q n d); [lra | lra | lra | exact Hq].
Qed.

(** Five roundings, three above and two below the line. *)
Lemma five_roundings (eps d0 d1 d2 d3 d4 c q : Q) :
  0 <= eps <= 1 # 32768 ->
  Qabs d0 <= eps -> Qabs d1 <= eps -> Qabs d2 <= eps -> Qabs d3 <= eps ->
  Qabs d4 <= eps ->
  q == c * ((1 + d2) * (1 + d3) * (1 + d4) / ((1 + d0) * (1 + d1))) ->
  Qabs (q - c) <= 6 * eps * Qabs c.
Proof.
  intros Heps H0 H1 H2 H3 H4 Hq.
  apply near_one in H0, H1, H2, H3, H4.
  assert (0 <= 1 - eps) as Hlo by lra.
  pose proof (product_between _ _ _ _ _ _ Hlo Hlo H0 H1) as Hd.
  pose proof (product_between _ _ _ _ _ _ Hlo Hlo H2 H3) as Hn.
  assert (0 <= (1 - eps) * (1 - eps)) as Hlo2
    by (apply Qmult_le_0_compat; lra).
  pose proof (product_between _ _ _ _ _ _ Hlo2 Hlo Hn H4) as Hn3.
  set (n := (1 + d2) * (1 + d3) * (1 + d4)) in *.
  set (d := (1 + d0) * (1 + d1)) in *.
  clear Hn.
  assert (0 <= eps * eps <= eps * (1 # 32768)) as Hsq.
  { split; [apply Qmult_le_0_compat; lra|].
    apply Qmult_le_compat_nonneg; split; lra. }
  assert (0 <= eps * eps * eps <= eps * eps * (1 # 32768)) as Hcube.
  { split; [apply Qmult_le_0_compat; lra|].
    apply Qmult_le_compat_nonneg; split; lra. }
  assert (eps * ((1 - eps) * (1 - eps)) <= eps * d) as Hlow.
  { destruct (Qeq_dec eps 0) as [Hz|Hnz]; [rewrite Hz; lra|].
    apply Qmult_le_l; lra. }
  apply (ratio_bound (6 * eps) c q n d); [lra | lra | lra | exact Hq].
Qed.

End RoundingFacts.

(** The operations of a format, from the facts of rounding. *)

Section FloatFacts.
Context {fmt : Format}.

Local Open Scope Q_scope.

(** The unit roundoff of the format. *)
Lemma fround_error (x : Q) :
  exists d : Q,
    Qabs d <= 2 ^ (- Zpos mant_dig) /\ fround x == x * (1 + d).
Proof. apply round_to_error. Qed.

Lemma fround_zero (x : Q) : fround x == 0 <-> x == 0.
Proof. apply round_to_zero. Qed.

Lemma of_int_zero (z : Z) : Qeq_bool (of_int z) 0 = (z =? 0)%Z.
Proof.
  unfold of_int. destruct (Z.eqb_spec z 0) as [->|Hne].
  - apply Qeq_bool_iff, fround_zero. reflexivity.
  - apply not_true_iff_false. intros Heq.
    apply Qeq_bool_iff in Heq. apply (proj1 (fround_zero _)) in Heq.
    apply Hne, inject_Z_injective. exact Heq.
Qed.

(** An integer of at most 15 bits is a float of every format that has
    15 bits or more. *)
Lemma of_int_exact (z : Z) :
  (15 <= Zpos mant_dig)%Z -> (Z.abs z < 32768)%Z ->
  of_int z == inject_Z z.
Proof.
  intros Hp Hz. apply round_to_Z.
  eapply Z.lt_le_trans; [exact Hz|].
  change 32768%Z with (2 ^ 15)%Z. apply Z.pow_le_mono_r; lia.
Qed.

(** The mean interval is zero exactly when the interval sum is. *)
Lemma mean_interval_zero (total n : Z) :
  (0 < n)%Z ->
  Qeq_bool (fround (of_int total / of_int n)) 0 = (total =? 0)%Z.
Proof.
  intros Hn.
  assert (~ of_int n == 0) as Hn0.
  { intros H. apply Qeq_bool_iff in H. rewrite of_int_zero in H.
    apply Z.eqb_eq in H. lia. }
  destruct (Z.eqb_spec total 0) as [->|Hne].
  - apply Qeq_bool_iff, fround_zero.
    assert (of_int 0 == 0) as -> by (apply fround_zero; reflexivity).
    unfold Qdiv. apply Qmult_0_l.
  - apply not_true_iff_false. intros Heq.
    apply Qeq_bool_iff in Heq. apply (proj1 (fround_zero _)) in Heq.
    assert (of_int total == 0) as Hz.
    { rewrite <- (Qmult_div_r (of_int total) (of_int n)) by exact Hn0.
      rewrite Heq. apply Qmult_0_r. }
    apply Qeq_bool_iff in Hz. rewrite of_int_zero in Hz.
    apply Z.eqb_eq in Hz. contradiction.
Qed.

End FloatFacts.

(** Unfolds the monad's operations in a computation applied to a state. *)
Ltac run_monad :=
  unfold mbind, M_bind, bind, modify, get, lift, ret, raise, out_of_fuel,
    call_bound in *;
  cbn in *.

(** ** Rpm *)

Section RpmFacts.
Import Rpm.
Context {fmt : Format}.

Lemma Rpm_wf_init : Rpm_wf Rpm.__init__.
Proof. split; cbn; try lia; reflexivity. Qed.

(** The four ways through [cb_spark]. *)

Lemma cb_spark_first (now : Z) (s : Rpm.t) :
  Rpm_wf s -> spark_write_index s = -1 ->
  cb_spark now s =
    (set_spark_count (spark_count s + 1)
       (set_sparks (<[0%nat := now]> (sparks s))
          (set_spark_write_index 0 (set_this_spark_ms now s))), Ok tt).
Proof.
  intros [Hlen _ _ _] Hw. unfold cb_spark. run_monad.
  rewrite Hw. cbn. rewrite array_set_in_range by lia. reflexivity.
Qed.

Lemma cb_spark_last (s : Rpm.t) :
  Rpm_wf s -> spark_write_index s <> -1 ->
  exists last,
    sparks s !! Z.to_nat (spark_write_index s) = Some last /\
    array_get (sparks s) (spark_write_index s) = Ok last.
Proof.
  intros [Hlen Hw _ _] Hne. apply array_get_in_range. lia.
Qed.

Lemma cb_spark_store (now last : Z) (s : Rpm.t) :
  Rpm_wf s -> spark_write_index s <> -1 ->
  array_get (sparks s) (spark_write_index s) = Ok last ->
  ticks_diff now last > 4 -> spark_count s <= ARRAYSIZE ->
  let w := (spark_write_index s + 1) mod ARRAYSIZE in
  cb_spark now s =
    (set_spark_count (spark_count s + 1)
       (set_sparks (<[Z.to_nat w := now]> (sparks s))
          (set_spark_write_index w (set_this_spark_ms now s))), Ok tt).
Proof.
  intros [Hlen Hw _ _] Hne Hlast Hd Hc w. unfold cb_spark. run_monad.
  apply Z.eqb_neq in Hne. rewrite Hne, Hlast.
  apply Z.gtb_gt in Hd. rewrite Hd.
  apply Z.leb_le in Hc. rewrite Hc. cbn.
  rewrite array_set_in_range; [reflexivity|].
  rewrite Hlen. pose proof (Z.mod_pos_bound (spark_write_index s + 1) 20).
  unfold ARRAYSIZE. lia.
Qed.

Lemma cb_spark_overflow (now last : Z) (s : Rpm.t) :
  spark_write_index s <> -1 ->
  array_get (sparks s) (spark_write_index s) = Ok last ->
  ticks_diff now last > 4 -> ARRAYSIZE < spark_count s ->
  cb_spark now s =
    (set_spark_overflow (spark_overflow s + 1) (set_this_spark_ms now s),
     Ok tt).
Proof.
  intros Hne Hlast Hd Hc. unfold cb_spark. run_monad.
  apply Z.eqb_neq in Hne. rewrite Hne, Hlast.
  apply Z.gtb_gt in Hd. rewrite Hd.
  apply Z.leb_gt in Hc. rewrite Hc. reflexivity.
Qed.

Lemma cb_spark_bounce (now last : Z) (s : Rpm.t) :
  spark_write_index s <> -1 ->
  array_get (sparks s) (spark_write_index s) = Ok last ->
  ticks_diff now last <= 4 ->
  cb_spark now s =
    (set_spark_disqualified (spark_disqualified s + 1)
       (set_this_spark_ms now s), Ok tt).
Proof.
  intros Hne Hlast Hd. unfold cb_spark. run_monad.
  apply Z.eqb_neq in Hne. rewrite Hne, Hlast.
  assert ((ticks_diff now last >? 4) = false) as -> by lia.
  reflexivity.
Qed.

(** An edge never raises; it leaves a well-formed meter well formed,
    with the write index on a slot. *)
Lemma cb_spark_wf (now : Z) (s : Rpm.t) :
  Rpm_wf s ->
  exists s', cb_spark now s = (s', Ok tt) /\ Rpm_wf s' /\
             0 <= spark_write_index s' < 20 /\
             spark_read_index s' = spark_read_index s.
Proof.
  intros Hwf. pose proof Hwf as [Hlen Hw Hr Hc].
  destruct (Z.eq_dec (spark_write_index s) (-1)) as [He|Hne].
  { rewrite cb_spark_first by assumption. eexists; split; [reflexivity|].
    cbn. repeat split; cbn; try lia. now rewrite length_insert. }
  destruct (cb_spark_last s Hwf Hne) as (last & _ & Hlast).
  destruct (Z_gt_le_dec (ticks_diff now last) 4) as [Hd|Hd].
  - destruct (Z_le_gt_dec (spark_count s) ARRAYSIZE) as [Hn|Hn].
    + rewrite (cb_spark_store now last) by assumption.
      eexists; split; [reflexivity|].
      pose proof (Z.mod_pos_bound (spark_write_index s + 1) 20).
      unfold ARRAYSIZE in *.
      cbn. repeat split; cbn; try lia. now rewrite length_insert.
    + rewrite (cb_spark_overflow now last) by (assumption || lia).
      eexists; split; [reflexivity|]. cbn. repeat split; cbn; lia.
  - rewrite (cb_spark_bounce now last) by assumption.
    eexists; split; [reflexivity|]. cbn. repeat split; cbn; lia.
Qed.

(** The loop of [avg] returns, with fuel for the pending entries: it
    empties the buffer and touches neither the write index nor the
    counters of the handler. *)
Lemma avg_loop_returns (fuel : nat) :
  forall (acc : Z) (s : Rpm.t),
    Rpm_wf s -> spark_count s <= Z.of_nat fuel ->
    exists s' total,
      avg_loop fuel acc s = (s', Ok total) /\ Rpm_wf s' /\
      spark_count s' = 0 /\
      spark_write_index s' = spark_write_index s /\
      sparks s' = sparks s /\
      spark_overflow s' = spark_overflow s /\
      spark_disqualified s' = spark_disqualified s.
Proof.
  induction fuel as [|fuel IH]; intros acc s Hwf Hfuel;
    pose proof Hwf as [Hlen Hw Hr Hc].
  - assert (spark_count s = 0) as Hz by lia.
    exists s, acc. cbn. run_monad. rewrite Hz. cbn. auto 10.
  - destruct (Z.eq_dec (spark_count s) 0) as [Hz|Hnz].
    + exists s, acc. cbn. run_monad. rewrite Hz. cbn. auto 10.
    + destruct (array_get_in_range (sparks s) (spark_read_index s))
        as (latest & _ & Hget); [rewrite Hlen; lia|].
      set (s1 := set_prev_spark_ms latest
                   (set_spark_read_index
                      ((spark_read_index s + 1) mod ARRAYSIZE)
                      (set_spark_count (spark_count s - 1) s))).
      assert (Rpm_wf s1) as Hwf1.
      { pose proof (Z.mod_pos_bound (spark_read_index s + 1) 20).
        unfold s1, ARRAYSIZE. split; cbn; lia. }
      destruct (IH (acc + ticks_diff latest (prev_spark_ms s)) s1 Hwf1)
        as (s' & total & Hrun & Hwf' & H0 & Hw' & Ha' & Ho' & Hd');
        [cbn; lia|].
      exists s', total. split; [|auto 10].
      rewrite <- Hrun. cbn [avg_loop]. run_monad.
      apply Z.eqb_neq in Hnz. rewrite Hnz, Hget. reflexivity.
Qed.

(** [avg] raises nothing but [ZeroDivisionError], and never runs out of
    fuel; whatever its outcome it leaves the meter well formed and the
    write index alone. *)
Lemma avg_outcome (s : Rpm.t) :
  Rpm_wf s ->
  exists s' r,
    avg s = (s', r) /\
    (r = Raise ZeroDivisionError \/ exists q, r = Ok q) /\
    Rpm_wf s' /\ spark_write_index s' = spark_write_index s /\
    spark_count s' = 0.
Proof.
  intros Hwf. pose proof Hwf as [Hlen Hw Hr Hc].
  unfold avg. run_monad.
  destruct (spark_count s >? 0) eqn:Hpos.
  - destruct (avg_loop_returns (Z.to_nat (spark_count s)) 0 s Hwf)
      as (s' & total & Hrun & Hwf' & H0 & Hw' & _); [lia|].
    rewrite Hrun. unfold truediv.
    destruct (Qeq_bool (of_int (spark_count s)) 0);
      [|destruct (Qeq_bool _ 0)]; cbn;
      (eexists; eexists; split; [reflexivity|]; split; [eauto|auto]).
  - exists s, (Ok 0%Q). split; [reflexivity|].
    split; [eauto|]. split; [assumption|]. split; [reflexivity|lia].
Qed.

(** With nothing pending [avg] returns 0 and changes nothing. *)
Lemma avg_empty (s : Rpm.t) :
  spark_count s = 0 -> avg s = (s, Ok 0%Q).
Proof.
  intros Hz. unfold avg. run_monad. rewrite Hz. reflexivity.
Qed.

(** What [avg] returns once its loop has summed the intervals: the
    division by the mean interval raises exactly when the sum is 0. *)
Lemma avg_after_loop (s s' : Rpm.t) (total : Z) :
  0 < spark_count s ->
  avg_loop (Z.to_nat (spark_count s)) 0 s = (s', Ok total) ->
  avg s =
    (s', if total =? 0 then Raise ZeroDivisionError
         else Ok (fmul (fround (of_int (spark_count s * 1000)
                                / fround (of_int total
                                          / of_int (spark_count s))))
                       (of_int 60))).
Proof.
  intros Hn Hrun. unfold avg. run_monad.
  assert ((spark_count s >? 0) = true) as -> by lia.
  rewrite Hrun. unfold truediv.
  assert ((spark_count s =? 0) = false) as Hz by lia.
  rewrite of_int_zero, Hz. cbv beta iota.
  rewrite mean_interval_zero by lia.
  destruct (total =? 0); reflexivity.
Qed.

(** The number [avg] computes from [n] entries and the sum [total] of
    their intervals is [60000 * n * n / total] up to four roundings: of
    the sum taken as a float, of the mean interval, of the quotient and
    of the product. *)
Lemma rpm_within_rounding (n total : Z) :
  15 <= Zpos mant_dig -> 0 < n <= 21 -> total <> 0 ->
  (Qabs (fmul (fround (of_int (n * 1000)
                       / fround (of_int total / of_int n)))
              (of_int 60)
         - inject_Z (60000 * n * n) / inject_Z total)
   <= 5 * 2 ^ (- Zpos mant_dig)
      * Qabs (inject_Z (60000 * n * n) / inject_Z total))%Q.
Proof.
  intros Hp Hn Ht.
  assert (0 <= 2 ^ (- Zpos mant_dig) <= 1 # 32768)%Q as Heps.
  { split; [apply Qlt_le_weak, pow2_pos|].
    change (1 # 32768)%Q with (2 ^ (- 15))%Q. apply pow2_le. lia. }
  destruct (fround_error (inject_Z total)) as (d0 & Hd0 & E0).
  fold (of_int total) in E0.
  destruct (fround_error (of_int total / of_int n)) as (d1 & Hd1 & E1).
  destruct (fround_error
              (of_int (n * 1000) / fround (of_int total / of_int n)))
    as (d2 & Hd2 & E2).
  destruct (fround_error
              (fround (of_int (n * 1000)
                       / fround (of_int total / of_int n))
               * of_int 60))
    as (d3 & Hd3 & E3).
  apply (four_roundings _ d0 d1 d2 d3); try assumption.
  unfold fmul. rewrite E3, E2, E1, E0.
  rewrite (of_int_exact n), (of_int_exact (n * 1000)), (of_int_exact 60)
    by (cbn; lia).
  rewrite !inject_Z_mult.
  change (inject_Z 1000) with 1000%Q. change (inject_Z 60) with 60%Q.
  change (inject_Z 60000) with 60000%Q.
  apply near_one in Hd0, Hd1.
  assert (~ inject_Z n == 0)%Q as Hn0
    by (intros Hz; apply (inject_Z_injective n 0) in Hz; lia).
  assert (~ inject_Z total == 0)%Q as Ht0
    by (intros Hz; apply (inject_Z_injective total 0) in Hz; lia).
  field. repeat split; try assumption; lra.
Qed.

(** One event keeps the meter well formed; an edge puts the write index
    on a slot and a drain leaves it where it was. *)
Lemma Rpm_step_wf (s : Rpm.t) (e : meter_event) :
  Rpm_wf s ->
  Rpm_wf (Rpm_step s e) /\
  match e with
  | Edge _ => 0 <= spark_write_index (Rpm_step s e) < 20
  | Drain => spark_write_index (Rpm_step s e) = spark_write_index s
  end.
Proof.
  intros Hwf. destruct e as [now|]; cbn.
  - destruct (cb_spark_wf now s Hwf) as (s' & -> & Hwf' & Hw' & _).
    now split.
  - destruct (avg_outcome s Hwf) as (s' & r & -> & _ & Hwf' & Hw' & _).
    now split.
Qed.

Lemma Rpm_run_snoc (evs : list meter_event) (e : meter_event) :
  Rpm_run (evs ++ [e]) = Rpm_step (Rpm_run evs) e.
Proof. unfold Rpm_run. now rewrite fold_left_app. Qed.

(** Along every run the meter is well formed, and the write index is
    the sentinel exactly as long as no edge has been delivered. *)
Lemma Rpm_run_wf (evs : list meter_event) :
  Rpm_wf (Rpm_run evs) /\
  (spark_write_index (Rpm_run evs) = -1 <-> existsb is_edge evs = false).
Proof.
  induction evs as [|e evs [IHwf IHw]] using rev_ind.
  - split; [apply Rpm_wf_init|]. cbn. split; auto.
  - rewrite Rpm_run_snoc.
    destruct (Rpm_step_wf (Rpm_run evs) e IHwf) as [Hwf Hw].
    split; [assumption|]. rewrite existsb_app, orb_false_iff.
    destruct e as [now|]; cbn [existsb is_edge orb].
    + split; [lia|intros [_ H]; discriminate H].
    + rewrite Hw, IHw. tauto.
Qed.

(** An edge that raises the pending count has been stored: it is the
    entry under the write index afterwards, and no other counter moved. *)
Lemma cb_spark_accepted (now : Z) (s : Rpm.t) :
  Rpm_wf s ->
  spark_count (Rpm_step s (Edge now)) = spark_count s + 1 ->
  let s1 := Rpm_step s (Edge now) in
  Rpm_wf s1 /\ spark_write_index s1 <> -1 /\
  array_get (sparks s1) (spark_write_index s1) = Ok now /\
  spark_disqualified s1 = spark_disqualified s /\
  spark_overflow s1 = spark_overflow s.
Proof.
  intros Hwf. pose proof Hwf as [Hlen Hw Hr Hc].
  destruct (Rpm_step_wf s (Edge now) Hwf) as [Hwf1 Hw1].
  cbn [Rpm_step] in *. intros Hacc.
  split; [assumption|]. split; [lia|]. revert Hacc Hw1.
  destruct (Z.eq_dec (spark_write_index s) (-1)) as [He|Hne].
  { rewrite cb_spark_first by assumption. cbn. intros _ _.
    split; [|split; reflexivity].
    apply (array_get_set (sparks s) 0). lia. }
  destruct (cb_spark_last s Hwf Hne) as (last & _ & Hlast).
  destruct (Z_gt_le_dec (ticks_diff now last) 4) as [Hd|Hd].
  - destruct (Z_le_gt_dec (spark_count s) ARRAYSIZE) as [Hn|Hn].
    + rewrite (cb_spark_store now last) by assumption. cbn. intros _ Hw1.
      split; [|split; reflexivity].
      apply array_get_set. lia.
    + rewrite (cb_spark_overflow now last) by (assumption || lia).
      cbn. lia.
  - rewrite (cb_spark_bounce now last) by assumption. cbn. lia.
Qed.

(** The pending count can pass the number of slots, by one and no more:
    an edge is admitted while the count is at most [ARRAYSIZE]. *)
Lemma Rpm_step_count (s : Rpm.t) (e : meter_event) :
  Rpm_wf s ->
  (spark_write_index s = -1 -> spark_count s = 0) ->
  spark_count s <= ARRAYSIZE + 1 ->
  spark_count (Rpm_step s e) <= ARRAYSIZE + 1.
Proof.
  intros Hwf Hnew Hc. destruct e as [now|]; cbn [Rpm_step].
  - destruct (Z.eq_dec (spark_write_index s) (-1)) as [He|Hne].
    { rewrite cb_spark_first by assumption. cbn. rewrite (Hnew He).
      unfold ARRAYSIZE. lia. }
    destruct (cb_spark_last s Hwf Hne) as (last & _ & Hlast).
    destruct (Z_gt_le_dec (ticks_diff now last) 4) as [Hd|Hd].
    + destruct (Z_le_gt_dec (spark_count s) ARRAYSIZE) as [Hn|Hn].
      * rewrite (cb_spark_store now last) by assumption. cbn. lia.
      * rewrite (cb_spark_overflow now last) by (assumption || lia).
        cbn. lia.
    + rewrite (cb_spark_bounce now last) by assumption. cbn. lia.
  - destruct (avg_outcome s Hwf) as (s' & r & -> & _ & _ & _ & H0).
    cbn. rewrite H0. unfold ARRAYSIZE. lia.
Qed.

Lemma Rpm_run_count (evs : list meter_event) :
  (spark_write_index (Rpm_run evs) = -1 -> spark_count (Rpm_run evs) = 0) /\
  0 <= spark_count (Rpm_run evs) <= ARRAYSIZE + 1.
Proof.
  induction evs as [|e evs [IHnew IHc]] using rev_ind.
  - cbn. unfold ARRAYSIZE. lia.
  - destruct (Rpm_run_wf evs) as [Hwf _].
    destruct (Rpm_run_wf (evs ++ [e])) as [[_ _ _ Hc] _].
    rewrite Rpm_run_snoc in *.
    destruct (Rpm_step_wf (Rpm_run evs) e Hwf) as [_ Hstep].
    split; [|split; [exact Hc|apply Rpm_step_count; tauto]].
    destruct e as [now|]; [lia|]. intros _. cbn [Rpm_step].
    destruct (avg_outcome (Rpm_run evs) Hwf) as (s' & r & -> & _ & _ & _ & H0).
    exact H0.
Qed.

End RpmFacts.

(** ** Speed *)

Section SpeedFacts.
Import Speed.
Context {fmt : Format}.

(** The distance per tick the object was constructed with. *)
Variable d : Z.

Lemma Speed_wf_fresh : Speed_wf (Speed.fresh d).
Proof. split; cbn; try lia; reflexivity. Qed.

(** The four ways through [cb_hall]. *)

Lemma cb_hall_first (now : Z) (s : Speed.t) :
  Speed_wf s -> hall_write_index s = -1 ->
  cb_hall now s =
    (set_hall_count (hall_count s + 1)
       (set_halls (<[0%nat := now]> (halls s))
          (set_hall_write_index 0 (set_hall_total (hall_total s + 1) (set_this_hall_ms now s)))), Ok tt).
Proof.
  intros [Hlen _ _ _] Hw. unfold cb_hall. run_monad.
  rewrite Hw. cbn. rewrite array_set_in_range by lia. reflexivity.
Qed.

Lemma cb_hall_last (s : Speed.t) :
  Speed_wf s -> hall_write_index s <> -1 ->
  exists last,
    halls s !! Z.to_nat (hall_write_index s) = Some last /\
    array_get (halls s) (hall_write_index s) = Ok last.
Proof.
  intros [Hlen Hw _ _] Hne. apply array_get_in_range. lia.
Qed.

Lemma cb_hall_store (now last : Z) (s : Speed.t) :
  Speed_wf s -> hall_write_index s <> -1 ->
  array_get (halls s) (hall_write_index s) = Ok last ->
  ticks_diff now last > 36 -> hall_count s <= ARRAYSIZE ->
  let w := (hall_write_index s + 1) mod ARRAYSIZE in
  cb_hall now s =
    (set_hall_count (hall_count s + 1)
       (set_halls (<[Z.to_nat w := now]> (halls s))
          (set_hall_write_index w (set_hall_total (hall_total s + 1) (set_this_hall_ms now s)))), Ok tt).
Proof.
  intros [Hlen Hw _ _] Hne Hlast Hd Hc w. unfold cb_hall. run_monad.
  apply Z.eqb_neq in Hne. rewrite Hne, Hlast.
  apply Z.gtb_gt in Hd. rewrite Hd.
  apply Z.leb_le in Hc. rewrite Hc. cbn.
  rewrite array_set_in_range; [reflexivity|].
  rewrite Hlen. pose proof (Z.mod_pos_bound (hall_write_index s + 1) 10).
  unfold ARRAYSIZE. lia.
Qed.

Lemma cb_hall_overflow (now last : Z) (s : Speed.t) :
  hall_write_index s <> -1 ->
  array_get (halls s) (hall_write_index s) = Ok last ->
  ticks_diff now last > 36 -> ARRAYSIZE < hall_count s ->
  cb_hall now s =
    (set_hall_overflow (hall_overflow s + 1) (set_hall_total (hall_total s + 1) (set_this_hall_ms now s)),
     Ok tt).
Proof.
  intros Hne Hlast Hd Hc. unfold cb_hall. run_monad.
  apply Z.eqb_neq in Hne. rewrite Hne, Hlast.
  apply Z.gtb_gt in Hd. rewrite Hd.
  apply Z.leb_gt in Hc. rewrite Hc. reflexivity.
Qed.

Lemma cb_hall_bounce (now last : Z) (s : Speed.t) :
  hall_write_index s <> -1 ->
  array_get (halls s) (hall_write_index s) = Ok last ->
  ticks_diff now last <= 36 ->
  cb_hall now s =
    (set_hall_total (hall_total s + 1 - 1)
       (set_hall_disqualified (hall_disqualified s + 1)
          (set_hall_total (hall_total s + 1) (set_this_hall_ms now s))),
     Ok tt).
Proof.
  intros Hne Hlast Hd. unfold cb_hall. run_monad.
  apply Z.eqb_neq in Hne. rewrite Hne, Hlast.
  assert ((ticks_diff now last >? 36) = false) as -> by lia.
  reflexivity.
Qed.

(** An edge never raises; it leaves a well-formed meter well formed,
    with the write index on a slot. *)
Lemma cb_hall_wf (now : Z) (s : Speed.t) :
  Speed_wf s ->
  exists s', cb_hall now s = (s', Ok tt) /\ Speed_wf s' /\
             0 <= hall_write_index s' < 10 /\
             hall_read_index s' = hall_read_index s.
Proof.
  intros Hwf. pose proof Hwf as [Hlen Hw Hr Hc].
  destruct (Z.eq_dec (hall_write_index s) (-1)) as [He|Hne].
  { rewrite cb_hall_first by assumption. eexists; split; [reflexivity|].
    cbn. repeat split; cbn; try lia. now rewrite length_insert. }
  destruct (cb_hall_last s Hwf Hne) as (last & _ & Hlast).
  destruct (Z_gt_le_dec (ticks_diff now last) 36) as [Hd|Hd].
  - destruct (Z_le_gt_dec (hall_count s) ARRAYSIZE) as [Hn|Hn].
    + rewrite (cb_hall_store now last) by assumption.
      eexists; split; [reflexivity|].
      pose proof (Z.mod_pos_bound (hall_write_index s + 1) 10).
      unfold ARRAYSIZE in *.
      cbn. repeat split; cbn; try lia. now rewrite length_insert.
    + rewrite (cb_hall_overflow now last) by (assumption || lia).
      eexists; split; [reflexivity|]. cbn. repeat split; cbn; lia.
  - rewrite (cb_hall_bounce now last) by assumption.
    eexists; split; [reflexivity|]. cbn. repeat split; cbn; lia.
Qed.

(** The loop of [get_avg] returns, with fuel for the pending entries: it
    empties the buffer and touches neither the write index nor the
    counters of the handler. *)
Lemma get_avg_loop_returns (fuel : nat) :
  forall (acc : Z) (s : Speed.t),
    Speed_wf s -> hall_count s <= Z.of_nat fuel ->
    exists s' total,
      get_avg_loop fuel acc s = (s', Ok total) /\ Speed_wf s' /\
      hall_count s' = 0 /\
      hall_write_index s' = hall_write_index s /\
      halls s' = halls s /\
      hall_overflow s' = hall_overflow s /\
      hall_disqualified s' = hall_disqualified s.
Proof.
  induction fuel as [|fuel IH]; intros acc s Hwf Hfuel;
    pose proof Hwf as [Hlen Hw Hr Hc].
  - assert (hall_count s = 0) as Hz by lia.
    exists s, acc. cbn. run_monad. rewrite Hz. cbn. auto 10.
  - destruct (Z.eq_dec (hall_count s) 0) as [Hz|Hnz].
    + exists s, acc. cbn. run_monad. rewrite Hz. cbn. auto 10.
    + destruct (array_get_in_range (halls s) (hall_read_index s))
        as (latest & _ & Hget); [rewrite Hlen; lia|].
      set (s1 := set_prev_hall_ms latest
                   (set_hall_read_index
                      ((hall_read_index s + 1) mod ARRAYSIZE)
                      (set_hall_count (hall_count s - 1) s))).
      assert (Speed_wf s1) as Hwf1.
      { pose proof (Z.mod_pos_bound (hall_read_index s + 1) 10).
        unfold s1, ARRAYSIZE. split; cbn; lia. }
      destruct (IH (acc + ticks_diff latest (prev_hall_ms s)) s1 Hwf1)
        as (s' & total & Hrun & Hwf' & H0 & Hw' & Ha' & Ho' & Hd');
        [cbn; lia|].
      exists s', total. split; [|auto 10].
      rewrite <- Hrun. cbn [get_avg_loop]. run_monad.
      apply Z.eqb_neq in Hnz. rewrite Hnz, Hget. reflexivity.
Qed.

(** [get_avg] raises nothing but [ZeroDivisionError], and never runs out of
    fuel; whatever its outcome it leaves the meter well formed and the
    write index alone. *)
Lemma get_avg_outcome (s : Speed.t) :
  Speed_wf s ->
  exists s' r,
    get_avg s = (s', r) /\
    (r = Raise ZeroDivisionError \/ exists q, r = Ok q) /\
    Speed_wf s' /\ hall_write_index s' = hall_write_index s /\
    hall_count s' = 0.
Proof.
  intros Hwf. pose proof Hwf as [Hlen Hw Hr Hc].
  unfold get_avg. run_monad.
  destruct (hall_count s >? 0) eqn:Hpos.
  - destruct (get_avg_loop_returns (Z.to_nat (hall_count s)) 0 s Hwf)
      as (s' & total & Hrun & Hwf' & H0 & Hw' & _); [lia|].
    rewrite Hrun. unfold truediv.
    destruct (Qeq_bool (of_int (hall_count s)) 0);
      [|destruct (Qeq_bool _ 0); [|destruct (Qeq_bool _ 0)]]; cbn;
      (eexists; eexists; split; [reflexivity|]; split; [eauto|auto]).
  - eexists; eexists; split; [reflexivity|].
    split; [eauto|]. split; [split; cbn; assumption|].
    split; [reflexivity|cbn; lia].
Qed.

(** With nothing pending [get_avg] returns 0. *)
Lemma get_avg_empty (s : Speed.t) :
  hall_count s = 0 -> snd (get_avg s) = Ok 0%Q.
Proof.
  intros Hz. unfold get_avg. run_monad. rewrite Hz. reflexivity.
Qed.

(** What [get_avg] returns once its loop has summed the intervals: the
    division by the mean interval raises exactly when the sum is 0. *)
Lemma get_avg_after_loop (s s' : Speed.t) (total : Z) :
  0 < hall_count s ->
  get_avg_loop (Z.to_nat (hall_count s)) 0 s = (s', Ok total) ->
  get_avg s =
    (s', if total =? 0 then Raise ZeroDivisionError
         else Ok (fround
                    (fround (of_int (hall_count s * dist s' * 10)
                             / fround (of_int total
                                       / of_int (hall_count s)))
                     / of_int 36))).
Proof.
  intros Hn Hrun. unfold get_avg. run_monad.
  assert ((hall_count s >? 0) = true) as -> by lia.
  rewrite Hrun. unfold truediv.
  assert ((hall_count s =? 0) = false) as Hz by lia.
  rewrite of_int_zero, Hz. cbv beta iota.
  rewrite mean_interval_zero by lia.
  destruct (total =? 0); [reflexivity|]. cbv beta iota.
  rewrite of_int_zero. reflexivity.
Qed.

(** The number [get_avg] computes from [n] entries, the sum [total] of
    their intervals and the distance [mm] per tick is
    [n * n * mm * 10 / (36 * total)] up to five roundings: of the sum and
    of the distance covered taken as floats, of the mean interval and of
    the two quotients. *)
Lemma speed_within_rounding (n mm total : Z) :
  15 <= Zpos mant_dig -> 0 < n <= 11 -> total <> 0 ->
  (Qabs (fround (fround (of_int (n * mm * 10)
                         / fround (of_int total / of_int n))
                 / of_int 36)
         - inject_Z (n * n * mm * 10) / inject_Z (36 * total))
   <= 6 * 2 ^ (- Zpos mant_dig)
      * Qabs (inject_Z (n * n * mm * 10) / inject_Z (36 * total)))%Q.
Proof.
  intros Hp Hn Ht.
  assert (0 <= 2 ^ (- Zpos mant_dig) <= 1 # 32768)%Q as Heps.
  { split; [apply Qlt_le_weak, pow2_pos|].
    change (1 # 32768)%Q with (2 ^ (- 15))%Q. apply pow2_le. lia. }
  destruct (fround_error (inject_Z total)) as (d0 & Hd0 & E0).
  fold (of_int total) in E0.
  destruct (fround_error (of_int total / of_int n)) as (d1 & Hd1 & E1).
  destruct (fround_error (inject_Z (n * mm * 10))) as (d2 & Hd2 & E2).
  fold (of_int (n * mm * 10)) in E2.
  destruct (fround_error
              (of_int (n * mm * 10) / fround (of_int total / of_int n)))
    as (d3 & Hd3 & E3).
  destruct (fround_error
              (fround (of_int (n * mm * 10)
                       / fround (of_int total / of_int n))
               / of_int 36))
    as (d4 & Hd4 & E4).
  apply (five_roundings _ d0 d1 d2 d3 d4); try assumption.
  rewrite E4, E3, E2, E1, E0.
  rewrite (of_int_exact n), (of_int_exact 36) by (cbn; lia).
  rewrite !inject_Z_mult.
  change (inject_Z 10) with 10%Q. change (inject_Z 36) with 36%Q.
  apply near_one in Hd0, Hd1.
  assert (~ inject_Z n == 0)%Q as Hn0
    by (intros Hz; apply (inject_Z_injective n 0) in Hz; lia).
  assert (~ inject_Z total == 0)%Q as Ht0
    by (intros Hz; apply (inject_Z_injective total 0) in Hz; lia).
  field. repeat split; try assumption; lra.
Qed.

(** One event keeps the meter well formed; an edge puts the write index
    on a slot and a drain leaves it where it was. *)
Lemma Speed_step_wf (s : Speed.t) (e : meter_event) :
  Speed_wf s ->
  Speed_wf (Speed_step s e) /\
  match e with
  | Edge _ => 0 <= hall_write_index (Speed_step s e) < 10
  | Drain => hall_write_index (Speed_step s e) = hall_write_index s
  end.
Proof.
  intros Hwf. destruct e as [now|]; cbn.
  - destruct (cb_hall_wf now s Hwf) as (s' & -> & Hwf' & Hw' & _).
    now split.
  - destruct (get_avg_outcome s Hwf) as (s' & r & -> & _ & Hwf' & Hw' & _).
    now split.
Qed.

Lemma Speed_run_snoc (evs : list meter_event) (e : meter_event) :
  Speed_run d (evs ++ [e]) = Speed_step (Speed_run d evs) e.
Proof. unfold Speed_run. now rewrite fold_left_app. Qed.

(** Along every run the meter is well formed, and the write index is
    the sentinel exactly as long as no edge has been delivered. *)
Lemma Speed_run_wf (evs : list meter_event) :
  Speed_wf (Speed_run d evs) /\
  (hall_write_index (Speed_run d evs) = -1 <-> existsb is_edge evs = false).
Proof.
  induction evs as [|e evs [IHwf IHw]] using rev_ind.
  - split; [apply Speed_wf_fresh|]. cbn. split; auto.
  - rewrite Speed_run_snoc.
    destruct (Speed_step_wf (Speed_run d evs) e IHwf) as [Hwf Hw].
    split; [assumption|]. rewrite existsb_app, orb_false_iff.
    destruct e as [now|]; cbn [existsb is_edge orb].
    + split; [lia|intros [_ H]; discriminate H].
    + rewrite Hw, IHw. tauto.
Qed.

(** An edge that raises the pending count has been stored: it is the
    entry under the write index afterwards, and no other counter moved. *)
Lemma cb_hall_accepted (now : Z) (s : Speed.t) :
  Speed_wf s ->
  hall_count (Speed_step s (Edge now)) = hall_count s + 1 ->
  let s1 := Speed_step s (Edge now) in
  Speed_wf s1 /\ hall_write_index s1 <> -1 /\
  array_get (halls s1) (hall_write_index s1) = Ok now /\
  hall_disqualified s1 = hall_disqualified s /\
  hall_overflow s1 = hall_overflow s.
Proof.
  intros Hwf. pose proof Hwf as [Hlen Hw Hr Hc].
  destruct (Speed_step_wf s (Edge now) Hwf) as [Hwf1 Hw1].
  cbn [Speed_step] in *. intros Hacc.
  split; [assumption|]. split; [lia|]. revert Hacc Hw1.
  destruct (Z.eq_dec (hall_write_index s) (-1)) as [He|Hne].
  { rewrite cb_hall_first by assumption. cbn. intros _ _.
    split; [|split; reflexivity].
    apply (array_get_set (halls s) 0). lia. }
  destruct (cb_hall_last s Hwf Hne) as (last & _ & Hlast).
  destruct (Z_gt_le_dec (ticks_diff now last) 36) as [Hd|Hd].
  - destruct (Z_le_gt_dec (hall_count s) ARRAYSIZE) as [Hn|Hn].
    + rewrite (cb_hall_store now last) by assumption. cbn. intros _ Hw1.
      split; [|split; reflexivity].
      apply array_get_set. lia.
    + rewrite (cb_hall_overflow now last) by (assumption || lia).
      cbn. lia.
  - rewrite (cb_hall_bounce now last) by assumption. cbn. lia.
Qed.

(** The pending count can pass the number of slots, by one and no more:
    an edge is admitted while the count is at most [ARRAYSIZE]. *)
Lemma Speed_step_count (s : Speed.t) (e : meter_event) :
  Speed_wf s ->
  (hall_write_index s = -1 -> hall_count s = 0) ->
  hall_count s <= ARRAYSIZE + 1 ->
  hall_count (Speed_step s e) <= ARRAYSIZE + 1.
Proof.
  intros Hwf Hnew Hc. destruct e as [now|]; cbn [Speed_step].
  - destruct (Z.eq_dec (hall_write_index s) (-1)) as [He|Hne].
    { rewrite cb_hall_first by assumption. cbn. rewrite (Hnew He).
      unfold ARRAYSIZE. lia. }
    destruct (cb_hall_last s Hwf Hne) as (last & _ & Hlast).
    destruct (Z_gt_le_dec (ticks_diff now last) 36) as [Hd|Hd].
    + destruct (Z_le_gt_dec (hall_count s) ARRAYSIZE) as [Hn|Hn].
      * rewrite (cb_hall_store now last) by assumption. cbn. lia.
      * rewrite (cb_hall_overflow now last) by (assumption || lia).
        cbn. lia.
    + rewrite (cb_hall_bounce now last) by assumption. cbn. lia.
  - destruct (get_avg_outcome s Hwf) as (s' & r & -> & _ & _ & _ & H0).
    cbn. rewrite H0. unfold ARRAYSIZE. lia.
Qed.

Lemma Speed_run_count (evs : list meter_event) :
  (hall_write_index (Speed_run d evs) = -1 -> hall_count (Speed_run d evs) = 0) /\
  0 <= hall_count (Speed_run d evs) <= ARRAYSIZE + 1.
Proof.
  induction evs as [|e evs [IHnew IHc]] using rev_ind.
  - cbn. unfold ARRAYSIZE. lia.
  - destruct (Speed_run_wf evs) as [Hwf _].
    destruct (Speed_run_wf (evs ++ [e])) as [[_ _ _ Hc] _].
    rewrite Speed_run_snoc in *.
    destruct (Speed_step_wf (Speed_run d evs) e Hwf) as [_ Hstep].
    split; [|split; [exact Hc|apply Speed_step_count; tauto]].
    destruct e as [now|]; [lia|]. intros _. cbn [Speed_step].
    destruct (get_avg_outcome (Speed_run d evs) Hwf) as (s' & r & -> & _ & _ & _ & H0).
    exact H0.
Qed.

End SpeedFacts.



(** ** The rate meters: what the specification says of them *)

Section MeterClaims.

(** C2 (the code departs from it).  [avg] and [get_avg] guard the
    division by the number of entries, not the division by the mean
    interval that follows it.  A first edge at tick 0 is measured from
    the initial baseline 0, the interval sum is 0, and the call raises
    [ZeroDivisionError]; so it does when the first edges arrive just
    before the tick counter wraps and their intervals cancel the
    negative distance to the baseline. *)
Theorem avg_raises_on_zero_interval :
  snd (Rpm.avg (Rpm_run [Edge 0])) = Raise ZeroDivisionError /\
  snd (Speed.get_avg (Speed_run 298 [Edge 0])) = Raise ZeroDivisionError /\
  snd (Rpm.avg (Rpm_run (edges [TICKS_PERIOD - 10; TICKS_PERIOD - 5; 0])))
    = Raise ZeroDivisionError /\
  snd (Speed.get_avg
         (Speed_run 298 (edges [TICKS_PERIOD - 100; TICKS_PERIOD - 50; 0])))
    = Raise ZeroDivisionError.
Proof. repeat split; vm_compute; reflexivity. Qed.

(** C3, as stated, fails before the first edge: the polling loop asks a
    new [Rpm] for its average and finds the write index on the sentinel
    -1, outside the slots. *)
Lemma fresh_write_index_is_sentinel :
  let r := Rpm_run [Drain] in
  Rpm.spark_write_index r = -1 /\
  ~ within_capacity 20 (Rpm.spark_count r) (Rpm.spark_write_index r)
      (Rpm.spark_read_index r).
Proof.
  cbn zeta.
  assert (Rpm.spark_write_index (Rpm_run [Drain]) = -1) as Hw
    by (vm_compute; reflexivity).
  split; [exact Hw|]. unfold within_capacity. rewrite Hw. lia.
Qed.

(** C3 (amended).  Along every sequence of edges and drains, on both
    meters, the read index is on a slot, and the write index is on a slot
    once an edge has been delivered and is the sentinel -1 until then. *)
Theorem meter_indices_in_range (d : Z) (evs : list meter_event) :
  let r := Rpm_run evs in
  let h := Speed_run d evs in
  (0 <= Rpm.spark_read_index r < 20 /\
   (existsb is_edge evs = false /\ Rpm.spark_write_index r = -1 \/
    existsb is_edge evs = true /\ 0 <= Rpm.spark_write_index r < 20)) /\
  (0 <= Speed.hall_read_index h < 10 /\
   (existsb is_edge evs = false /\ Speed.hall_write_index h = -1 \/
    existsb is_edge evs = true /\ 0 <= Speed.hall_write_index h < 10)).
Proof.
  cbn zeta.
  destruct (Rpm_run_wf evs) as [[_ Hrw Hrr _] Hr].
  destruct (Speed_run_wf d evs) as [[_ Hhw Hhr _] Hh].
  destruct (existsb is_edge evs).
  - assert (Rpm.spark_write_index (Rpm_run evs) <> -1)
      by (rewrite Hr; discriminate).
    assert (Speed.hall_write_index (Speed_run d evs) <> -1)
      by (rewrite Hh; discriminate).
    split; (split; [lia|right; split; [reflexivity|lia]]).
  - split; (split; [lia|left; split; [reflexivity|tauto]]).
Qed.

(** The pending count does go one past the number of slots: the handler
    admits an edge while the count is at most [ARRAYSIZE]. *)
Lemma pending_count_exceeds_slots :
  Rpm.spark_count (Rpm_run (edges (spaced 10 21))) = 21 /\
  Speed.hall_count (Speed_run 298 (edges (spaced 40 11))) = 11.
Proof. split; vm_compute; reflexivity. Qed.

(** C4 (the code departs from it).  From a new meter, [ARRAYSIZE + 1]
    edges that all pass the bounce filter are all stored and the
    overflow counter stays at 0; it first moves on edge
    [ARRAYSIZE + 2].  The write index is on a slot after each of them. *)
Theorem overflow_counted_one_edge_late :
  let r21 := Rpm_run (edges (spaced 10 21)) in
  let r22 := Rpm_run (edges (spaced 10 22)) in
  let h11 := Speed_run 298 (edges (spaced 40 11)) in
  let h12 := Speed_run 298 (edges (spaced 40 12)) in
  (Rpm.spark_count r21 = 21 /\ Rpm.spark_disqualified r21 = 0 /\
   Rpm.spark_overflow r21 = 0 /\ Rpm.spark_overflow r22 = 1) /\
  (Speed.hall_count h11 = 11 /\ Speed.hall_disqualified h11 = 0 /\
   Speed.hall_overflow h11 = 0 /\ Speed.hall_overflow h12 = 1).
Proof. cbn zeta. repeat split; vm_compute; reflexivity. Qed.

(** From a new [Rpm], up to 60 edges 10 ms apart: the overflow counter
    is the number of edges past [ARRAYSIZE + 1]. *)
Lemma overflow_lags_by_one_edge :
  forallb
    (fun n =>
       Rpm.spark_overflow (Rpm_run (edges (spaced 10 n)))
       =? Z.max 0 (Z.of_nat n - (Rpm.ARRAYSIZE + 1)))
    (seq 0 61) = true.
Proof. vm_compute. reflexivity. Qed.

(** C5, as stated, fails: after edges at 0, 20, 40 and 60 ms on a new
    [Rpm], four entries are pending, not three, and [avg] does not
    return 9000. *)
Lemma rpm_example_is_not_9000 :
  let r := Rpm_run (edges [0; 20; 40; 60]) in
  Rpm.spark_count r <> 3 /\
  exists q, snd (Rpm.avg r) = Ok q /\ ~ (q == 9000)%Q.
Proof.
  cbn zeta. split; [vm_compute; discriminate|].
  eexists. split; [vm_compute; reflexivity|].
  vm_compute. discriminate.
Qed.

(** C5 (amended).  After edges at 0, 20, 40 and 60 ms on a new [Rpm],
    four entries are pending: the first edge is stored too, and its
    interval is measured from the initial baseline 0.  The drain sums the
    intervals 0, 20, 20, 20 to 60, and [avg] returns
    4 * 1000 / (60 / 4) * 60 as the float format rounds it: within
    [80000 * 2^-p] of 16000 in any format of [p >= 15] bits,
    16000 + 2^-39 (printed 16000.000000000002) in double precision and
    16000 - 2^-10 (15999.9990234375) in single precision. *)
Theorem rpm_example_is_16000_as_rounded (fmt : Format) :
  let r := Rpm_run (edges [0; 20; 40; 60]) in
  15 <= Zpos mant_dig ->
  Rpm.spark_count r = 4 /\
  Rpm.spark_disqualified r = 0 /\
  snd (Rpm.avg_loop 4 0 r) = Ok 60 /\
  (exists q, snd (Rpm.avg r) = Ok q /\
             (Qabs (q - 16000) <= 80000 * 2 ^ (- Zpos mant_dig))%Q) /\
  (exists q, snd (Rpm.avg (fmt := binary64) r) = Ok q /\
             (q == 16000 + (1 # 549755813888))%Q) /\
  (exists q, snd (Rpm.avg (fmt := binary32) r) = Ok q /\
             (q == 16000 - (1 # 1024))%Q).
Proof.
  intros r Hp.
  split; [vm_compute; reflexivity|].
  split; [vm_compute; reflexivity|].
  split; [vm_compute; reflexivity|].
  split; [|split; eexists; split; vm_compute; reflexivity].
  assert (0 < Rpm.spark_count r) as Hn by (vm_compute; reflexivity).
  assert (Rpm.avg_loop (Z.to_nat (Rpm.spark_count r)) 0 r
          = (fst (Rpm.avg_loop 4 0 r), Ok 60)) as Hloop
    by (vm_compute; reflexivity).
  rewrite (avg_after_loop r _ 60 Hn Hloop).
  change (Rpm.spark_count r) with 4. cbn [snd Z.eqb].
  eexists. split; [reflexivity|].
  pose proof (rpm_within_rounding 4 60 Hp ltac:(lia) ltac:(lia)) as Hb.
  assert (inject_Z (60000 * 4 * 4) / inject_Z 60 == 16000)%Q as Hc
    by (vm_compute; reflexivity).
  rewrite Hc in Hb.
  assert (Qabs 16000 == 16000)%Q as Habs by (vm_compute; reflexivity).
  rewrite Habs in Hb. lra.
Qed.

(** C5 (amended) in single precision. *)
Lemma rpm_example_is_16000_as_rounded_witness :
  15 <= Zpos (mant_dig (Format := binary32)) /\
  exists q,
    snd (Rpm.avg (fmt := binary32)
           (Rpm_run (fmt := binary32) (edges [0; 20; 40; 60]))) = Ok q /\
    (Qabs (q - 16000) <= 80000 * 2 ^ (- 24))%Q.
Proof.
  assert (15 <= Zpos (mant_dig (Format := binary32))) as Hp
    by (vm_compute; discriminate).
  split; [exact Hp|].
  exact (proj1 (proj2 (proj2 (proj2
           (rpm_example_is_16000_as_rounded binary32 Hp))))).
Defined.

(** C7, as stated, fails when the first edge of the pair was itself
    disqualified: the filter measures from the last stored edge, not from
    the last edge.  After sparks at 0 and 3 ms the spark at 6 ms is
    stored, 3 ms after the one before it; after hall ticks at 0 and 36 ms
    the tick at 72 ms is stored, 36 ms after the one before it.  The
    disqualified counter does not move. *)
Lemma close_edge_after_bounce_is_stored :
  let r := Rpm_run (edges [0; 3]) in
  let r' := Rpm_step r (Edge 6) in
  let h := Speed_run 298 (edges [0; 36]) in
  let h' := Speed_step h (Edge 72) in
  (ticks_diff 6 3 <= 4 /\
   Rpm.spark_count r' = Rpm.spark_count r + 1 /\
   Rpm.spark_disqualified r' = Rpm.spark_disqualified r) /\
  (ticks_diff 72 36 <= 36 /\
   Speed.hall_count h' = Speed.hall_count h + 1 /\
   Speed.hall_disqualified h' = Speed.hall_disqualified h).
Proof.
  cbn zeta.
  repeat split; try (vm_compute; reflexivity); vm_compute; discriminate.
Qed.

(** C7 (amended).  Take two consecutive edges of which the first is
    stored (it raises the pending count, as the first edge on a new meter
    does) and the second follows at a wrap-safe distance of at most the
    bounce threshold, 4 ms for [Rpm] and 36 ms for [Speed], the threshold
    itself included.  The second edge only bumps the disqualified
    counter: one event has been accepted, and one disqualified. *)
Theorem bounce_at_threshold_is_disqualified
    (r : Rpm.t) (h : Speed.t) (t1 t2 u1 u2 : Z) :
  Rpm_wf r -> Speed_wf h ->
  Rpm.spark_count (Rpm_step r (Edge t1)) = Rpm.spark_count r + 1 ->
  Speed.hall_count (Speed_step h (Edge u1)) = Speed.hall_count h + 1 ->
  ticks_diff t2 t1 <= 4 -> ticks_diff u2 u1 <= 36 ->
  let r1 := Rpm_step r (Edge t1) in
  let r2 := Rpm_step r1 (Edge t2) in
  let h1 := Speed_step h (Edge u1) in
  let h2 := Speed_step h1 (Edge u2) in
  (r2 = Rpm.set_spark_disqualified (Rpm.spark_disqualified r1 + 1)
          (Rpm.set_this_spark_ms t2 r1) /\
   Rpm.spark_count r2 = Rpm.spark_count r + 1 /\
   Rpm.spark_disqualified r2 = Rpm.spark_disqualified r + 1 /\
   Rpm.spark_overflow r2 = Rpm.spark_overflow r) /\
  (h2 = Speed.set_hall_disqualified (Speed.hall_disqualified h1 + 1)
          (Speed.set_this_hall_ms u2 h1) /\
   Speed.hall_count h2 = Speed.hall_count h + 1 /\
   Speed.hall_disqualified h2 = Speed.hall_disqualified h + 1 /\
   Speed.hall_overflow h2 = Speed.hall_overflow h).
Proof.
  intros Hr Hh Hacc_r Hacc_h Ht Hu r1 r2 h1 h2.
  destruct (cb_spark_accepted t1 r Hr Hacc_r) as (_ & Hw & Hget & Hd & Ho).
  destruct (cb_hall_accepted u1 h Hh Hacc_h) as (_ & Hw' & Hget' & Hd' & Ho').
  fold r1 in Hw, Hget, Hd, Ho, Hacc_r. fold h1 in Hw', Hget', Hd', Ho', Hacc_h.
  clearbody r1 h1.
  assert (r2 = Rpm.set_spark_disqualified (Rpm.spark_disqualified r1 + 1)
                 (Rpm.set_this_spark_ms t2 r1)) as Hr2.
  { unfold r2. cbn [Rpm_step].
    now rewrite (cb_spark_bounce t2 t1 r1 Hw Hget Ht). }
  assert (h2 = Speed.set_hall_disqualified (Speed.hall_disqualified h1 + 1)
                 (Speed.set_this_hall_ms u2 h1)) as Hh2.
  { unfold h2. cbn [Speed_step].
    rewrite (cb_hall_bounce u2 u1 h1 Hw' Hget' Hu).
    unfold Speed.set_hall_disqualified, Speed.set_this_hall_ms,
      Speed.set_hall_total. cbn.
    f_equal. lia. }
  split; (split; [assumption|]).
  - rewrite Hr2. cbn. lia.
  - rewrite Hh2. cbn. lia.
Qed.

(** C7 on new meters: edges exactly 4 ms apart on [Rpm], and exactly
    36 ms apart on [Speed]. *)
Lemma bounce_at_threshold_is_disqualified_witness :
  let r := Rpm.__init__ in
  let h := Speed.fresh 298 in
  let r2 := Rpm_step (Rpm_step r (Edge 100)) (Edge 104) in
  let h2 := Speed_step (Speed_step h (Edge 100)) (Edge 136) in
  (ticks_diff 104 100 <= 4 /\ ticks_diff 136 100 <= 36) /\
  (Rpm.spark_count r2 = 1 /\ Rpm.spark_disqualified r2 = 1) /\
  (Speed.hall_count h2 = 1 /\ Speed.hall_disqualified h2 = 1).
Proof.
  cbn zeta.
  assert (ticks_diff 104 100 <= 4) as Ht by (vm_compute; discriminate).
  assert (ticks_diff 136 100 <= 36) as Hu by (vm_compute; discriminate).
  split; [split; assumption|].
  destruct (bounce_at_threshold_is_disqualified
              Rpm.__init__ (Speed.fresh 298) 100 104 100 136)
    as [(_ & Hc & Hd & _) (_ & Hc' & Hd' & _)].
  - split; cbn; try lia; reflexivity.
  - split; cbn; try lia; reflexivity.
  - reflexivity.
  - reflexivity.
  - exact Ht.
  - exact Hu.
  - split; split; assumption.
Defined.

End MeterClaims.

(** ** The button *)

Section ButtonClaims.
Import Button.

(** A sample that finds the button down, as the previous one did,
    changes nothing. *)
Lemma cb_button_series_held (s : Button.t) :
  button_series_click_prev_value s = BUTTON_DOWN ->
  cb_button_series BUTTON_DOWN s = (s, Ok tt).
Proof.
  intros Hprev. destruct s. cbn in Hprev. subst.
  reflexivity.
Qed.

Lemma button_samples_held (n : nat) (rest : list Z) (s : Button.t) :
  button_series_click_prev_value s = BUTTON_DOWN ->
  button_samples (repeat BUTTON_DOWN n ++ rest) s = button_samples rest s.
Proof.
  intros Hprev. induction n as [|n IH]; [reflexivity|].
  cbn [repeat app button_samples]. unfold mbind, M_bind, bind.
  rewrite (cb_button_series_held s Hprev). exact IH.
Qed.

(** C6, as stated, fails: the press is confirmed, the button is held
    through three samples of the burst timer and released, two samples
    find it up and end the burst; [pressed] then returns 1, not 3. *)
Lemma held_button_is_not_three_presses :
  let held_then_released :=
    [BUTTON_DOWN; BUTTON_DOWN; BUTTON_DOWN; BUTTON_UP; BUTTON_UP] in
  let s := fst (cb_button 0 Button.__init__) in
  snd (button_gesture held_then_released s) = Ok 1 /\
  snd (button_gesture held_then_released s) <> Ok 3.
Proof. cbn zeta. split; vm_compute; [reflexivity|discriminate]. Qed.

(** C6 (amended).  Once the press is confirmed, holding the button down
    through any number of samples of the burst timer and releasing it
    counts one press: when two samples in a row have found the button up
    the burst is over and [pressed] returns 1.  (The count grows on a
    sample that finds the button down after one that found it up.) *)
Theorem held_button_is_one_press (s : Button.t) (n : nat) :
  let s' :=
    fst (button_gesture
           (repeat BUTTON_DOWN n ++ [BUTTON_UP; BUTTON_UP]) s) in
  snd (button_gesture (repeat BUTTON_DOWN n ++ [BUTTON_UP; BUTTON_UP]) s)
    = Ok 1 /\
  button_waiting_more_clicks s' = false /\
  button_series_click_timer s' = Stopped /\
  button_press_count s' = 0.
Proof.
  cbn zeta. unfold button_gesture.
  unfold mbind at 1 2 3 4 5 6 7 8, M_bind, bind.
  destruct (cb_button_debounce BUTTON_DOWN s) as [s1 r1] eqn:Hdeb.
  assert (r1 = Ok tt /\ button_series_click_prev_value s1 = BUTTON_DOWN /\
          button_press_count s1 = 1) as (-> & Hprev & Hcount).
  { unfold cb_button_debounce in Hdeb. run_monad.
    injection Hdeb as <- <-. auto. }
  rewrite (button_samples_held n _ s1 Hprev).
  destruct s1. cbn in Hprev, Hcount. subst.
  repeat split; reflexivity.
Qed.

(** Three presses are three samples that find the button down after it
    was up (the confirmed press counting as the first). *)
Lemma three_clicks_are_three_presses :
  snd (button_gesture
         [BUTTON_UP; BUTTON_DOWN; BUTTON_UP; BUTTON_DOWN;
          BUTTON_UP; BUTTON_UP]
         (fst (cb_button 0 Button.__init__))) = Ok 3.
Proof. vm_compute. reflexivity. Qed.


End ButtonClaims.

(** ** The limiter and the mode update of the loop *)

(** Unfolds the mode update down to the readings it compares. *)
Ltac run_limiter :=
  unfold Show.evaluate, Show.first_statement, Show.second_statement,
    Limiter.get_mode, Limiter.free, Limiter.limp, Limiter.limit,
    Limiter.ign_off, Limiter.ign_freq, Limiter.ign_duty, Limiter.ign_deinit,
    Qgtb in *;
  run_monad.

Ltac split_readings :=
  repeat match goal with
         | |- context [Qltb ?a ?b] => destruct (Qltb a b)
         end.

(** Settles the comparisons of a goal from the bounds among the
    hypotheses. *)
Ltac decide_readings :=
  unfold Qgtb;
  repeat match goal with
         | |- context [Qltb ?a ?b] =>
             let E := fresh "E" in
             destruct (Qltb a b) eqn:E;
             [apply Qltb_lt in E | apply Qltb_ge in E]
         end;
  cbn [andb orb negb];
  try solve [repeat split; reflexivity];
  exfalso;
  unfold Limiter.LIMIT_RPM_HIGH, Limiter.LIMIT_RPM_LOW, Limiter.LIMP_RPM_HIGH,
    Limiter.LIMP_RPM_LOW, Limiter.LIMIT_SPEED_HIGH, Limiter.LIMIT_SPEED_LOW,
    Limiter.LIMP_SPEED_HIGH, Limiter.LIMP_SPEED_LOW, inject_Z in *;
  repeat match goal with
         | H : _ /\ _ |- _ => destruct H
         | H : _ \/ _ |- _ => destruct H
         end;
  lra.

Section LimiterFacts.
Import Limiter.

(** The mode update, mode by mode. *)

Lemma evaluate_unlimited (p id : Z) (lv : option Z) (rpm kmh : Q) :
  let l := mk p (Pin id lv) UNLIMITED in
  Show.evaluate rpm kmh l =
    if Qgtb rpm (inject_Z LIMP_RPM_HIGH)
       || Qgtb kmh (inject_Z LIMP_SPEED_HIGH)
    then
      if Qgtb rpm (inject_Z LIMIT_RPM_HIGH)
         || Qgtb kmh (inject_Z LIMIT_SPEED_HIGH)
      then (mk p (PWM 15 (Some FREQ) (Some LIMIT_DUTY) true) LIMITED, Ok tt)
      else (mk p (PWM 15 (Some FREQ) (Some LIMP_DUTY) true) LIMP, Ok tt)
    else
      if Qgtb rpm (inject_Z LIMIT_RPM_HIGH)
         || Qgtb kmh (inject_Z LIMIT_SPEED_HIGH)
      then (mk p (PWM p (Some FREQ) (Some LIMIT_DUTY) true) LIMITED, Ok tt)
      else (l, Ok tt).
Proof. cbn zeta. run_limiter. split_readings; reflexivity. Qed.

Lemma evaluate_limited (p id : Z) (f d : option Z) (rpm kmh : Q) :
  let l := mk p (PWM id f d true) LIMITED in
  Show.evaluate rpm kmh l =
    if Qltb rpm (inject_Z LIMIT_RPM_LOW)
       && Qltb kmh (inject_Z LIMIT_SPEED_LOW)
    then (mk p (Pin p (Some 0)) UNLIMITED, Ok tt)
    else
      if Qgtb rpm (inject_Z LIMP_RPM_HIGH)
         || Qgtb kmh (inject_Z LIMP_SPEED_HIGH)
      then (mk p (PWM id f (Some LIMP_DUTY) true) LIMP, Ok tt)
      else (l, Ok tt).
Proof. cbn zeta. run_limiter. split_readings; reflexivity. Qed.

Lemma evaluate_limp (p id : Z) (f d : option Z) (rpm kmh : Q) :
  let l := mk p (PWM id f d true) LIMP in
  Show.evaluate rpm kmh l =
    if Qltb rpm (inject_Z LIMIT_RPM_LOW)
       && Qltb kmh (inject_Z LIMIT_SPEED_LOW)
    then
      if Qltb rpm (inject_Z LIMP_RPM_LOW)
         && Qltb kmh (inject_Z LIMP_SPEED_LOW)
      then (mk p (PWM p (Some FREQ) (Some LIMIT_DUTY) true) LIMITED, Ok tt)
      else (mk p (Pin p (Some 0)) UNLIMITED, Ok tt)
    else
      if Qltb rpm (inject_Z LIMP_RPM_LOW)
         && Qltb kmh (inject_Z LIMP_SPEED_LOW)
      then (mk p (PWM id f (Some LIMIT_DUTY) true) LIMITED, Ok tt)
      else (l, Ok tt).
Proof. cbn zeta. run_limiter. split_readings; reflexivity. Qed.

(** The shape of a well-formed limiter in each mode. *)
Lemma Limiter_wf_limited (l : Limiter.t) :
  Limiter_wf l -> mode l = LIMITED ->
  exists p id f d, l = mk p (PWM id f d true) LIMITED.
Proof.
  destruct l as [p [id lv|id f d a] m]; unfold Limiter_wf; cbn.
  - intros -> Hm. discriminate Hm.
  - intros [-> _] ->. eauto.
Qed.

Lemma Limiter_wf_limp (l : Limiter.t) :
  Limiter_wf l -> mode l = LIMP ->
  exists p id f d, l = mk p (PWM id f d true) LIMP.
Proof.
  destruct l as [p [id lv|id f d a] m]; unfold Limiter_wf; cbn.
  - intros -> Hm. discriminate Hm.
  - intros [-> _] ->. eauto.
Qed.

(** One pass, then the rest. *)
Lemma show_passes_cons (rpm kmh : Q) (rest : list (Q * Q))
    (l l1 : Limiter.t) :
  Show.evaluate rpm kmh l = (l1, Ok tt) ->
  show_passes ((rpm, kmh) :: rest) l =
    match show_passes rest l1 with
    | (l2, Ok ms) => (l2, Ok (mode l1 :: ms))
    | (l2, Raise e) => (l2, Raise e)
    | (l2, OutOfFuel) => (l2, OutOfFuel)
    end.
Proof.
  intros Hev. cbn [show_passes].
  unfold mbind at 1, M_bind at 1, bind at 1. rewrite Hev.
  unfold get_mode, mbind, M_bind, bind, get, ret.
  destruct (show_passes rest l1) as [l2 [ms|e|]]; reflexivity.
Qed.

Lemma show_passes_app (a b : list (Q * Q)) :
  forall (l l1 l2 : Limiter.t) (ms1 ms2 : list Z),
    show_passes a l = (l1, Ok ms1) ->
    show_passes b l1 = (l2, Ok ms2) ->
    show_passes (a ++ b) l = (l2, Ok (ms1 ++ ms2)).
Proof.
  induction a as [|[rpm kmh] a IH]; intros l l1 l2 ms1 ms2 Ha Hb.
  - cbn in Ha. injection Ha as <- <-. exact Hb.
  - cbn [app].
    destruct (Show.evaluate rpm kmh l) as [l' [[]|e|]] eqn:Hev;
      [|cbn [show_passes] in Ha;
        unfold mbind at 1, M_bind at 1, bind at 1 in Ha;
        rewrite Hev in Ha; discriminate Ha..].
    rewrite (show_passes_cons _ _ a _ _ Hev) in Ha.
    rewrite (show_passes_cons _ _ (a ++ b) _ _ Hev).
    destruct (show_passes a l') as [l'' [ms|e|]] eqn:Hrest;
      try discriminate Ha.
    injection Ha as <- <-.
    now rewrite (IH l' l'' l2 ms ms2 Hrest Hb).
Qed.

(** In LIMITED mode, readings that are not both under the low limits
    and not over a limp limit leave the limiter as it is. *)
Lemma limited_hold (p id : Z) (f d : option Z) (rpm kmh : Q) :
  (inject_Z LIMIT_RPM_LOW <= rpm \/ inject_Z LIMIT_SPEED_LOW <= kmh)%Q ->
  (rpm <= inject_Z LIMP_RPM_HIGH)%Q -> (kmh <= inject_Z LIMP_SPEED_HIGH)%Q ->
  let l := mk p (PWM id f d true) LIMITED in
  Show.evaluate rpm kmh l = (l, Ok tt).
Proof.
  intros Hlow Hr Hk l. unfold l. rewrite evaluate_limited.
  decide_readings.
Qed.

Lemma limited_hold_passes (p id : Z) (f d : option Z)
    (rs : list (Q * Q)) :
  Forall (fun r =>
            (inject_Z LIMIT_RPM_LOW <= fst r \/
             inject_Z LIMIT_SPEED_LOW <= snd r) /\
            fst r <= inject_Z LIMP_RPM_HIGH /\
            snd r <= inject_Z LIMP_SPEED_HIGH)%Q rs ->
  let l := mk p (PWM id f d true) LIMITED in
  show_passes rs l = (l, Ok (repeat LIMITED (length rs))).
Proof.
  intros Hall l. induction Hall as [|[rpm kmh] rs (Hlow & Hr & Hk) _ IH].
  - reflexivity.
  - cbn [fst snd] in *.
    rewrite (show_passes_cons rpm kmh rs l l)
      by (apply limited_hold; assumption).
    rewrite IH. reflexivity.
Qed.

(** The changes of mode in the sequences the properties meet. *)
Lemma transitions_repeat (m : Z) (n : nat) (ms : list Z) :
  transitions m (repeat m n ++ ms) = transitions m ms.
Proof.
  induction n as [|n IH]; [reflexivity|].
  cbn [repeat app transitions]. now rewrite Z.eqb_refl.
Qed.

Lemma transitions_sweep (n m : nat) :
  (m <> 0)%nat ->
  transitions UNLIMITED (repeat UNLIMITED n ++ repeat LIMITED m)
    = [(UNLIMITED, LIMITED)].
Proof.
  intros Hm. rewrite transitions_repeat.
  destruct m as [|m]; [congruence|].
  cbn [repeat transitions]. cbn [Z.eqb UNLIMITED LIMITED].
  rewrite <- (app_nil_r (repeat LIMITED m)).
  now rewrite transitions_repeat.
Qed.

(** A rising rate from UNLIMITED mode, the rate never over the limp
    limit and the speed never over its limit: the mode is UNLIMITED up to
    the first rate over the limit and LIMITED from there on. *)
Lemma sweep_from_unlimited (rs : list (Q * Q)) :
  forall (p id : Z) (lv : option Z),
    StronglySorted Qle (map fst rs) ->
    Forall (fun r => fst r <= inject_Z LIMP_RPM_HIGH /\
                     snd r <= inject_Z LIMIT_SPEED_HIGH)%Q rs ->
    exists (n m : nat) (l' : Limiter.t),
      show_passes rs (mk p (Pin id lv) UNLIMITED)
        = (l', Ok (repeat UNLIMITED n ++ repeat LIMITED m)) /\
      (Exists (fun r => inject_Z LIMIT_RPM_HIGH < fst r)%Q rs ->
       (m <> 0)%nat /\ Limiter_wf l' /\ mode l' = LIMITED).
Proof.
  induction rs as [|[rpm kmh] rs IH]; intros p id lv Hsorted Hall.
  - exists 0%nat, 0%nat, (mk p (Pin id lv) UNLIMITED).
    split; [reflexivity|]. intros Hex. inversion Hex.
  - cbn [map fst] in Hsorted.
    apply StronglySorted_inv in Hsorted as [Hsorted Hhead].
    apply Forall_cons in Hall as [[Hr Hk] Hall]. cbn [fst snd] in Hr, Hk.
    destruct (Qlt_le_dec (inject_Z LIMIT_RPM_HIGH) rpm) as [Hover|Hunder].
    + set (l1 := mk p (PWM p (Some FREQ) (Some LIMIT_DUTY) true) LIMITED).
      assert (Show.evaluate rpm kmh (mk p (Pin id lv) UNLIMITED)
              = (l1, Ok tt)) as Hev.
      { rewrite evaluate_unlimited. unfold l1. decide_readings. }
      exists 0%nat, (S (length rs)), l1.
      rewrite (show_passes_cons _ _ _ _ _ Hev).
      unfold l1 at 1. rewrite limited_hold_passes.
      * split; [reflexivity|]. intros _.
        split; [discriminate|]. split; [|reflexivity].
        unfold Limiter_wf, l1. cbn. auto.
      * apply Forall_forall. intros [r k] Hin.
        rewrite Forall_forall in Hall. specialize (Hall _ Hin).
        rewrite Forall_forall in Hhead.
        assert (rpm <= r)%Q as Hle
          by (apply Hhead, list_elem_of_In, in_map_iff;
              exists (r, k); split; [reflexivity|];
              now apply list_elem_of_In).
        cbn [fst snd] in *. destruct Hall as [Hr' Hk'].
        unfold LIMIT_RPM_HIGH, LIMIT_RPM_LOW, LIMIT_SPEED_HIGH,
          LIMIT_SPEED_LOW, LIMP_RPM_HIGH, LIMP_SPEED_HIGH, inject_Z in *.
        repeat split; [left|..]; lra.
    + assert (Show.evaluate rpm kmh (mk p (Pin id lv) UNLIMITED)
              = (mk p (Pin id lv) UNLIMITED, Ok tt)) as Hev.
      { rewrite evaluate_unlimited. decide_readings. }
      destruct (IH p id lv Hsorted Hall) as (n & m & l' & Hrun & Hex).
      exists (S n), m, l'.
      rewrite (show_passes_cons _ _ _ _ _ Hev), Hrun.
      split; [reflexivity|]. intros Hany. apply Hex.
      apply Exists_cons in Hany as [Hnow|Hlater]; [|exact Hlater].
      cbn [fst] in Hnow. exfalso.
      apply (Qlt_not_le _ _ Hnow Hunder).
Qed.

End LimiterFacts.

Section LimiterClaims.
Import Limiter.

(** C1 (the code departs from it).  In LIMP mode, with the rate and the
    speed both under their low limits, the first [if] statement of the
    pass calls [free] ("we were restricted, but now are free to go") and
    the second one, which tests the mode read before the first, calls
    [limit]: two changes of mode in one pass, and the pass ends in
    LIMITED mode, not UNLIMITED. *)
Theorem limp_with_low_readings_ends_limited
    (l : Limiter.t) (rpm kmh : Q) :
  Limiter_wf l -> mode l = LIMP ->
  (rpm < inject_Z LIMIT_RPM_LOW)%Q -> (kmh < inject_Z LIMIT_SPEED_LOW)%Q ->
  let l1 := fst (Show.first_statement LIMP rpm kmh l) in
  let l2 := fst (Show.second_statement LIMP rpm kmh l1) in
  mode l1 = UNLIMITED /\ mode l2 = LIMITED /\
  Show.evaluate rpm kmh l = (l2, Ok tt).
Proof.
  intros Hwf Hmode Hr Hk.
  destruct (Limiter_wf_limp l Hwf Hmode) as (p & id & f & d & ->).
  cbn zeta. run_limiter. decide_readings.
Qed.

(** C1 at a state the loop reaches: the limiter is in LIMP mode after two
    passes at 8000 rpm; a pass at 5000 rpm and 30 km/h then frees it and
    leaves it LIMITED. *)
Lemma limp_with_low_readings_ends_limited_witness :
  let l := fst (show_passes [(8000 # 1, 0 # 1); (8000 # 1, 0 # 1)]%Q
                  show_limiter) in
  mode l = LIMP /\
  (5000 # 1 < inject_Z LIMIT_RPM_LOW)%Q /\
  (30 # 1 < inject_Z LIMIT_SPEED_LOW)%Q /\
  mode (fst (Show.first_statement LIMP (5000 # 1) (30 # 1) l)) = UNLIMITED /\
  mode (fst (Show.evaluate (5000 # 1) (30 # 1) l)) = LIMITED.
Proof.
  cbn zeta.
  assert (5000 # 1 < inject_Z LIMIT_RPM_LOW)%Q as Hr by reflexivity.
  assert (30 # 1 < inject_Z LIMIT_SPEED_LOW)%Q as Hk by reflexivity.
  split; [reflexivity|]. split; [exact Hr|]. split; [exact Hk|].
  destruct (limp_with_low_readings_ends_limited
              (fst (show_passes [(8000 # 1, 0 # 1); (8000 # 1, 0 # 1)]%Q
                      show_limiter))
              (5000 # 1) (30 # 1))
    as (H1 & H2 & Hev).
  - vm_compute. auto.
  - reflexivity.
  - exact Hr.
  - exact Hk.
  - split; [exact H1|]. rewrite Hev. exact H2.
Defined.

(** The two statements overlap from UNLIMITED mode too: over a limp
    limit the first calls [limp] and the second [limit], and the pass
    ends LIMITED; the next pass reaches LIMP. *)
Lemma unlimited_over_limp_limit_ends_limited :
  show_passes [(8000 # 1, 0 # 1); (8000 # 1, 0 # 1)]%Q show_limiter
  = (mk 15 (PWM 15 (Some FREQ) (Some LIMP_DUTY) true) LIMP,
     Ok [LIMITED; LIMP]).
Proof. vm_compute. reflexivity. Qed.

(** Leaving for UNLIMITED mode takes both readings under their low
    limits in that pass, whatever the mode the pass starts in. *)
Lemma unlimited_only_below_low (l : Limiter.t) (rpm kmh : Q) :
  Limiter_wf l -> mode l <> UNLIMITED ->
  mode (fst (Show.evaluate rpm kmh l)) = UNLIMITED ->
  (rpm < inject_Z LIMIT_RPM_LOW /\ kmh < inject_Z LIMIT_SPEED_LOW)%Q.
Proof.
  intros Hwf Hmode.
  destruct l as [p [id lv|id f d a] m]; unfold Limiter_wf in Hwf;
    cbn in Hwf, Hmode; [contradiction|].
  destruct Hwf as [-> [->| ->]];
    [rewrite evaluate_limited|rewrite evaluate_limp];
    destruct (Qltb rpm (inject_Z LIMIT_RPM_LOW)) eqn:E1;
    destruct (Qltb kmh (inject_Z LIMIT_SPEED_LOW)) eqn:E2;
    cbn [andb];
    repeat match goal with
           | |- context [if ?b then _ else _] => destruct b
           end;
    cbn; intros H; try discriminate H;
    split; now apply Qltb_lt.
Qed.

(** C9.  From [Limiter()], a rising rate that goes over the limit (and
    never over the limp limit), with the speed never over its limit,
    changes the mode once, from UNLIMITED to LIMITED.  Readings strictly
    between the low and the high limits then leave the limiter as it is,
    pass after pass.  From there a pass ends in UNLIMITED mode exactly
    when rate and speed are both under their low limits in that pass, and
    from any restricted mode only then. *)
Theorem sweep_limits_once_then_band_holds (sweep band : list (Q * Q)) :
  StronglySorted Qle (map fst sweep) ->
  Forall (fun r => fst r <= inject_Z LIMP_RPM_HIGH /\
                   snd r <= inject_Z LIMIT_SPEED_HIGH)%Q sweep ->
  Exists (fun r => inject_Z LIMIT_RPM_HIGH < fst r)%Q sweep ->
  Forall (fun r =>
            (inject_Z LIMIT_RPM_LOW < fst r /\
             fst r < inject_Z LIMIT_RPM_HIGH) /\
            (inject_Z LIMIT_SPEED_LOW < snd r /\
             snd r < inject_Z LIMIT_SPEED_HIGH))%Q band ->
  exists (l : Limiter.t) (ms1 ms2 : list Z),
    show_passes sweep show_limiter = (l, Ok ms1) /\
    transitions UNLIMITED ms1 = [(UNLIMITED, LIMITED)] /\
    show_passes band l = (l, Ok ms2) /\
    show_passes (sweep ++ band) show_limiter = (l, Ok (ms1 ++ ms2)) /\
    transitions UNLIMITED (ms1 ++ ms2) = [(UNLIMITED, LIMITED)] /\
    (forall rpm kmh : Q,
        mode (fst (Show.evaluate rpm kmh l)) = UNLIMITED <->
        (rpm < inject_Z LIMIT_RPM_LOW /\
         kmh < inject_Z LIMIT_SPEED_LOW)%Q) /\
    (forall (l' : Limiter.t) (rpm kmh : Q),
        Limiter_wf l' -> mode l' <> UNLIMITED ->
        mode (fst (Show.evaluate rpm kmh l')) = UNLIMITED ->
        (rpm < inject_Z LIMIT_RPM_LOW /\
         kmh < inject_Z LIMIT_SPEED_LOW)%Q).
Proof.
  intros Hsorted Hsweep Hcross Hband.
  destruct (sweep_from_unlimited sweep 15 15 (Some 0) Hsorted Hsweep)
    as (n & m & l & Hrun & Hafter).
  destruct (Hafter Hcross) as (Hm & Hwf & Hmode).
  destruct (Limiter_wf_limited l Hwf Hmode) as (p & id & f & d & ->).
  assert (show_passes band (mk p (PWM id f d true) LIMITED)
          = (mk p (PWM id f d true) LIMITED,
             Ok (repeat LIMITED (length band)))) as Hhold.
  { apply limited_hold_passes.
    eapply Forall_impl; [exact Hband|]. cbn beta.
    intros [r k] [[H1 H2] [H3 H4]]. cbn [fst snd] in *.
    unfold LIMIT_RPM_HIGH, LIMIT_RPM_LOW, LIMIT_SPEED_HIGH,
      LIMIT_SPEED_LOW, LIMP_RPM_HIGH, LIMP_SPEED_HIGH, inject_Z in *.
    repeat split; [left|..]; lra. }
  exists (mk p (PWM id f d true) LIMITED),
    (repeat UNLIMITED n ++ repeat LIMITED m),
    (repeat LIMITED (length band)).
  split; [exact Hrun|].
  split; [now apply transitions_sweep|].
  split; [exact Hhold|].
  split; [exact (show_passes_app _ _ _ _ _ _ _ Hrun Hhold)|].
  split.
  { rewrite <- app_assoc, <- repeat_app. apply transitions_sweep. lia. }
  split; [|exact unlimited_only_below_low].
  intros rpm kmh. split.
  - apply unlimited_only_below_low; [|discriminate].
    unfold Limiter_wf. cbn. auto.
  - intros [Hr Hk]. rewrite evaluate_limited.
    apply Qltb_lt in Hr, Hk. rewrite Hr, Hk. reflexivity.
Qed.

(** C9 on a sweep from 5000 to 6500 rpm at 30 to 35 km/h, then readings
    between the limits. *)
Lemma sweep_limits_once_then_band_holds_witness :
  let sweep :=
    [(5000 # 1, 30 # 1); (5900 # 1, 30 # 1); (6100 # 1, 30 # 1);
     (6500 # 1, 35 # 1)]%Q in
  let band := [(5900 # 1, 41 # 1); (5950 # 1, 41 # 1); (5850 # 1, 41 # 1)]%Q in
  exists (l : Limiter.t) (ms : list Z),
    show_passes (sweep ++ band) show_limiter = (l, Ok ms) /\
    transitions UNLIMITED ms = [(UNLIMITED, LIMITED)] /\
    mode (fst (Show.evaluate (5000 # 1) (30 # 1) l)) = UNLIMITED.
Proof.
  cbn zeta.
  destruct (sweep_limits_once_then_band_holds
              [(5000 # 1, 30 # 1); (5900 # 1, 30 # 1); (6100 # 1, 30 # 1);
               (6500 # 1, 35 # 1)]%Q
              [(5900 # 1, 41 # 1); (5950 # 1, 41 # 1); (5850 # 1, 41 # 1)]%Q)
    as (l & ms1 & ms2 & _ & _ & _ & Hrun & Htr & Hfree & _).
  - cbn [map fst].
    repeat (constructor; [|repeat constructor; discriminate]).
    constructor.
  - repeat constructor; discriminate.
  - do 2 apply Exists_cons_tl. apply Exists_cons_hd. reflexivity.
  - repeat constructor.
  - exists l, (ms1 ++ ms2). split; [exact Hrun|]. split; [exact Htr|].
    apply Hfree. split; reflexivity.
Defined.


(** [show] constructs its limiter without a mode argument. *)
Lemma show_limiter_constructed : Limiter.__init__ 15 None = Ok show_limiter.
Proof. reflexivity. Qed.

End LimiterClaims.

(** ** Intervals *)

Section IntervalFacts.

Lemma interval_sum_app (base : Z) (a b : list Z) :
  interval_sum base (a ++ b)
  = interval_sum base a + interval_sum (newest base a) b.
Proof.
  revert base. induction a as [|t a IH]; intros base; cbn; [reflexivity|].
  rewrite IH. lia.
Qed.

Lemma newest_app (base : Z) (a b : list Z) :
  newest base (a ++ b) = newest (newest base a) b.
Proof. revert base. induction a as [|t a IH]; intros base; cbn; auto. Qed.

(** A wrap-safe difference is the difference, modulo the tick period;
    so the intervals of a sequence of times sum up, modulo the period, to
    the distance from the base to the last of them. *)
Lemma ticks_diff_mod (a b : Z) :
  (ticks_diff a b - (a - b)) mod TICKS_PERIOD = 0.
Proof.
  unfold ticks_diff.
  replace ((a - b + TICKS_HALF) mod TICKS_PERIOD - TICKS_HALF - (a - b))
    with ((a - b + TICKS_HALF) mod TICKS_PERIOD - (a - b + TICKS_HALF)) by lia.
  rewrite Zminus_mod, Z.mod_mod by (vm_compute; discriminate).
  rewrite Z.sub_diag. reflexivity.
Qed.

Lemma interval_sum_mod (base : Z) (ts : list Z) :
  (interval_sum base ts - (newest base ts - base)) mod TICKS_PERIOD = 0.
Proof.
  revert base. induction ts as [|t ts IH]; intros base; cbn [interval_sum newest].
  - rewrite Z.sub_diag. reflexivity.
  - replace (ticks_diff t base + interval_sum t ts - (newest t ts - base))
      with ((ticks_diff t base - (t - base))
            + (interval_sum t ts - (newest t ts - t))) by lia.
    rewrite Zplus_mod, ticks_diff_mod, IH. reflexivity.
Qed.

End IntervalFacts.

(** ** The ring buffer of [Rpm] *)

Section RpmRing.
Import Rpm.
Context {fmt : Format}.

Lemma ring_slots_differ (r i c : Z) :
  0 <= i < c -> c < ARRAYSIZE ->
  (r + i) mod ARRAYSIZE <> (r + c) mod ARRAYSIZE.
Proof.
  unfold ARRAYSIZE. intros Hi Hc Heq.
  assert ((c - i) mod 20 = 0) as Hz.
  { replace (c - i) with ((r + c) - (r + i)) by lia.
    rewrite Zminus_mod, Heq, Z.sub_diag. reflexivity. }
  rewrite Z.mod_small in Hz; lia.
Qed.

Lemma ring_next (a b : Z) :
  a mod ARRAYSIZE = b mod ARRAYSIZE ->
  (a + 1) mod ARRAYSIZE = (b mod ARRAYSIZE + 1) mod ARRAYSIZE.
Proof.
  intros H. rewrite <- H. now rewrite Zplus_mod_idemp_l.
Qed.

(** The pending entries of a meter from which the oldest is taken. *)
Lemma Rpm_pending_pop (s : Rpm.t) (x : Z) :
  Rpm_wf s -> 0 < spark_count s ->
  sparks s !! Z.to_nat (spark_read_index s) = Some x ->
  Rpm_pending s =
    x :: Rpm_pending
           (set_prev_spark_ms x
              (set_spark_read_index ((spark_read_index s + 1) mod ARRAYSIZE)
                 (set_spark_count (spark_count s - 1) s))).
Proof.
  intros [Hlen Hw Hr Hc] Hpos Hx. unfold Rpm_pending. cbn.
  replace (Z.to_nat (spark_count s)) with (S (Z.to_nat (spark_count s - 1)))
    by lia.
  cbn [seq map]. f_equal.
  - rewrite Z.add_0_r, Z.mod_small by (unfold ARRAYSIZE; lia).
    now rewrite Hx.
  - rewrite <- seq_shift, map_map. apply map_ext. intros i.
    rewrite Zplus_mod_idemp_l. do 3 f_equal. f_equal. lia.
Qed.

(** The loop of [avg], entry by entry: it sums the intervals of the
    pending entries from the baseline on, makes the last of them the new
    baseline, and moves the read index past them. *)
Lemma avg_loop_pending (fuel : nat) :
  forall (acc : Z) (s : Rpm.t),
    Rpm_wf s -> spark_count s = Z.of_nat fuel ->
    avg_loop fuel acc s =
      (set_prev_spark_ms (newest (prev_spark_ms s) (Rpm_pending s))
         (set_spark_read_index
            ((spark_read_index s + spark_count s) mod ARRAYSIZE)
            (set_spark_count 0 s)),
       Ok (acc + interval_sum (prev_spark_ms s) (Rpm_pending s))).
Proof.
  induction fuel as [|fuel IH]; intros acc s Hwf Hfuel;
    pose proof Hwf as [Hlen Hw Hr Hc].
  - cbn in Hfuel. cbn [avg_loop]. run_monad.
    unfold Rpm_pending. rewrite Hfuel. cbn.
    rewrite !Z.add_0_r, Z.mod_small by (unfold ARRAYSIZE; lia).
    destruct s; cbn in *; subst. reflexivity.
  - destruct (array_get_in_range (sparks s) (spark_read_index s))
      as (x & Hx & Hget); [rewrite Hlen; lia|].
    set (s1 := set_prev_spark_ms x
                 (set_spark_read_index
                    ((spark_read_index s + 1) mod ARRAYSIZE)
                    (set_spark_count (spark_count s - 1) s))).
    assert (Rpm_wf s1) as Hwf1.
    { pose proof (Z.mod_pos_bound (spark_read_index s + 1) 20).
      unfold s1, ARRAYSIZE. split; cbn; lia. }
    rewrite (Rpm_pending_pop s x Hwf ltac:(lia) Hx). fold s1.
    cbn [avg_loop]. run_monad.
    assert ((spark_count s =? 0) = false) as -> by lia.
    rewrite Hget. fold s1.
    rewrite (IH (acc + ticks_diff x (prev_spark_ms s)) s1 Hwf1)
      by (unfold s1; cbn; lia).
    cbn [interval_sum newest]. unfold s1. cbn.
    rewrite Zplus_mod_idemp_l.
    replace (spark_read_index s + 1 + (spark_count s - 1))
      with (spark_read_index s + spark_count s) by lia.
    f_equal. f_equal. lia.
Qed.

(** An edge that passes the filter while the count is at most
    [ARRAYSIZE] is stored in the slot after the write index. *)
Lemma cb_spark_push (now : Z) (s : Rpm.t) :
  Rpm_wf s -> Rpm_passes s now -> spark_count s <= ARRAYSIZE ->
  let w := (spark_write_index s + 1) mod ARRAYSIZE in
  cb_spark now s =
    (set_spark_count (spark_count s + 1)
       (set_sparks (<[Z.to_nat w := now]> (sparks s))
          (set_spark_write_index w (set_this_spark_ms now s))), Ok tt).
Proof.
  intros Hwf. pose proof Hwf as [Hlen Hw Hr Hc].
  intros Hpass Hroom w. unfold Rpm_passes, Rpm_last_stored in Hpass.
  destruct (Z.eqb_spec (spark_write_index s) (-1)) as [He|Hne].
  - rewrite cb_spark_first by assumption. unfold w. rewrite He. reflexivity.
  - destruct (cb_spark_last s Hwf Hne) as (last & Hlook & Hlast).
    rewrite Hlook in Hpass.
    apply (cb_spark_store now last); assumption.
Qed.

Lemma Rpm_pending_push (now : Z) (s : Rpm.t) :
  Rpm_wf s -> Rpm_ring s -> spark_count s < ARRAYSIZE ->
  let w := (spark_write_index s + 1) mod ARRAYSIZE in
  Rpm_pending
    (set_spark_count (spark_count s + 1)
       (set_sparks (<[Z.to_nat w := now]> (sparks s))
          (set_spark_write_index w (set_this_spark_ms now s))))
  = Rpm_pending s ++ [now].
Proof.
  intros [Hlen Hw Hr Hc] Hring Hroom w. unfold Rpm_pending. cbn.
  replace (Z.to_nat (spark_count s + 1)) with (Z.to_nat (spark_count s) + 1)%nat
    by lia.
  rewrite seq_app, map_app. cbn [seq map]. unfold Rpm_ring in Hring.
  assert (0 <= w < 20) as Hwr by (apply Z.mod_pos_bound; lia).
  f_equal.
  - apply map_ext_in. intros i Hi. apply in_seq in Hi.
    rewrite list_lookup_insert_ne; [reflexivity|].
    unfold w. rewrite <- Hring. intros Heq.
    apply Z2Nat.inj in Heq;
      try (apply Z.mod_pos_bound; unfold ARRAYSIZE; lia).
    symmetry in Heq. revert Heq. apply ring_slots_differ; lia.
  - rewrite Nat.add_0_l, Z2Nat.id by lia. rewrite Hring. fold w.
    rewrite list_lookup_insert_eq by lia. reflexivity.
Qed.


(** The state [avg] leaves, whatever it returns or raises. *)
Lemma avg_state (s : Rpm.t) :
  Rpm_wf s ->
  fst (avg s) =
    set_prev_spark_ms (newest (prev_spark_ms s) (Rpm_pending s))
      (set_spark_read_index
         ((spark_read_index s + spark_count s) mod ARRAYSIZE)
         (set_spark_count 0 s)).
Proof.
  intros Hwf. pose proof Hwf as [Hlen Hw Hr Hc].
  unfold avg. run_monad.
  destruct (spark_count s >? 0) eqn:Hpos.
  - rewrite (avg_loop_pending (Z.to_nat (spark_count s)) 0 s Hwf) by lia.
    unfold truediv.
    destruct (Qeq_bool (of_int (spark_count s)) 0);
      [|destruct (Qeq_bool _ 0)]; reflexivity.
  - assert (spark_count s = 0) as Hz by lia.
    unfold Rpm_pending. rewrite Hz. cbn.
    rewrite Z.add_0_r, Z.mod_small by (unfold ARRAYSIZE; lia).
    destruct s; cbn in *; subst. reflexivity.
Qed.

Lemma Rpm_step_ring (s : Rpm.t) (e : meter_event) :
  Rpm_wf s -> Rpm_ring s -> Rpm_ring (Rpm_step s e).
Proof.
  intros Hwf Hring. pose proof Hwf as [Hlen Hw Hr Hc].
  unfold Rpm_ring in *. destruct e as [now|]; cbn [Rpm_step].
  - destruct (Z.eq_dec (spark_write_index s) (-1)) as [He|Hne].
    { rewrite cb_spark_first by assumption. cbn.
      rewrite Z.add_assoc, (ring_next _ _ Hring), He. reflexivity. }
    destruct (cb_spark_last s Hwf Hne) as (last & _ & Hlast).
    destruct (Z_gt_le_dec (ticks_diff now last) 4) as [Hd|Hd].
    + destruct (Z_le_gt_dec (spark_count s) ARRAYSIZE) as [Hn|Hn].
      * rewrite (cb_spark_store now last) by assumption. cbn.
        rewrite Z.add_assoc. now apply ring_next.
      * rewrite (cb_spark_overflow now last) by (assumption || lia).
        exact Hring.
    + rewrite (cb_spark_bounce now last) by assumption. exact Hring.
  - rewrite (avg_state s Hwf). cbn.
    rewrite Z.add_0_r, Z.mod_mod by (unfold ARRAYSIZE; lia). exact Hring.
Qed.

Lemma Rpm_run_ring (evs : list meter_event) : Rpm_ring (Rpm_run evs).
Proof.
  induction evs as [|e evs IH] using rev_ind; [reflexivity|].
  rewrite Rpm_run_snoc. apply Rpm_step_ring; [apply Rpm_run_wf|exact IH].
Qed.

(** Feeding edges that all pass the filter, with room for them: they
    join the pending entries in their order, and no counter moves. *)
Lemma Rpm_feed (ts : list Z) :
  forall s : Rpm.t,
    Rpm_wf s -> Rpm_ring s ->
    spark_count s + Z.of_nat (length ts) <= ARRAYSIZE ->
    spaced_over 4 (Rpm_last_stored s) ts = true ->
    let s' := fold_left Rpm_step (edges ts) s in
    Rpm_wf s' /\ Rpm_ring s' /\
    Rpm_pending s' = Rpm_pending s ++ ts /\
    prev_spark_ms s' = prev_spark_ms s /\
    spark_overflow s' = spark_overflow s /\
    spark_disqualified s' = spark_disqualified s.
Proof.
  induction ts as [|t ts IH]; intros s Hwf Hring Hroom Hsp; cbn zeta.
  - cbn. rewrite app_nil_r. auto 10.
  - cbn [length] in Hroom. cbn [spaced_over] in Hsp.
    apply andb_true_iff in Hsp as [Hpass Hrest].
    pose proof Hwf as [Hlen Hw Hr Hc].
    assert (Rpm_passes s t) as Hp.
    { unfold Rpm_passes. destruct (Rpm_last_stored s); [lia|exact I]. }
    cbn [edges map fold_left]. fold (edges ts).
    destruct (Rpm_step_wf s (Edge t) Hwf) as [Hwf1 _].
    pose proof (Rpm_step_ring s (Edge t) Hwf Hring) as Hring1.
    cbn [Rpm_step] in *.
    rewrite (cb_spark_push t s Hwf Hp) in * by lia. cbn [fst] in *.
    set (w := (spark_write_index s + 1) mod ARRAYSIZE) in *.
    assert (0 <= w < 20) as Hwr by (apply Z.mod_pos_bound; lia).
    specialize (IH _ Hwf1 Hring1).
    destruct IH as (Hwf' & Hring' & Hpend & Hprev & Hov & Hdq).
    + cbn. lia.
    + unfold Rpm_last_stored. cbn.
      assert ((w =? -1) = false) as -> by lia.
      rewrite list_lookup_insert_eq by lia. exact Hrest.
    + split; [exact Hwf'|]. split; [exact Hring'|].
      rewrite Hpend, Hprev, Hov, Hdq. subst w.
      rewrite (Rpm_pending_push t s Hwf Hring) by lia.
      rewrite <- app_assoc. auto.
Qed.

(** With every slot holding a pending entry, an edge that passes the
    filter is still stored: over the oldest pending entry, which the
    consumer then reads as the newest, first and last. *)
Lemma Rpm_pending_overwrite (now : Z) (s : Rpm.t) :
  Rpm_wf s -> Rpm_ring s -> spark_count s = ARRAYSIZE ->
  let w := (spark_write_index s + 1) mod ARRAYSIZE in
  Rpm_pending
    (set_spark_count (spark_count s + 1)
       (set_sparks (<[Z.to_nat w := now]> (sparks s))
          (set_spark_write_index w (set_this_spark_ms now s))))
  = now :: drop 1 (Rpm_pending s) ++ [now].
Proof.
  intros [Hlen Hw Hr Hc] Hring Hfull w. unfold Rpm_pending. cbn.
  unfold Rpm_ring in Hring. rewrite Hfull in *. unfold ARRAYSIZE in *.
  assert (w = spark_read_index s) as Hwr.
  { unfold w. rewrite <- Hring.
    rewrite <- (Z.mul_1_l 20) at 1. rewrite Z_mod_plus_full.
    apply Z.mod_small. lia. }
  rewrite Hwr.
  change (Z.to_nat (20 + 1)) with 21%nat. change (Z.to_nat 20) with 20%nat.
  change (seq 0 21) with (0%nat :: seq 1 19 ++ [20%nat]).
  change (seq 0 20) with (0%nat :: seq 1 19).
  cbn [map drop]. rewrite map_app. cbn [map].
  rewrite Z.add_0_r, Z.mod_small by lia.
  change (Z.of_nat 20) with (1 * 20).
  rewrite Z_mod_plus_full, Z.mod_small by lia.
  rewrite list_lookup_insert_eq by lia. cbn [default].
  f_equal. f_equal.
  apply map_ext_in. intros i Hi. apply in_seq in Hi.
  rewrite list_lookup_insert_ne; [reflexivity|].
  intros Heq. apply Z2Nat.inj in Heq;
    [|lia|apply Z.mod_pos_bound; lia].
  revert Heq.
  rewrite <- (Z.mod_small (spark_read_index s) 20) at 1 by lia.
  rewrite <- (Z.add_0_r (spark_read_index s)) at 1.
  apply ring_slots_differ; unfold ARRAYSIZE; lia.
Qed.

End RpmRing.

(** ** The ring buffer of [Speed] *)

Section SpeedRing.
Import Speed.
Context {fmt : Format}.

(** The distance per tick the object was constructed with. *)
Variable d : Z.

Lemma hall_ring_slots_differ (r i c : Z) :
  0 <= i < c -> c < ARRAYSIZE ->
  (r + i) mod ARRAYSIZE <> (r + c) mod ARRAYSIZE.
Proof.
  unfold ARRAYSIZE. intros Hi Hc Heq.
  assert ((c - i) mod 10 = 0) as Hz.
  { replace (c - i) with ((r + c) - (r + i)) by lia.
    rewrite Zminus_mod, Heq, Z.sub_diag. reflexivity. }
  rewrite Z.mod_small in Hz; lia.
Qed.

Lemma hall_ring_next (a b : Z) :
  a mod ARRAYSIZE = b mod ARRAYSIZE ->
  (a + 1) mod ARRAYSIZE = (b mod ARRAYSIZE + 1) mod ARRAYSIZE.
Proof.
  intros H. rewrite <- H. now rewrite Zplus_mod_idemp_l.
Qed.

(** The pending entries of a meter from which the oldest is taken. *)
Lemma Speed_pending_pop (s : Speed.t) (x : Z) :
  Speed_wf s -> 0 < hall_count s ->
  halls s !! Z.to_nat (hall_read_index s) = Some x ->
  Speed_pending s =
    x :: Speed_pending
           (set_prev_hall_ms x
              (set_hall_read_index ((hall_read_index s + 1) mod ARRAYSIZE)
                 (set_hall_count (hall_count s - 1) s))).
Proof.
  intros [Hlen Hw Hr Hc] Hpos Hx. unfold Speed_pending. cbn.
  replace (Z.to_nat (hall_count s)) with (S (Z.to_nat (hall_count s - 1)))
    by lia.
  cbn [seq map]. f_equal.
  - rewrite Z.add_0_r, Z.mod_small by (unfold ARRAYSIZE; lia).
    now rewrite Hx.
  - rewrite <- seq_shift, map_map. apply map_ext. intros i.
    rewrite Zplus_mod_idemp_l. do 3 f_equal. f_equal. lia.
Qed.

(** The loop of [get_avg], entry by entry: it sums the intervals of the
    pending entries from the baseline on, makes the last of them the new
    baseline, and moves the read index past them. *)
Lemma get_avg_loop_pending (fuel : nat) :
  forall (acc : Z) (s : Speed.t),
    Speed_wf s -> hall_count s = Z.of_nat fuel ->
    get_avg_loop fuel acc s =
      (set_prev_hall_ms (newest (prev_hall_ms s) (Speed_pending s))
         (set_hall_read_index
            ((hall_read_index s + hall_count s) mod ARRAYSIZE)
            (set_hall_count 0 s)),
       Ok (acc + interval_sum (prev_hall_ms s) (Speed_pending s))).
Proof.
  induction fuel as [|fuel IH]; intros acc s Hwf Hfuel;
    pose proof Hwf as [Hlen Hw Hr Hc].
  - cbn in Hfuel. cbn [get_avg_loop]. run_monad.
    unfold Speed_pending. rewrite Hfuel. cbn.
    rewrite !Z.add_0_r, Z.mod_small by (unfold ARRAYSIZE; lia).
    destruct s; cbn in *; subst. reflexivity.
  - destruct (array_get_in_range (halls s) (hall_read_index s))
      as (x & Hx & Hget); [rewrite Hlen; lia|].
    set (s1 := set_prev_hall_ms x
                 (set_hall_read_index
                    ((hall_read_index s + 1) mod ARRAYSIZE)
                    (set_hall_count (hall_count s - 1) s))).
    assert (Speed_wf s1) as Hwf1.
    { pose proof (Z.mod_pos_bound (hall_read_index s + 1) 10).
      unfold s1, ARRAYSIZE. split; cbn; lia. }
    rewrite (Speed_pending_pop s x Hwf ltac:(lia) Hx). fold s1.
    cbn [get_avg_loop]. run_monad.
    assert ((hall_count s =? 0) = false) as -> by lia.
    rewrite Hget. fold s1.
    rewrite (IH (acc + ticks_diff x (prev_hall_ms s)) s1 Hwf1)
      by (unfold s1; cbn; lia).
    cbn [interval_sum newest]. unfold s1. cbn.
    rewrite Zplus_mod_idemp_l.
    replace (hall_read_index s + 1 + (hall_count s - 1))
      with (hall_read_index s + hall_count s) by lia.
    f_equal. f_equal. lia.
Qed.

(** An edge that passes the filter while the count is at most
    [ARRAYSIZE] is stored in the slot after the write index. *)
Lemma cb_hall_push (now : Z) (s : Speed.t) :
  Speed_wf s -> Speed_passes s now -> hall_count s <= ARRAYSIZE ->
  let w := (hall_write_index s + 1) mod ARRAYSIZE in
  cb_hall now s =
    (set_hall_count (hall_count s + 1)
       (set_halls (<[Z.to_nat w := now]> (halls s))
          (set_hall_write_index w (set_hall_total (hall_total s + 1) (set_this_hall_ms now s)))), Ok tt).
Proof.
  intros Hwf. pose proof Hwf as [Hlen Hw Hr Hc].
  intros Hpass Hroom w. unfold Speed_passes, Speed_last_stored in Hpass.
  destruct (Z.eqb_spec (hall_write_index s) (-1)) as [He|Hne].
  - rewrite cb_hall_first by assumption. unfold w. rewrite He. reflexivity.
  - destruct (cb_hall_last s Hwf Hne) as (last & Hlook & Hlast).
    rewrite Hlook in Hpass.
    apply (cb_hall_store now last); assumption.
Qed.

Lemma Speed_pending_push (now : Z) (s : Speed.t) :
  Speed_wf s -> Speed_ring s -> hall_count s < ARRAYSIZE ->
  let w := (hall_write_index s + 1) mod ARRAYSIZE in
  Speed_pending
    (set_hall_count (hall_count s + 1)
       (set_halls (<[Z.to_nat w := now]> (halls s))
          (set_hall_write_index w (set_hall_total (hall_total s + 1) (set_this_hall_ms now s)))))
  = Speed_pending s ++ [now].
Proof.
  intros [Hlen Hw Hr Hc] Hring Hroom w. unfold Speed_pending. cbn.
  replace (Z.to_nat (hall_count s + 1)) with (Z.to_nat (hall_count s) + 1)%nat
    by lia.
  rewrite seq_app, map_app. cbn [seq map]. unfold Speed_ring in Hring.
  assert (0 <= w < 10) as Hwr by (apply Z.mod_pos_bound; lia).
  f_equal.
  - apply map_ext_in. intros i Hi. apply in_seq in Hi.
    rewrite list_lookup_insert_ne; [reflexivity|].
    unfold w. rewrite <- Hring. intros Heq.
    apply Z2Nat.inj in Heq;
      try (apply Z.mod_pos_bound; unfold ARRAYSIZE; lia).
    symmetry in Heq. revert Heq. apply hall_ring_slots_differ; lia.
  - rewrite Nat.add_0_l, Z2Nat.id by lia. rewrite Hring. fold w.
    rewrite list_lookup_insert_eq by lia. reflexivity.
Qed.


(** The state [get_avg] leaves, whatever it returns or raises; with
    nothing pending it only counts the empty poll. *)
Lemma get_avg_state (s : Speed.t) :
  Speed_wf s ->
  fst (get_avg s) =
    if hall_count s >? 0 then
      set_prev_hall_ms (newest (prev_hall_ms s) (Speed_pending s))
        (set_hall_read_index
           ((hall_read_index s + hall_count s) mod ARRAYSIZE)
           (set_hall_count 0 s))
    else set_no_halls (no_halls s + 1) s.
Proof.
  intros Hwf. pose proof Hwf as [Hlen Hw Hr Hc].
  unfold get_avg. run_monad.
  destruct (hall_count s >? 0) eqn:Hpos.
  - rewrite (get_avg_loop_pending (Z.to_nat (hall_count s)) 0 s Hwf) by lia.
    unfold truediv.
    destruct (Qeq_bool (of_int (hall_count s)) 0);
      [|destruct (Qeq_bool _ 0); [|destruct (Qeq_bool _ 0)]]; reflexivity.
  - reflexivity.
Qed.

Lemma Speed_step_ring (s : Speed.t) (e : meter_event) :
  Speed_wf s -> Speed_ring s -> Speed_ring (Speed_step s e).
Proof.
  intros Hwf Hring. pose proof Hwf as [Hlen Hw Hr Hc].
  unfold Speed_ring in *. destruct e as [now|]; cbn [Speed_step].
  - destruct (Z.eq_dec (hall_write_index s) (-1)) as [He|Hne].
    { rewrite cb_hall_first by assumption. cbn.
      rewrite Z.add_assoc, (hall_ring_next _ _ Hring), He. reflexivity. }
    destruct (cb_hall_last s Hwf Hne) as (last & _ & Hlast).
    destruct (Z_gt_le_dec (ticks_diff now last) 36) as [Hd|Hd].
    + destruct (Z_le_gt_dec (hall_count s) ARRAYSIZE) as [Hn|Hn].
      * rewrite (cb_hall_store now last) by assumption. cbn.
        rewrite Z.add_assoc. now apply hall_ring_next.
      * rewrite (cb_hall_overflow now last) by (assumption || lia).
        exact Hring.
    + rewrite (cb_hall_bounce now last) by assumption. exact Hring.
  - rewrite (get_avg_state s Hwf).
    destruct (hall_count s >? 0); cbn; [|exact Hring].
    rewrite Z.add_0_r, Z.mod_mod by (unfold ARRAYSIZE; lia). exact Hring.
Qed.

Lemma Speed_run_ring (evs : list meter_event) : Speed_ring (Speed_run d evs).
Proof.
  induction evs as [|e evs IH] using rev_ind; [reflexivity|].
  rewrite Speed_run_snoc. apply Speed_step_ring; [apply Speed_run_wf|exact IH].
Qed.

(** Feeding edges that all pass the filter, with room for them: they
    join the pending entries in their order, and no counter moves. *)
Lemma Speed_feed (ts : list Z) :
  forall s : Speed.t,
    Speed_wf s -> Speed_ring s ->
    hall_count s + Z.of_nat (length ts) <= ARRAYSIZE ->
    spaced_over 36 (Speed_last_stored s) ts = true ->
    let s' := fold_left Speed_step (edges ts) s in
    Speed_wf s' /\ Speed_ring s' /\
    Speed_pending s' = Speed_pending s ++ ts /\
    prev_hall_ms s' = prev_hall_ms s /\
    hall_overflow s' = hall_overflow s /\
    hall_disqualified s' = hall_disqualified s.
Proof.
  induction ts as [|t ts IH]; intros s Hwf Hring Hroom Hsp; cbn zeta.
  - cbn. rewrite app_nil_r. auto 10.
  - cbn [length] in Hroom. cbn [spaced_over] in Hsp.
    apply andb_true_iff in Hsp as [Hpass Hrest].
    pose proof Hwf as [Hlen Hw Hr Hc].
    assert (Speed_passes s t) as Hp.
    { unfold Speed_passes. destruct (Speed_last_stored s); [lia|exact I]. }
    cbn [edges map fold_left]. fold (edges ts).
    destruct (Speed_step_wf s (Edge t) Hwf) as [Hwf1 _].
    pose proof (Speed_step_ring s (Edge t) Hwf Hring) as Hring1.
    cbn [Speed_step] in *.
    rewrite (cb_hall_push t s Hwf Hp) in * by lia. cbn [fst] in *.
    set (w := (hall_write_index s + 1) mod ARRAYSIZE) in *.
    assert (0 <= w < 10) as Hwr by (apply Z.mod_pos_bound; lia).
    specialize (IH _ Hwf1 Hring1).
    destruct IH as (Hwf' & Hring' & Hpend & Hprev & Hov & Hdq).
    + cbn. lia.
    + unfold Speed_last_stored. cbn.
      assert ((w =? -1) = false) as -> by lia.
      rewrite list_lookup_insert_eq by lia. exact Hrest.
    + split; [exact Hwf'|]. split; [exact Hring'|].
      rewrite Hpend, Hprev, Hov, Hdq. subst w.
      rewrite (Speed_pending_push t s Hwf Hring) by lia.
      rewrite <- app_assoc. auto.
Qed.

(** With every slot holding a pending entry, an edge that passes the
    filter is still stored: over the oldest pending entry, which the
    consumer then reads as the newest, first and last. *)
Lemma Speed_pending_overwrite (now : Z) (s : Speed.t) :
  Speed_wf s -> Speed_ring s -> hall_count s = ARRAYSIZE ->
  let w := (hall_write_index s + 1) mod ARRAYSIZE in
  Speed_pending
    (set_hall_count (hall_count s + 1)
       (set_halls (<[Z.to_nat w := now]> (halls s))
          (set_hall_write_index w (set_hall_total (hall_total s + 1) (set_this_hall_ms now s)))))
  = now :: drop 1 (Speed_pending s) ++ [now].
Proof.
  intros [Hlen Hw Hr Hc] Hring Hfull w. unfold Speed_pending. cbn.
  unfold Speed_ring in Hring. rewrite Hfull in *. unfold ARRAYSIZE in *.
  assert (w = hall_read_index s) as Hwr.
  { unfold w. rewrite <- Hring.
    rewrite <- (Z.mul_1_l 10) at 1. rewrite Z_mod_plus_full.
    apply Z.mod_small. lia. }
  rewrite Hwr.
  change (Z.to_nat (10 + 1)) with 11%nat. change (Z.to_nat 10) with 10%nat.
  change (seq 0 11) with (0%nat :: seq 1 9 ++ [10%nat]).
  change (seq 0 10) with (0%nat :: seq 1 9).
  cbn [map drop]. rewrite map_app. cbn [map].
  rewrite Z.add_0_r, Z.mod_small by lia.
  change (Z.of_nat 10) with (1 * 10).
  rewrite Z_mod_plus_full, Z.mod_small by lia.
  rewrite list_lookup_insert_eq by lia. cbn [default].
  f_equal. f_equal.
  apply map_ext_in. intros i Hi. apply in_seq in Hi.
  rewrite list_lookup_insert_ne; [reflexivity|].
  intros Heq. apply Z2Nat.inj in Heq;
    [|lia|apply Z.mod_pos_bound; lia].
  revert Heq.
  rewrite <- (Z.mod_small (hall_read_index s) 10) at 1 by lia.
  rewrite <- (Z.add_0_r (hall_read_index s)) at 1.
  apply hall_ring_slots_differ; unfold ARRAYSIZE; lia.
Qed.

End SpeedRing.

(** ** The rate meters: further properties *)

(** Splits on the way an edge at [now] takes through the handler, from a
    well-formed state [s], and rewrites the call accordingly. *)
Ltac rpm_edge_cases s now Hwf :=
  let He := fresh "He" in
  let last := fresh "stored" in
  let Hlook := fresh "Hlook" in
  let Hlast := fresh "Hlast" in
  let Hd := fresh "Hd" in
  let Hn := fresh "Hn" in
  destruct (Z.eq_dec (Rpm.spark_write_index s) (-1)) as [He|He];
  [ rewrite (cb_spark_first now s Hwf He) in *
  | destruct (cb_spark_last s Hwf He) as (last & Hlook & Hlast);
    destruct (Z_gt_le_dec (ticks_diff now last) 4) as [Hd|Hd];
    [ destruct (Z_le_gt_dec (Rpm.spark_count s) Rpm.ARRAYSIZE) as [Hn|Hn];
      [ rewrite (cb_spark_store now last s Hwf He Hlast Hd Hn) in *
      | rewrite (cb_spark_overflow now last s He Hlast Hd (Z.gt_lt _ _ Hn))
          in * ]
    | rewrite (cb_spark_bounce now last s He Hlast Hd) in * ] ].

Ltac speed_edge_cases s now Hwf :=
  let He := fresh "He" in
  let last := fresh "stored" in
  let Hlook := fresh "Hlook" in
  let Hlast := fresh "Hlast" in
  let Hd := fresh "Hd" in
  let Hn := fresh "Hn" in
  destruct (Z.eq_dec (Speed.hall_write_index s) (-1)) as [He|He];
  [ rewrite (cb_hall_first now s Hwf He) in *
  | destruct (cb_hall_last s Hwf He) as (last & Hlook & Hlast);
    destruct (Z_gt_le_dec (ticks_diff now last) 36) as [Hd|Hd];
    [ destruct (Z_le_gt_dec (Speed.hall_count s) Speed.ARRAYSIZE) as [Hn|Hn];
      [ rewrite (cb_hall_store now last s Hwf He Hlast Hd Hn) in *
      | rewrite (cb_hall_overflow now last s He Hlast Hd (Z.gt_lt _ _ Hn))
          in * ]
    | rewrite (cb_hall_bounce now last s He Hlast Hd) in * ] ].

Section MeterExtras.

(** Across a wrap of the tick counter the difference is still the number
    of ticks that passed, up to half the period. *)
Lemma ticks_diff_wrap (t d : Z) :
  - TICKS_HALF <= d < TICKS_HALF ->
  ticks_diff ((t + d) mod TICKS_PERIOD) t = d.
Proof.
  intros Hd. unfold ticks_diff.
  replace ((t + d) mod TICKS_PERIOD - t + TICKS_HALF)
    with ((t + d) mod TICKS_PERIOD + (TICKS_HALF - t)) by lia.
  rewrite Zplus_mod_idemp_l.
  replace (t + d + (TICKS_HALF - t)) with (d + TICKS_HALF) by lia.
  rewrite Z.mod_small; [lia|].
  change TICKS_HALF with 536870912 in *.
  change TICKS_PERIOD with 1073741824. lia.
Qed.

(** X1.  Whatever edges and drains came before, the interrupt handlers
    return: no subscript is out of range, nothing is raised. *)
Theorem handlers_never_raise (d : Z) (evs : list meter_event) (now : Z) :
  snd (Rpm.cb_spark now (Rpm_run evs)) = Ok tt /\
  snd (Speed.cb_hall now (Speed_run d evs)) = Ok tt.
Proof.
  destruct (Rpm_run_wf evs) as [Hr _].
  destruct (Speed_run_wf d evs) as [Hh _].
  destruct (cb_spark_wf now _ Hr) as (r' & -> & _).
  destruct (cb_hall_wf now _ Hh) as (h' & -> & _).
  split; reflexivity.
Qed.

(** X2.  Whatever edges and drains came before, [avg] and [get_avg] end:
    they return a number or raise [ZeroDivisionError], nothing else.
    Either way the buffer is left empty, and the entries, the write index
    and the counters of the handler are as they were. *)
Theorem averages_end_with_empty_buffer (d : Z) (evs : list meter_event) :
  let r := Rpm_run evs in
  let h := Speed_run d evs in
  let r' := fst (Rpm.avg r) in
  let h' := fst (Speed.get_avg h) in
  ((snd (Rpm.avg r) = Raise ZeroDivisionError \/
    exists q, snd (Rpm.avg r) = Ok q) /\
   Rpm.spark_count r' = 0 /\ Rpm.sparks r' = Rpm.sparks r /\
   Rpm.spark_write_index r' = Rpm.spark_write_index r /\
   Rpm.spark_overflow r' = Rpm.spark_overflow r /\
   Rpm.spark_disqualified r' = Rpm.spark_disqualified r) /\
  ((snd (Speed.get_avg h) = Raise ZeroDivisionError \/
    exists q, snd (Speed.get_avg h) = Ok q) /\
   Speed.hall_count h' = 0 /\ Speed.halls h' = Speed.halls h /\
   Speed.hall_write_index h' = Speed.hall_write_index h /\
   Speed.hall_overflow h' = Speed.hall_overflow h /\
   Speed.hall_disqualified h' = Speed.hall_disqualified h /\
   Speed.hall_total h' = Speed.hall_total h).
Proof.
  cbn zeta.
  destruct (Rpm_run_wf evs) as [Hr _].
  destruct (Speed_run_wf d evs) as [Hh _].
  pose proof Hh as [_ _ _ Hc].
  split.
  - destruct (avg_outcome _ Hr) as (r' & res & Heq & Hres & _).
    rewrite (avg_state _ Hr). rewrite Heq. cbn. auto 10.
  - destruct (get_avg_outcome _ Hh) as (h' & res & Heq & Hres & _).
    rewrite (get_avg_state _ Hh). rewrite Heq.
    destruct (Speed.hall_count (Speed_run d evs) >? 0) eqn:Hpos; cbn;
      repeat split; auto; lia.
Qed.

(** X3.  The pending count is never negative and never more than one
    over the number of slots. *)
Theorem pending_count_bounds (d : Z) (evs : list meter_event) :
  0 <= Rpm.spark_count (Rpm_run evs) <= Rpm.ARRAYSIZE + 1 /\
  0 <= Speed.hall_count (Speed_run d evs) <= Speed.ARRAYSIZE + 1.
Proof.
  split; [apply Rpm_run_count|apply Speed_run_count].
Qed.

(** X4.  Producer and consumer stay in step on the ring: the slot after
    the pending entries is the slot after the write index; so a drain
    leaves the read index on the slot the next edge is written to. *)
Theorem read_index_follows_write_index (d : Z) (evs : list meter_event) :
  let r := Rpm_run evs in
  let h := Speed_run d evs in
  ((Rpm.spark_read_index r + Rpm.spark_count r) mod Rpm.ARRAYSIZE
   = (Rpm.spark_write_index r + 1) mod Rpm.ARRAYSIZE /\
   Rpm.spark_read_index (Rpm_step r Drain)
   = (Rpm.spark_write_index r + 1) mod Rpm.ARRAYSIZE) /\
  ((Speed.hall_read_index h + Speed.hall_count h) mod Speed.ARRAYSIZE
   = (Speed.hall_write_index h + 1) mod Speed.ARRAYSIZE /\
   Speed.hall_read_index (Speed_step h Drain)
   = (Speed.hall_write_index h + 1) mod Speed.ARRAYSIZE).
Proof.
  cbn zeta.
  destruct (Rpm_run_wf evs) as [Hr _].
  destruct (Speed_run_wf d evs) as [Hh _].
  pose proof (Rpm_run_ring evs) as Rr.
  pose proof (Speed_run_ring d evs) as Rh.
  pose proof (Rpm_step_ring _ Drain Hr Rr) as Rr'.
  pose proof (Speed_step_ring _ Drain Hh Rh) as Rh'.
  destruct (Rpm_step_wf _ Drain Hr) as [[_ _ Hrr _] Hrw].
  destruct (Speed_step_wf _ Drain Hh) as [[_ _ Hhr _] Hhw].
  destruct (avg_outcome _ Hr) as (r' & res & Heq & _ & _ & _ & Hr0).
  destruct (get_avg_outcome _ Hh) as (h' & res' & Heq' & _ & _ & _ & Hh0).
  unfold Rpm_ring, Speed_ring in *. cbn [Rpm_step Speed_step] in *.
  rewrite Heq in *. rewrite Heq' in *. cbn [fst] in *.
  rewrite Hr0, Hrw in Rr'. rewrite Hh0, Hhw in Rh'.
  rewrite Z.add_0_r, Z.mod_small in Rr' by (unfold Rpm.ARRAYSIZE; lia).
  rewrite Z.add_0_r, Z.mod_small in Rh' by (unfold Speed.ARRAYSIZE; lia).
  auto.
Qed.

Lemma Rpm_run_app (evs evs' : list meter_event) :
  Rpm_run (evs ++ evs') = fold_left Rpm_step evs' (Rpm_run evs).
Proof. unfold Rpm_run. apply fold_left_app. Qed.

Lemma Speed_run_app (d : Z) (evs evs' : list meter_event) :
  Speed_run d (evs ++ evs') = fold_left Speed_step evs' (Speed_run d evs).
Proof. unfold Speed_run. apply fold_left_app. Qed.

(** X5.  On either meter, after any run of its own: edges that each
    come more than the bounce threshold after the last stored one, while
    there is room for them, are all stored: they join
    the pending entries in the order they came, no counter moves, and the
    next drain sums the wrap-safe intervals of the pending entries, one
    after the other from the baseline on, and makes the last of them the
    new baseline. *)
Theorem stored_edges_are_drained_in_order
    (d : Z) (evs evs' : list meter_event) (ts us : list Z) :
  let r := Rpm_run evs in
  let h := Speed_run d evs' in
  Rpm.spark_count r + Z.of_nat (length ts) <= Rpm.ARRAYSIZE ->
  spaced_over 4 (Rpm_last_stored r) ts = true ->
  Speed.hall_count h + Z.of_nat (length us) <= Speed.ARRAYSIZE ->
  spaced_over 36 (Speed_last_stored h) us = true ->
  let r' := Rpm_run (evs ++ edges ts) in
  let h' := Speed_run d (evs' ++ edges us) in
  (Rpm_pending r' = Rpm_pending r ++ ts /\
   Rpm.spark_overflow r' = Rpm.spark_overflow r /\
   Rpm.spark_disqualified r' = Rpm.spark_disqualified r /\
   snd (Rpm.avg_loop (Z.to_nat (Rpm.spark_count r')) 0 r')
   = Ok (interval_sum (Rpm.prev_spark_ms r) (Rpm_pending r ++ ts)) /\
   Rpm.prev_spark_ms (fst (Rpm.avg r'))
   = newest (Rpm.prev_spark_ms r) (Rpm_pending r ++ ts)) /\
  (Speed_pending h' = Speed_pending h ++ us /\
   Speed.hall_overflow h' = Speed.hall_overflow h /\
   Speed.hall_disqualified h' = Speed.hall_disqualified h /\
   snd (Speed.get_avg_loop (Z.to_nat (Speed.hall_count h')) 0 h')
   = Ok (interval_sum (Speed.prev_hall_ms h) (Speed_pending h ++ us)) /\
   Speed.prev_hall_ms (fst (Speed.get_avg h'))
   = newest (Speed.prev_hall_ms h) (Speed_pending h ++ us)).
Proof.
  intros r h Hroom Hts Hroom' Hus r' h'.
  destruct (Rpm_run_wf evs) as [Hr _].
  destruct (Speed_run_wf d evs') as [Hh _].
  destruct (Rpm_feed ts r Hr (Rpm_run_ring evs) Hroom Hts)
    as (Hwf & _ & Hpend & Hprev & Hov & Hdq).
  destruct (Speed_feed us h Hh (Speed_run_ring d evs') Hroom' Hus)
    as (Hwf' & _ & Hpend' & Hprev' & Hov' & Hdq').
  unfold r', h'. rewrite Rpm_run_app, Speed_run_app. fold r h.
  split.
  - split; [exact Hpend|]. split; [exact Hov|]. split; [exact Hdq|].
    pose proof Hwf as [_ _ _ Hc].
    rewrite (avg_loop_pending _ 0 _ Hwf) by lia.
    rewrite (avg_state _ Hwf). cbn. rewrite Hpend, Hprev. auto.
  - split; [exact Hpend'|]. split; [exact Hov'|]. split; [exact Hdq'|].
    pose proof Hwf' as [_ _ _ Hc].
    rewrite (get_avg_loop_pending _ 0 _ Hwf') by lia.
    split; [cbn; now rewrite Hpend', Hprev'|].
    rewrite (get_avg_state _ Hwf'). rewrite <- Hpend', <- Hprev'.
    destruct (Speed.hall_count (fold_left Speed_step (edges us) h) >? 0)
      eqn:Hpos; [reflexivity|].
    assert (Speed.hall_count (fold_left Speed_step (edges us) h) = 0)
      as Hz by lia.
    unfold Speed_pending. rewrite Hz. reflexivity.
Qed.

(** X5 on new meters: four sparks 20 ms apart, two hall ticks 100 ms
    apart. *)
Lemma stored_edges_are_drained_in_order_witness :
  let r' := Rpm_run (edges [0; 20; 40; 60]) in
  let h' := Speed_run 298 (edges [100; 200]) in
  Rpm_pending r' = [0; 20; 40; 60] /\
  snd (Rpm.avg_loop (Z.to_nat (Rpm.spark_count r')) 0 r') = Ok 60 /\
  Speed_pending h' = [100; 200] /\
  snd (Speed.get_avg_loop (Z.to_nat (Speed.hall_count h')) 0 h') = Ok 200.
Proof.
  cbn zeta.
  destruct (stored_edges_are_drained_in_order 298 [] [] [0; 20; 40; 60]
              [100; 200])
    as [(Hp & _ & _ & Hsum & _) (Hp' & _ & _ & Hsum' & _)].
  - vm_compute. discriminate.
  - reflexivity.
  - vm_compute. discriminate.
  - reflexivity.
  - repeat split; assumption.
Defined.

(** The float format has no part in the state a run reaches, nor in
    whether an average raises. *)
Lemma Rpm_run_format (f1 f2 : Format) (evs : list meter_event) :
  Rpm_run (fmt := f1) evs = Rpm_run (fmt := f2) evs /\
  (snd (Rpm.avg (fmt := f1) (Rpm_run (fmt := f1) evs))
   = Raise ZeroDivisionError <->
   snd (Rpm.avg (fmt := f2) (Rpm_run (fmt := f2) evs))
   = Raise ZeroDivisionError).
Proof.
  assert (Rpm_run (fmt := f1) evs = Rpm_run (fmt := f2) evs) as Hrun.
  { induction evs as [|e evs IH] using rev_ind; [reflexivity|].
    rewrite !Rpm_run_snoc, <- IH.
    destruct e as [now|]; cbn [Rpm_step]; [reflexivity|].
    destruct (Rpm_run_wf (fmt := f1) evs) as [Hwf _].
    now rewrite !(avg_state _ Hwf). }
  split; [exact Hrun|]. rewrite <- Hrun.
  destruct (Rpm_run_wf (fmt := f1) evs) as [Hwf _].
  set (r := Rpm_run evs) in *. pose proof Hwf as [_ _ _ Hc].
  destruct (Z.eq_dec (Rpm.spark_count r) 0) as [Hz|Hnz].
  - rewrite !(avg_empty r Hz). reflexivity.
  - assert (0 < Rpm.spark_count r) as Hpos by lia.
    assert (Rpm.spark_count r
            = Z.of_nat (Z.to_nat (Rpm.spark_count r))) as Hfuel by lia.
    pose proof (avg_loop_pending _ 0 r Hwf Hfuel) as Hloop.
    rewrite !(avg_after_loop r _ _ Hpos Hloop). cbn [snd].
    destruct (_ =? 0); split; congruence.
Qed.

Lemma Speed_run_format (f1 f2 : Format) (d : Z) (evs : list meter_event) :
  Speed_run (fmt := f1) d evs = Speed_run (fmt := f2) d evs /\
  (snd (Speed.get_avg (fmt := f1) (Speed_run (fmt := f1) d evs))
   = Raise ZeroDivisionError <->
   snd (Speed.get_avg (fmt := f2) (Speed_run (fmt := f2) d evs))
   = Raise ZeroDivisionError).
Proof.
  assert (Speed_run (fmt := f1) d evs = Speed_run (fmt := f2) d evs)
    as Hrun.
  { induction evs as [|e evs IH] using rev_ind; [reflexivity|].
    rewrite !Speed_run_snoc, <- IH.
    destruct e as [now|]; cbn [Speed_step]; [reflexivity|].
    destruct (Speed_run_wf (fmt := f1) d evs) as [Hwf _].
    now rewrite !(get_avg_state _ Hwf). }
  split; [exact Hrun|]. rewrite <- Hrun.
  destruct (Speed_run_wf (fmt := f1) d evs) as [Hwf _].
  set (h := Speed_run d evs) in *. pose proof Hwf as [_ _ _ Hc].
  destruct (Z.eq_dec (Speed.hall_count h) 0) as [Hz|Hnz].
  - rewrite !(get_avg_empty h Hz). reflexivity.
  - assert (0 < Speed.hall_count h) as Hpos by lia.
    assert (Speed.hall_count h
            = Z.of_nat (Z.to_nat (Speed.hall_count h))) as Hfuel by lia.
    pose proof (get_avg_loop_pending _ 0 h Hwf Hfuel) as Hloop.
    rewrite !(get_avg_after_loop h _ _ Hpos Hloop). cbn [snd].
    destruct (_ =? 0); split; congruence.
Qed.

(** The distance per tick stays what the object was constructed with. *)
Lemma Speed_run_dist {fmt : Format} (d : Z) (evs : list meter_event) :
  Speed.dist (Speed_run d evs) = d.
Proof.
  induction evs as [|e evs IH] using rev_ind; [reflexivity|].
  rewrite Speed_run_snoc.
  destruct (Speed_run_wf d evs) as [Hwf _].
  destruct e as [now|]; cbn [Speed_step].
  - speed_edge_cases (Speed_run d evs) now Hwf; exact IH.
  - rewrite (get_avg_state _ Hwf).
    destruct (_ >? 0); exact IH.
Qed.

(** X6.  What the averages are, in any float format of [p >= 15] bits,
    each meter after its own run: with [n] entries pending and [total]
    the sum of their intervals from the baseline on, [avg] returns 0 for
    [n = 0], raises [ZeroDivisionError] for [total = 0], and otherwise
    returns [60000 * n * n / total] up to its four roundings: the
    relative error is at most [5 * 2^-p].  [get_avg] likewise, with
    [n * n * dist * 10 / (36 * total)], five roundings and [6 * 2^-p];
    the distance per tick is taken under 2^64 mm, where the exponent
    range of no format comes into play. *)
Theorem averages_within_rounding
    (fmt : Format) (d : Z) (evs evs' : list meter_event) :
  let r := Rpm_run evs in
  let h := Speed_run d evs' in
  let n := Rpm.spark_count r in
  let total := interval_sum (Rpm.prev_spark_ms r) (Rpm_pending r) in
  let m := Speed.hall_count h in
  let total' := interval_sum (Speed.prev_hall_ms h) (Speed_pending h) in
  let rate := (inject_Z (60000 * n * n) / inject_Z total)%Q in
  let speed := (inject_Z (m * m * d * 10) / inject_Z (36 * total'))%Q in
  let eps := (2 ^ (- Zpos mant_dig))%Q in
  15 <= Zpos mant_dig -> Z.abs d < 2 ^ 64 ->
  (n = 0 /\ snd (Rpm.avg r) = Ok 0%Q \/
   0 < n /\ total = 0 /\ snd (Rpm.avg r) = Raise ZeroDivisionError \/
   0 < n /\ total <> 0 /\
   exists q, snd (Rpm.avg r) = Ok q /\
             (Qabs (q - rate) <= 5 * eps * Qabs rate)%Q) /\
  (m = 0 /\ snd (Speed.get_avg h) = Ok 0%Q \/
   0 < m /\ total' = 0 /\ snd (Speed.get_avg h) = Raise ZeroDivisionError \/
   0 < m /\ total' <> 0 /\
   exists q, snd (Speed.get_avg h) = Ok q /\
             (Qabs (q - speed) <= 6 * eps * Qabs speed)%Q).
Proof.
  intros r h n total m total' rate speed eps Hp _.
  destruct (Rpm_run_wf evs) as [Hr _].
  destruct (Speed_run_wf d evs') as [Hh _].
  destruct (Rpm_run_count evs) as [_ Hn].
  destruct (Speed_run_count d evs') as [_ Hm].
  fold r in Hr, Hn. fold h in Hh, Hm. fold n in Hn. fold m in Hm.
  unfold Rpm.ARRAYSIZE in Hn. unfold Speed.ARRAYSIZE in Hm.
  split.
  - destruct (Z.eq_dec n 0) as [Hz|Hnz].
    { left. split; [exact Hz|]. now rewrite (avg_empty r Hz). }
    right.
    assert (0 < n) as Hpos by lia.
    assert (n = Z.of_nat (Z.to_nat n)) as Hfuel by lia.
    pose proof (avg_loop_pending (Z.to_nat n) 0 r Hr Hfuel) as Hloop.
    rewrite Z.add_0_l in Hloop. fold total in Hloop.
    rewrite (avg_after_loop r _ total Hpos Hloop). fold n. cbn [snd].
    destruct (Z.eqb_spec total 0) as [Ht|Ht];
      [left; split; [lia|auto]|].
    right. split; [lia|]. split; [exact Ht|].
    eexists. split; [reflexivity|].
    apply rpm_within_rounding; [exact Hp | lia | exact Ht].
  - destruct (Z.eq_dec m 0) as [Hz|Hnz].
    { left. split; [exact Hz|]. now rewrite (get_avg_empty h Hz). }
    right.
    assert (0 < m) as Hpos by lia.
    assert (m = Z.of_nat (Z.to_nat m)) as Hfuel by lia.
    pose proof (get_avg_loop_pending (Z.to_nat m) 0 h Hh Hfuel) as Hloop.
    rewrite Z.add_0_l in Hloop. fold total' in Hloop.
    rewrite (get_avg_after_loop h _ total' Hpos Hloop). fold m. cbn [snd].
    destruct (Z.eqb_spec total' 0) as [Ht|Ht];
      [left; split; [lia|auto]|].
    right. split; [lia|]. split; [exact Ht|].
    eexists. split; [reflexivity|].
    cbn [Speed.dist Speed.set_prev_hall_ms Speed.set_hall_read_index
         Speed.set_hall_count].
    pose proof (Speed_run_dist d evs') as Hdist. fold h in Hdist.
    rewrite Hdist.
    apply speed_within_rounding; [exact Hp | lia | exact Ht].
Qed.

(** X6 in double precision: three sparks after 100, 120 and 140 ms,
    three hall ticks after 100, 200 and 300 ms on a wheel of 298 mm per
    tick. *)
Lemma averages_within_rounding_witness :
  15 <= Zpos (mant_dig (Format := binary64)) /\ Z.abs 298 < 2 ^ 64 /\
  (exists q,
      snd (Rpm.avg (Rpm_run (edges [100; 120; 140]))) = Ok q /\
      (Qabs (q - inject_Z (60000 * 3 * 3) / inject_Z 140)
       <= 5 * 2 ^ (- 53) * Qabs (inject_Z (60000 * 3 * 3) / inject_Z 140))%Q)
  /\
  (exists q,
      snd (Speed.get_avg (Speed_run 298 (edges [100; 200; 300]))) = Ok q /\
      (Qabs (q - inject_Z (3 * 3 * 298 * 10) / inject_Z (36 * 300))
       <= 6 * 2 ^ (- 53)
          * Qabs (inject_Z (3 * 3 * 298 * 10) / inject_Z (36 * 300)))%Q).
Proof.
  assert (15 <= Zpos (mant_dig (Format := binary64))) as Hp
    by (vm_compute; discriminate).
  assert (Z.abs 298 < 2 ^ 64) as Hd by (vm_compute; reflexivity).
  split; [exact Hp|]. split; [exact Hd|].
  destruct (averages_within_rounding binary64 298
              (edges [100; 120; 140]) (edges [100; 200; 300]) Hp Hd)
    as [[[Hn _]|[(_ & Ht & _)|(_ & _ & Hq)]]
        [[Hm _]|[(_ & Ht' & _)|(_ & _ & Hq')]]];
    try (vm_compute in Hn; discriminate);
    try (vm_compute in Hm; discriminate);
    try (vm_compute in Ht; discriminate);
    try (vm_compute in Ht'; discriminate).
  split; [exact Hq | exact Hq'].
Defined.

(** X7.  The sum of intervals a drain computes is, modulo the period of
    the tick counter, the distance from the old baseline to the new one.
    Entries in between do not show in it, nor does an entry that was
    overwritten before it was read. *)
Theorem drain_sum_is_baseline_distance (d : Z) (evs : list meter_event) :
  let r := Rpm_run evs in
  let h := Speed_run d evs in
  (exists total,
      snd (Rpm.avg_loop (Z.to_nat (Rpm.spark_count r)) 0 r) = Ok total /\
      (total - (Rpm.prev_spark_ms (fst (Rpm.avg r)) - Rpm.prev_spark_ms r))
        mod TICKS_PERIOD = 0) /\
  (exists total,
      snd (Speed.get_avg_loop (Z.to_nat (Speed.hall_count h)) 0 h) = Ok total /\
      (total - (Speed.prev_hall_ms (fst (Speed.get_avg h))
                - Speed.prev_hall_ms h))
        mod TICKS_PERIOD = 0).
Proof.
  intros r h.
  destruct (Rpm_run_wf evs) as [Hr _].
  destruct (Speed_run_wf d evs) as [Hh _].
  fold r in Hr. fold h in Hh.
  pose proof Hr as [_ _ _ Hn]. pose proof Hh as [_ _ _ Hm].
  split; eexists.
  - rewrite (avg_loop_pending _ 0 r Hr) by lia.
    split; [reflexivity|]. rewrite (avg_state r Hr). cbn.
    apply interval_sum_mod.
  - rewrite (get_avg_loop_pending _ 0 h Hh) by lia.
    split; [reflexivity|]. rewrite (get_avg_state h Hh).
    destruct (Speed.hall_count h >? 0) eqn:Hpos; cbn.
    + apply interval_sum_mod.
    + assert (Speed.hall_count h = 0) as Hz by lia.
      unfold Speed_pending. rewrite Hz. cbn.
      rewrite Z.sub_diag. reflexivity.
Qed.

(** X8.  Asked again with no edge in between, the meters answer 0 and
    raise nothing: [avg] changes nothing, [get_avg] counts the empty
    poll in [no_halls]. *)
Theorem second_poll_returns_zero (d : Z) (evs : list meter_event) :
  let r := Rpm_run (evs ++ [Drain]) in
  let h := Speed_run d (evs ++ [Drain]) in
  Rpm.avg r = (r, Ok 0%Q) /\
  Speed.get_avg h = (Speed.set_no_halls (Speed.no_halls h + 1) h, Ok 0%Q).
Proof.
  intros r h. unfold r, h. rewrite Rpm_run_snoc, Speed_run_snoc.
  destruct (Rpm_run_wf evs) as [Hr _].
  destruct (Speed_run_wf d evs) as [Hh _].
  destruct (avg_outcome _ Hr) as (r' & res & Heq & _ & _ & _ & Hr0).
  destruct (get_avg_outcome _ Hh) as (h' & res' & Heq' & _ & _ & _ & Hh0).
  cbn [Rpm_step Speed_step]. rewrite Heq, Heq'. cbn [fst].
  unfold Rpm.avg, Speed.get_avg. run_monad. rewrite Hr0, Hh0.
  split; reflexivity.
Qed.

Lemma Rpm_last_stored_get (s : Rpm.t) (t : Z) :
  Rpm_wf s -> Rpm_last_stored s = Some t ->
  Rpm.spark_write_index s <> -1 /\
  array_get (Rpm.sparks s) (Rpm.spark_write_index s) = Ok t.
Proof.
  intros Hwf. unfold Rpm_last_stored.
  destruct (Z.eqb_spec (Rpm.spark_write_index s) (-1)) as [He|Hne];
    [discriminate|].
  intros Hlook. split; [exact Hne|].
  destruct (cb_spark_last s Hwf Hne) as (last & Hlook' & Hget).
  congruence.
Qed.

Lemma Speed_last_stored_get (s : Speed.t) (t : Z) :
  Speed_wf s -> Speed_last_stored s = Some t ->
  Speed.hall_write_index s <> -1 /\
  array_get (Speed.halls s) (Speed.hall_write_index s) = Ok t.
Proof.
  intros Hwf. unfold Speed_last_stored.
  destruct (Z.eqb_spec (Speed.hall_write_index s) (-1)) as [He|Hne];
    [discriminate|].
  intros Hlook. split; [exact Hne|].
  destruct (cb_hall_last s Hwf Hne) as (last & Hlook' & Hget).
  congruence.
Qed.

(** X9.  On either meter, after any run of its own, the tick counter
    may wrap between two edges: an edge that comes [delta] ticks after
    the last stored one, [delta] under half the period, is judged by
    [delta] alone.  With room in the buffer it is
    stored when [delta] is over the bounce threshold and disqualified
    otherwise. *)
Theorem edge_after_wrap_is_judged_by_elapsed_ticks
    (d : Z) (evs evs' : list meter_event) (t delta u delta' : Z) :
  let r := Rpm_run evs in
  let h := Speed_run d evs' in
  Rpm_last_stored r = Some t -> 0 <= delta < TICKS_HALF ->
  Rpm.spark_count r <= Rpm.ARRAYSIZE ->
  Speed_last_stored h = Some u -> 0 <= delta' < TICKS_HALF ->
  Speed.hall_count h <= Speed.ARRAYSIZE ->
  let now := (t + delta) mod TICKS_PERIOD in
  let now' := (u + delta') mod TICKS_PERIOD in
  let r' := Rpm_step r (Edge now) in
  let h' := Speed_step h (Edge now') in
  (if delta >? 4
   then Rpm.spark_count r' = Rpm.spark_count r + 1 /\
        Rpm_last_stored r' = Some now /\
        Rpm.spark_disqualified r' = Rpm.spark_disqualified r
   else Rpm.spark_count r' = Rpm.spark_count r /\
        Rpm_last_stored r' = Some t /\
        Rpm.spark_disqualified r' = Rpm.spark_disqualified r + 1) /\
  (if delta' >? 36
   then Speed.hall_count h' = Speed.hall_count h + 1 /\
        Speed_last_stored h' = Some now' /\
        Speed.hall_disqualified h' = Speed.hall_disqualified h
   else Speed.hall_count h' = Speed.hall_count h /\
        Speed_last_stored h' = Some u /\
        Speed.hall_disqualified h' = Speed.hall_disqualified h + 1).
Proof.
  intros r h Ht Hdelta Hroom Hu Hdelta' Hroom' now now' r' h'.
  destruct (Rpm_run_wf evs) as [Hr _].
  destruct (Speed_run_wf d evs') as [Hh _].
  fold r in Hr. fold h in Hh.
  destruct (Rpm_last_stored_get r t Hr Ht) as [Hw Hget].
  destruct (Speed_last_stored_get h u Hh Hu) as [Hw' Hget'].
  assert (ticks_diff now t = delta) as Hdiff
    by (apply ticks_diff_wrap; lia).
  assert (ticks_diff now' u = delta') as Hdiff'
    by (apply ticks_diff_wrap; lia).
  pose proof Hr as [Hlen Hwr _ _]. pose proof Hh as [Hlen' Hwr' _ _].
  unfold r', h'. cbn [Rpm_step Speed_step].
  split.
  - destruct (delta >? 4) eqn:Hover.
    + rewrite (cb_spark_store now t r Hr Hw Hget) by lia. cbn.
      split; [reflexivity|]. split; [|reflexivity].
      unfold Rpm_last_stored. cbn.
      pose proof (Z.mod_pos_bound (Rpm.spark_write_index r + 1) 20).
      unfold Rpm.ARRAYSIZE.
      assert (((Rpm.spark_write_index r + 1) mod 20 =? -1) = false)
        as -> by lia.
      apply list_lookup_insert_eq. lia.
    + rewrite (cb_spark_bounce now t r Hw Hget) by lia. cbn.
      split; [reflexivity|]. split; [exact Ht|reflexivity].
  - destruct (delta' >? 36) eqn:Hover.
    + rewrite (cb_hall_store now' u h Hh Hw' Hget') by lia. cbn.
      split; [reflexivity|]. split; [|reflexivity].
      unfold Speed_last_stored. cbn.
      pose proof (Z.mod_pos_bound (Speed.hall_write_index h + 1) 10).
      unfold Speed.ARRAYSIZE.
      assert (((Speed.hall_write_index h + 1) mod 10 =? -1) = false)
        as -> by lia.
      apply list_lookup_insert_eq. lia.
    + rewrite (cb_hall_bounce now' u h Hw' Hget') by lia. cbn.
      split; [reflexivity|]. split; [exact Hu|reflexivity].
Qed.

(** X9 three ticks before the wrap: the next spark, 10 ticks later, comes
    at tick 7 and is stored; the next hall tick, 30 ticks later, comes at
    tick 27 and is disqualified. *)
Lemma edge_after_wrap_is_judged_by_elapsed_ticks_witness :
  let r := Rpm_run [Edge (TICKS_PERIOD - 3)] in
  let h := Speed_run 298 [Edge (TICKS_PERIOD - 3)] in
  (TICKS_PERIOD - 3 + 10) mod TICKS_PERIOD = 7 /\
  (TICKS_PERIOD - 3 + 30) mod TICKS_PERIOD = 27 /\
  Rpm.spark_count (Rpm_step r (Edge 7)) = 2 /\
  Speed.hall_count (Speed_step h (Edge 27)) = 1 /\
  Speed.hall_disqualified (Speed_step h (Edge 27)) = 1.
Proof.
  cbn zeta. split; [reflexivity|]. split; [reflexivity|].
  destruct (edge_after_wrap_is_judged_by_elapsed_ticks
              298 [Edge (TICKS_PERIOD - 3)] [Edge (TICKS_PERIOD - 3)]
              (TICKS_PERIOD - 3) 10 (TICKS_PERIOD - 3) 30)
    as [(Hc & _) (Hc' & _ & Hd')].
  - reflexivity.
  - vm_compute. split; [discriminate|reflexivity].
  - vm_compute. discriminate.
  - reflexivity.
  - vm_compute. split; [discriminate|reflexivity].
  - vm_compute. discriminate.
  - split; [exact Hc|]. split; [exact Hc'|exact Hd'].
Defined.

(** X10.  An edge does one of three things.  It is stored, and then it
    is the last stored entry and one more is pending; or it passes the
    bounce filter with [ARRAYSIZE + 1] entries pending and is dropped into
    the overflow counter; or it fails the filter and is dropped into the
    disqualified counter.  A dropped edge leaves the entries, both indices,
    the pending count and the baseline as they were. *)
Theorem edge_is_stored_or_dropped
    (d : Z) (evs : list meter_event) (now : Z) :
  let r := Rpm_run evs in
  let r' := Rpm_step r (Edge now) in
  let h := Speed_run d evs in
  let h' := Speed_step h (Edge now) in
  (Rpm.spark_count r' = Rpm.spark_count r + 1 /\
   Rpm_last_stored r' = Some now /\
   Rpm.spark_overflow r' = Rpm.spark_overflow r /\
   Rpm.spark_disqualified r' = Rpm.spark_disqualified r
   \/
   r' = Rpm.set_spark_overflow (Rpm.spark_overflow r + 1)
          (Rpm.set_this_spark_ms now r) /\
   Rpm.spark_count r = Rpm.ARRAYSIZE + 1
   \/
   r' = Rpm.set_spark_disqualified (Rpm.spark_disqualified r + 1)
          (Rpm.set_this_spark_ms now r) /\
   exists last, Rpm_last_stored r = Some last /\ ticks_diff now last <= 4)
  /\
  (Speed.hall_count h' = Speed.hall_count h + 1 /\
   Speed_last_stored h' = Some now /\
   Speed.hall_overflow h' = Speed.hall_overflow h /\
   Speed.hall_disqualified h' = Speed.hall_disqualified h /\
   Speed.hall_total h' = Speed.hall_total h + 1
   \/
   h' = Speed.set_hall_overflow (Speed.hall_overflow h + 1)
          (Speed.set_hall_total (Speed.hall_total h + 1)
             (Speed.set_this_hall_ms now h)) /\
   Speed.hall_count h = Speed.ARRAYSIZE + 1
   \/
   h' = Speed.set_hall_disqualified (Speed.hall_disqualified h + 1)
          (Speed.set_this_hall_ms now h) /\
   exists last, Speed_last_stored h = Some last /\ ticks_diff now last <= 36).
Proof.
  intros r r' h h'.
  destruct (Rpm_run_wf evs) as [Hr _].
  destruct (Speed_run_wf d evs) as [Hh _].
  destruct (Rpm_run_count evs) as [_ [_ Hrc]].
  destruct (Speed_run_count d evs) as [_ [_ Hhc]].
  fold r in Hr, Hrc. fold h in Hh, Hhc.
  pose proof Hr as [Hlen Hwr _ _]. pose proof Hh as [Hlen' Hwr' _ _].
  unfold r', h'. cbn [Rpm_step Speed_step].
  split.
  - rpm_edge_cases r now Hr; cbn [fst].
    + left. cbn. repeat split.
      unfold Rpm_last_stored. cbn. apply list_lookup_insert_eq. lia.
    + left. cbn. repeat split.
      unfold Rpm_last_stored. cbn.
      pose proof (Z.mod_pos_bound (Rpm.spark_write_index r + 1) 20).
      unfold Rpm.ARRAYSIZE.
      assert (((Rpm.spark_write_index r + 1) mod 20 =? -1) = false)
        as -> by lia.
      apply list_lookup_insert_eq. lia.
    + right. left. split; [reflexivity|lia].
    + right. right. split; [reflexivity|]. exists stored.
      split; [|exact Hd]. unfold Rpm_last_stored.
      assert ((Rpm.spark_write_index r =? -1) = false) as -> by lia.
      exact Hlook.
  - speed_edge_cases h now Hh; cbn [fst].
    + left. cbn. repeat split.
      unfold Speed_last_stored. cbn. apply list_lookup_insert_eq. lia.
    + left. cbn. repeat split.
      unfold Speed_last_stored. cbn.
      pose proof (Z.mod_pos_bound (Speed.hall_write_index h + 1) 10).
      unfold Speed.ARRAYSIZE.
      assert (((Speed.hall_write_index h + 1) mod 10 =? -1) = false)
        as -> by lia.
      apply list_lookup_insert_eq. lia.
    + right. left. split; [reflexivity|lia].
    + right. right. split.
      * unfold Speed.set_hall_disqualified, Speed.set_hall_total,
          Speed.set_this_hall_ms. cbn. f_equal. lia.
      * exists stored. split; [|exact Hd]. unfold Speed_last_stored.
        assert ((Speed.hall_write_index h =? -1) = false) as -> by lia.
        exact Hlook.
Qed.

Lemma Rpm_edge_counted (s : Rpm.t) (now : Z) :
  Rpm_wf s ->
  let s' := Rpm_step s (Edge now) in
  Rpm.spark_count s' + Rpm.spark_overflow s' + Rpm.spark_disqualified s'
  = Rpm.spark_count s + Rpm.spark_overflow s + Rpm.spark_disqualified s + 1.
Proof.
  intros Hwf. cbn [Rpm_step].
  rpm_edge_cases s now Hwf; cbn; lia.
Qed.

Lemma Speed_edge_counted (s : Speed.t) (now : Z) :
  Speed_wf s ->
  let s' := Speed_step s (Edge now) in
  Speed.hall_count s' + Speed.hall_overflow s' + Speed.hall_disqualified s'
  = Speed.hall_count s + Speed.hall_overflow s + Speed.hall_disqualified s + 1
  /\
  Speed.hall_total s' + Speed.hall_disqualified s'
  = Speed.hall_total s + Speed.hall_disqualified s + 1.
Proof.
  intros Hwf. cbn [Speed_step].
  speed_edge_cases s now Hwf; cbn; lia.
Qed.

(** X11.  Every edge is accounted for.  On [Speed], [hall_total] and
    [hall_disqualified] add up to the number of edges delivered, drains or
    not.  Between drains, on both meters, the pending count and the two
    drop counters add up to the number of edges delivered to a new
    meter. *)
Theorem edges_are_accounted_for
    (d : Z) (evs : list meter_event) (ts : list Z) :
  let h := Speed_run d evs in
  let r1 := Rpm_run (edges ts) in
  let h1 := Speed_run d (edges ts) in
  Speed.hall_total h + Speed.hall_disqualified h
  = Z.of_nat (length (List.filter is_edge evs)) /\
  Rpm.spark_count r1 + Rpm.spark_overflow r1 + Rpm.spark_disqualified r1
  = Z.of_nat (length ts) /\
  Speed.hall_count h1 + Speed.hall_overflow h1 + Speed.hall_disqualified h1
  = Z.of_nat (length ts).
Proof.
  cbn zeta. split; [|split].
  - induction evs as [|e evs IH] using rev_ind; [reflexivity|].
    rewrite Speed_run_snoc, List.filter_app, length_app.
    destruct (Speed_run_wf d evs) as [Hwf _].
    destruct e as [now|]; cbn [List.filter is_edge length].
    + destruct (Speed_edge_counted _ now Hwf) as [_ Hsum]. lia.
    + cbn [Speed_step]. rewrite (get_avg_state _ Hwf).
      destruct (_ >? 0); cbn; lia.
  - induction ts as [|t ts IH] using rev_ind; [reflexivity|].
    unfold edges. rewrite map_app. fold (edges ts). cbn [map].
    rewrite Rpm_run_snoc, length_app.
    destruct (Rpm_run_wf (edges ts)) as [Hwf _].
    pose proof (Rpm_edge_counted _ t Hwf) as Hsum. cbn zeta in Hsum.
    cbn [length]. lia.
  - induction ts as [|t ts IH] using rev_ind; [reflexivity|].
    unfold edges. rewrite map_app. fold (edges ts). cbn [map].
    rewrite Speed_run_snoc, length_app.
    destruct (Speed_run_wf d (edges ts)) as [Hwf _].
    destruct (Speed_edge_counted _ t Hwf) as [Hsum _]. cbn zeta in Hsum.
    cbn [length]. lia.
Qed.

(** X12.  With every slot holding a pending entry, an edge that passes
    the bounce filter is stored all the same, and not counted as an
    overflow: it takes the slot of the oldest pending entry, which is
    lost, and the consumer will read the new time in its place and again
    as the newest entry. *)
Theorem full_buffer_overwrites_oldest
    (d : Z) (evs evs' : list meter_event) (now now' : Z) :
  let r := Rpm_run evs in
  let h := Speed_run d evs' in
  Rpm.spark_count r = Rpm.ARRAYSIZE -> Rpm_passes r now ->
  Speed.hall_count h = Speed.ARRAYSIZE -> Speed_passes h now' ->
  let r' := Rpm_step r (Edge now) in
  let h' := Speed_step h (Edge now') in
  (Rpm.spark_count r' = Rpm.ARRAYSIZE + 1 /\
   Rpm.spark_overflow r' = Rpm.spark_overflow r /\
   Rpm_pending r' = now :: drop 1 (Rpm_pending r) ++ [now]) /\
  (Speed.hall_count h' = Speed.ARRAYSIZE + 1 /\
   Speed.hall_overflow h' = Speed.hall_overflow h /\
   Speed_pending h' = now' :: drop 1 (Speed_pending h) ++ [now']).
Proof.
  intros r h Hfull Hpass Hfull' Hpass' r' h'.
  destruct (Rpm_run_wf evs) as [Hr _].
  destruct (Speed_run_wf d evs') as [Hh _].
  pose proof (Rpm_run_ring evs) as Rr.
  pose proof (Speed_run_ring d evs') as Rh.
  fold r in Hr, Rr. fold h in Hh, Rh.
  unfold r', h'. cbn [Rpm_step Speed_step].
  rewrite (cb_spark_push now r Hr Hpass) by lia.
  rewrite (cb_hall_push now' h Hh Hpass') by lia.
  cbn [fst].
  rewrite (Rpm_pending_overwrite now r Hr Rr Hfull).
  rewrite (Speed_pending_overwrite now' h Hh Rh Hfull').
  cbn. rewrite Hfull, Hfull'. auto 10.
Qed.

(** X12 after 20 sparks 10 ms apart and after 10 hall ticks 40 ms apart,
    none drained: the next edge replaces the first. *)
Lemma full_buffer_overwrites_oldest_witness :
  let r := Rpm_run (edges (spaced 10 20)) in
  let h := Speed_run 298 (edges (spaced 40 10)) in
  Rpm.spark_count r = 20 /\ Speed.hall_count h = 10 /\
  Rpm_pending (Rpm_step r (Edge 210))
  = 210 :: drop 1 (Rpm_pending r) ++ [210] /\
  Speed_pending (Speed_step h (Edge 440))
  = 440 :: drop 1 (Speed_pending h) ++ [440].
Proof.
  cbn zeta. split; [reflexivity|]. split; [reflexivity|].
  destruct (full_buffer_overwrites_oldest
              298 (edges (spaced 10 20)) (edges (spaced 40 10)) 210 440)
    as [(_ & _ & Hp) (_ & _ & Hp')].
  - reflexivity.
  - vm_compute. reflexivity.
  - reflexivity.
  - vm_compute. reflexivity.
  - split; assumption.
Defined.

End MeterExtras.

(** ** The button: further properties *)

Section ButtonExtras.
Import Button.

Lemma Button_run_snoc (evs : list button_event) (e : button_event) :
  Button_run (evs ++ [e]) = Button_step (Button_run evs) e.
Proof. unfold Button_run. now rewrite fold_left_app. Qed.

Lemma Button_run_app (evs evs' : list button_event) :
  Button_run (evs ++ evs') = fold_left Button_step evs' (Button_run evs).
Proof. unfold Button_run. apply fold_left_app. Qed.

Lemma Button_step_inv (s : Button.t) (e : button_event) :
  Button_inv s -> Button_inv (Button_step s e).
Proof.
  intros [Hd Hs Hone Hsl Hc Hl].
  destruct s as [sl pt c dt wb wm st pv]. cbn in *.
  destruct e as [now|v|v|]; cbn [Button_step].
  - unfold cb_button. run_monad.
    destruct wb, wm; cbn in *; subst; try discriminate;
      split; cbn; auto.
  - cbn. destruct wb; subst; cbn; [|split; cbn; auto].
    unfold cb_button_debounce. run_monad.
    destruct wm; [discriminate|].
    destruct (v =? BUTTON_DOWN); cbn; split; cbn; auto; lia.
  - cbn. destruct wm; subst; cbn; [|split; cbn; auto].
    unfold cb_button_series. run_monad.
    destruct wb; [discriminate|].
    destruct (v =? BUTTON_DOWN); cbn.
    + destruct (pv =? BUTTON_UP); cbn; split; cbn; auto; lia.
    + destruct (pv =? BUTTON_DOWN); cbn; split; cbn; auto; lia.
  - unfold pressed. run_monad.
    destruct wm; cbn; split; cbn; auto; lia.
Qed.

Lemma Button_run_inv (evs : list button_event) : Button_inv (Button_run evs).
Proof.
  induction evs as [|e evs IH] using rev_ind.
  - split; cbn; auto. lia.
  - rewrite Button_run_snoc. now apply Button_step_inv.
Qed.

(** X13.  Whatever presses, timeouts, ticks and polls came before: each
    flag is up exactly while its timer is armed, and at most one is; the
    loop is told to poll every 50 ms exactly while a flag is up and every
    300 ms otherwise; the press count is never negative, and at least 1
    while a burst is counted. *)
Theorem button_flags_follow_timers (evs : list button_event) :
  let s := Button_run evs in
  button_debounce_timer s =
    (if button_waiting_bounce s
     then Armed BUTTON_BOUNCE_DELAY_MS ONE_SHOT Cb_button_debounce
     else Stopped) /\
  button_series_click_timer s =
    (if button_waiting_more_clicks s
     then Armed BUTTON_SERIES_PRESS_DELAY_MS PERIODIC Cb_button_series
     else Stopped) /\
  button_waiting_bounce s && button_waiting_more_clicks s = false /\
  main_loop_sleep s =
    (if button_waiting_bounce s || button_waiting_more_clicks s
     then BUTTON_CHECK_SLEEP else NORMAL_SLEEP) /\
  (if button_waiting_more_clicks s then 1 else 0) <= button_press_count s.
Proof.
  cbn zeta. destruct (Button_run_inv evs) as [Hd Hs Hone Hsl Hc _]. auto.
Qed.

(** X14.  [pressed] answers -1 only as the sentinel: it returns -1,
    changing nothing, while the burst timer is armed, and otherwise a
    count that is not negative, which it hands out once: the next poll
    finds 0. *)
Theorem poll_returns_sentinel_or_count (evs : list button_event) :
  let s := Button_run evs in
  button_series_click_timer s
  = Armed BUTTON_SERIES_PRESS_DELAY_MS PERIODIC Cb_button_series /\
  pressed s = (s, Ok (-1))
  \/
  button_series_click_timer s = Stopped /\
  0 <= button_press_count s /\
  pressed s = (set_button_press_count 0 s, Ok (button_press_count s)) /\
  snd (pressed (Button_step s Poll)) = Ok 0.
Proof.
  cbn zeta. destruct (Button_run_inv evs) as [_ Hs _ _ Hc _].
  rewrite Hs. cbn [Button_step]. unfold pressed. run_monad.
  destruct (button_waiting_more_clicks (Button_run evs)) eqn:Hwm; cbn.
  - left. auto.
  - right. rewrite Hwm. cbn. auto.
Qed.

(** While the burst timer is stopped its ticks are not delivered. *)
Lemma ticks_after_burst (vs : list Z) (s : Button.t) :
  button_series_click_timer s = Stopped ->
  fold_left Button_step (map Series_tick vs) s = s.
Proof.
  intros Hst. induction vs as [|v vs IH]; [reflexivity|].
  cbn [map fold_left Button_step]. rewrite Hst. exact IH.
Qed.

(** The samples of a burst, from a state in which it is counted. *)
Lemma ticks_in_burst (vs : list Z) :
  forall s : Button.t,
    Button_inv s -> button_waiting_more_clicks s = true ->
    let down := button_series_click_prev_value s =? BUTTON_DOWN in
    let s' := fold_left Button_step (map Series_tick vs) s in
    button_waiting_more_clicks s' = negb (burst_ended down vs) /\
    button_press_count s' = button_press_count s + burst_rises down vs.
Proof.
  induction vs as [|v vs IH]; intros s Hinv Hwm; cbn zeta.
  - cbn. split; [exact Hwm|lia].
  - pose proof (Button_step_inv s (Series_tick v) Hinv) as Hinv1.
    pose proof Hinv as [_ Hs _ _ _ Hl].
    cbn [map fold_left burst_ended burst_rises].
    cbn [Button_step] in *. rewrite Hs, Hwm in *.
    unfold cb_button_series in *. run_monad.
    destruct (v =? BUTTON_DOWN) eqn:Hv.
    + destruct Hl as [Hl|Hl]; rewrite Hl in *; cbn in *;
        (destruct (IH _ Hinv1 Hwm) as [H1 H2]; cbn in H1, H2;
         rewrite H1, H2; split; [reflexivity|lia]).
    + destruct Hl as [Hl|Hl]; rewrite Hl in *; cbn in *.
      * destruct (IH _ Hinv1 Hwm) as [H1 H2]. cbn in H1, H2.
        rewrite H1, H2. split; [reflexivity|lia].
      * rewrite ticks_after_burst by reflexivity. cbn.
        split; [reflexivity|lia].
Qed.

(** X15.  A gesture, from a detector at rest: the press edge, the
    debounce timeout that finds the button down, then the samples of the
    burst timer.  Once two samples in a row have found the button up,
    [pressed] returns 1 plus the number of samples that found it down
    after one that found it up; until then it returns -1. *)
Theorem gesture_counts_presses
    (evs : list button_event) (now : Z) (vs : list Z) :
  let s := Button_run evs in
  button_waiting_bounce s = false ->
  button_waiting_more_clicks s = false ->
  snd (pressed
         (Button_run
            (evs ++ [Press now; Debounce_timeout BUTTON_DOWN]
                 ++ map Series_tick vs)))
  = Ok (if burst_ended true vs then 1 + burst_rises true vs else -1).
Proof.
  intros s Hwb Hwm. rewrite !Button_run_app. fold s.
  pose proof (Button_run_inv evs) as Hinv. fold s in Hinv.
  set (s1 := fold_left Button_step
               [Press now; Debounce_timeout BUTTON_DOWN] s).
  assert (Button_inv s1) as Hinv1
    by (unfold s1; cbn [fold_left]; now do 2 apply Button_step_inv).
  assert (button_waiting_more_clicks s1 = true /\
          button_series_click_prev_value s1 = BUTTON_DOWN /\
          button_press_count s1 = 1) as (Hwm1 & Hprev1 & Hc1).
  { unfold s1. cbn [fold_left Button_step].
    unfold cb_button. run_monad. rewrite Hwb, Hwm. cbn. auto. }
  destruct (ticks_in_burst vs s1 Hinv1 Hwm1) as [Hflag Hcount].
  rewrite Hprev1 in Hflag, Hcount. cbn [Z.eqb BUTTON_DOWN] in Hflag, Hcount.
  unfold pressed. run_monad. rewrite Hflag, Hcount, Hc1.
  destruct (burst_ended true vs); reflexivity.
Qed.

(** X15 on a new detector: three clicks. *)
Lemma gesture_counts_presses_witness :
  snd (pressed
         (Button_run
            ([] ++ [Press 0; Debounce_timeout BUTTON_DOWN]
                ++ map Series_tick
                     [BUTTON_UP; BUTTON_DOWN; BUTTON_UP; BUTTON_DOWN;
                      BUTTON_UP; BUTTON_UP])))
  = Ok 3.
Proof.
  apply (gesture_counts_presses []
           0 [BUTTON_UP; BUTTON_DOWN; BUTTON_UP; BUTTON_DOWN;
              BUTTON_UP; BUTTON_UP]);
    reflexivity.
Defined.

(** X16.  A bounce: the press edge is followed by a debounce timeout
    that does not find the button down.  The detector is back at rest,
    and nothing but the recorded time of the edge has changed: no press
    is counted. *)
Theorem bounce_counts_nothing
    (evs : list button_event) (now value : Z) :
  let s := Button_run evs in
  button_waiting_bounce s = false ->
  button_waiting_more_clicks s = false ->
  value <> BUTTON_DOWN ->
  Button_run (evs ++ [Press now; Debounce_timeout value])
  = set_button_press_time_ms now s.
Proof.
  intros s Hwb Hwm Hv. rewrite Button_run_app. fold s.
  destruct (Button_run_inv evs) as [Hd Hs _ Hsl _ _]. fold s in Hd, Hs, Hsl.
  cbn [fold_left Button_step]. unfold cb_button. run_monad.
  rewrite Hwb, Hwm in *. cbn.
  unfold cb_button_debounce. run_monad.
  apply Z.eqb_neq in Hv. rewrite Hv. cbn.
  destruct s; cbn in *; subst. reflexivity.
Qed.

(** X16 on a new detector, the pin reading up at the timeout. *)
Lemma bounce_counts_nothing_witness :
  Button_run ([] ++ [Press 5; Debounce_timeout BUTTON_UP])
  = set_button_press_time_ms 5 Button.__init__.
Proof.
  apply (bounce_counts_nothing [] 5 BUTTON_UP);
    [reflexivity|reflexivity|discriminate].
Defined.

(** X17.  While a burst is counted, press edges are ignored and no
    debounce timeout is due: only the samples of the burst timer move the
    detector. *)
Theorem burst_ignores_presses
    (evs : list button_event) (now value : Z) :
  let s := Button_run evs in
  button_waiting_more_clicks s = true ->
  Button_step s (Press now) = s /\
  Button_step s (Debounce_timeout value) = s /\
  Button_step s Poll = s.
Proof.
  intros s Hwm.
  destruct (Button_run_inv evs) as [Hd _ Hone _ _ _]. fold s in Hd, Hone.
  rewrite Hwm, andb_true_r in Hone. rewrite Hone in Hd.
  cbn [Button_step]. rewrite Hd.
  unfold cb_button, pressed. run_monad. rewrite Hwm, Hone. cbn. auto.
Qed.

(** X17 after a confirmed press. *)
Lemma burst_ignores_presses_witness :
  let s := Button_run [Press 0; Debounce_timeout BUTTON_DOWN] in
  button_waiting_more_clicks s = true /\
  Button_step s (Press 9) = s /\
  Button_step s (Debounce_timeout BUTTON_DOWN) = s /\
  Button_step s Poll = s.
Proof.
  cbn zeta. split; [reflexivity|].
  apply (burst_ignores_presses
           [Press 0; Debounce_timeout BUTTON_DOWN] 9 BUTTON_DOWN).
  reflexivity.
Defined.

End ButtonExtras.

(** ** The limiter: further properties *)

Section LimiterThresholds.
Import Limiter.

(** Where a rate stands among the four rate thresholds, and a speed among
    the four speed thresholds: the comparisons of a pass take one of five
    patterns each. *)
Lemma rate_cases (rpm : Q) :
  let lo := Qltb rpm (inject_Z LIMIT_RPM_LOW) in
  let under := Qltb rpm (inject_Z LIMP_RPM_LOW) in
  let over := Qltb (inject_Z LIMIT_RPM_HIGH) rpm in
  let top := Qltb (inject_Z LIMP_RPM_HIGH) rpm in
  (lo, under, over, top) = (true, true, false, false) \/
  (lo, under, over, top) = (false, true, false, false) \/
  (lo, under, over, top) = (false, true, true, false) \/
  (lo, under, over, top) = (false, false, true, false) \/
  (lo, under, over, top) = (false, false, true, true).
Proof.
  cbn zeta.
  destruct (Qltb rpm (inject_Z LIMIT_RPM_LOW)) eqn:E1;
    [apply Qltb_lt in E1|apply Qltb_ge in E1];
  (destruct (Qltb rpm (inject_Z LIMP_RPM_LOW)) eqn:E2;
    [apply Qltb_lt in E2|apply Qltb_ge in E2]);
  (destruct (Qltb (inject_Z LIMIT_RPM_HIGH) rpm) eqn:E3;
    [apply Qltb_lt in E3|apply Qltb_ge in E3]);
  (destruct (Qltb (inject_Z LIMP_RPM_HIGH) rpm) eqn:E4;
    [apply Qltb_lt in E4|apply Qltb_ge in E4]);
  unfold LIMIT_RPM_LOW, LIMP_RPM_LOW, LIMIT_RPM_HIGH, LIMP_RPM_HIGH,
    inject_Z in *;
  try (exfalso; lra); tauto.
Qed.

Lemma speed_cases (kmh : Q) :
  let lo := Qltb kmh (inject_Z LIMIT_SPEED_LOW) in
  let under := Qltb kmh (inject_Z LIMP_SPEED_LOW) in
  let over := Qltb (inject_Z LIMIT_SPEED_HIGH) kmh in
  let top := Qltb (inject_Z LIMP_SPEED_HIGH) kmh in
  (lo, under, over, top) = (true, true, false, false) \/
  (lo, under, over, top) = (false, true, false, false) \/
  (lo, under, over, top) = (false, true, true, false) \/
  (lo, under, over, top) = (false, false, true, false) \/
  (lo, under, over, top) = (false, false, true, true).
Proof.
  cbn zeta.
  destruct (Qltb kmh (inject_Z LIMIT_SPEED_LOW)) eqn:E1;
    [apply Qltb_lt in E1|apply Qltb_ge in E1];
  (destruct (Qltb kmh (inject_Z LIMP_SPEED_LOW)) eqn:E2;
    [apply Qltb_lt in E2|apply Qltb_ge in E2]);
  (destruct (Qltb (inject_Z LIMIT_SPEED_HIGH) kmh) eqn:E3;
    [apply Qltb_lt in E3|apply Qltb_ge in E3]);
  (destruct (Qltb (inject_Z LIMP_SPEED_HIGH) kmh) eqn:E4;
    [apply Qltb_lt in E4|apply Qltb_ge in E4]);
  unfold LIMIT_SPEED_LOW, LIMP_SPEED_LOW, LIMIT_SPEED_HIGH, LIMP_SPEED_HIGH,
    inject_Z in *;
  try (exfalso; lra); tauto.
Qed.

End LimiterThresholds.

(** Splits on where the readings stand among the thresholds, and computes
    the passes of the goal in each case. *)
Ltac limiter_cases rpm kmh :=
  let H := fresh "H" in
  let K := fresh "K" in
  pose proof (rate_cases rpm) as H; cbn zeta in H;
  pose proof (speed_cases kmh) as K; cbn zeta in K;
  destruct H as [H|[H|[H|[H|H]]]]; injection H as ? ? ? ?;
  destruct K as [K|[K|[K|[K|K]]]]; injection K as ? ? ? ?.

Ltac limiter_compute :=
  unfold Show.evaluate, Show.first_statement, Show.second_statement,
    Limiter.get_mode, Limiter.free, Limiter.limp, Limiter.limit,
    Limiter.ign_off, Limiter.ign_freq, Limiter.ign_duty, Limiter.ign_deinit,
    Qgtb;
  unfold mbind, M_bind, bind, modify, get, lift, ret, raise, call_bound;
  repeat match goal with
         | E : Qltb ?a ?b = _ |- context [Qltb ?a ?b] => rewrite E
         end;
  cbn.

Section LimiterExtras.
Import Limiter.

(** The three states of the limiter of [show]. *)
Lemma evaluate_three_states (l : Limiter.t) (rpm kmh : Q) :
  l = show_limiter \/ l = limiter_limited \/ l = limiter_limp ->
  exists l',
    Show.evaluate rpm kmh l = (l', Ok tt) /\
    (l' = show_limiter \/ l' = limiter_limited \/ l' = limiter_limp).
Proof.
  intros [->|[->| ->]]; limiter_cases rpm kmh; limiter_compute;
    eexists; (split; [reflexivity|]); auto.
Qed.

Lemma show_passes_three_states (rs : list (Q * Q)) :
  forall l : Limiter.t,
    l = show_limiter \/ l = limiter_limited \/ l = limiter_limp ->
    exists l' ms,
      show_passes rs l = (l', Ok ms) /\
      (l' = show_limiter \/ l' = limiter_limited \/ l' = limiter_limp) /\
      length ms = length rs /\
      Forall (fun m => m = UNLIMITED \/ m = LIMITED \/ m = LIMP) ms.
Proof.
  induction rs as [|[rpm kmh] rs IH]; intros l Hl.
  - exists l, []. cbn. auto.
  - destruct (evaluate_three_states l rpm kmh Hl) as (l1 & Hev & Hl1).
    destruct (IH l1 Hl1) as (l' & ms & Hrun & Hl' & Hlen & Hms).
    exists l', (mode l1 :: ms).
    rewrite (show_passes_cons _ _ _ _ _ Hev), Hrun.
    split; [reflexivity|]. split; [exact Hl'|].
    split; [cbn; now rewrite Hlen|].
    constructor; [|exact Hms].
    destruct Hl1 as [->|[->| ->]]; cbn; auto.
Qed.

Lemma limiter_after_three_states (readings : list (Q * Q)) :
  let l := limiter_after readings in
  l = show_limiter \/ l = limiter_limited \/ l = limiter_limp.
Proof.
  cbn zeta. unfold limiter_after.
  destruct (show_passes_three_states readings show_limiter)
    as (l' & ms & -> & Hl' & _); auto.
Qed.

(** X18.  Whatever the readings, pass after pass: the mode update raises
    nothing (the output object always has the method that is called on
    it), and the limiter is in one of three states: the plain pin driven
    low in UNLIMITED mode, the PWM at [FREQ] with duty [LIMIT_DUTY] in
    LIMITED mode, with duty [LIMP_DUTY] in LIMP mode. *)
Theorem limiter_has_three_states (readings : list (Q * Q)) :
  exists (l : Limiter.t) (ms : list Z),
    show_passes readings show_limiter = (l, Ok ms) /\
    length ms = length readings /\
    Forall (fun m => m = UNLIMITED \/ m = LIMITED \/ m = LIMP) ms /\
    (l = show_limiter \/ l = limiter_limited \/ l = limiter_limp).
Proof.
  destruct (show_passes_three_states readings show_limiter)
    as (l' & ms & Hrun & Hl' & Hlen & Hms); [auto|].
  exists l', ms. auto.
Qed.

(** X19.  With the readings held, the limiter settles within two passes:
    a third pass over the same readings changes nothing, and no fourth. *)
Theorem held_readings_settle_in_two_passes
    (readings : list (Q * Q)) (rpm kmh : Q) :
  let l := limiter_after readings in
  let l2 := fst (Show.evaluate rpm kmh (fst (Show.evaluate rpm kmh l))) in
  Show.evaluate rpm kmh l2 = (l2, Ok tt).
Proof.
  cbn zeta.
  destruct (limiter_after_three_states readings) as [->|[->| ->]];
    limiter_cases rpm kmh; limiter_compute; reflexivity.
Qed.

(** X20.  A pass moves the mode one step at most, and for cause: from
    UNLIMITED to LIMITED with a reading over its limit, from LIMITED to
    UNLIMITED with both readings under their low limits, from LIMITED to
    LIMP with a reading over its limp limit, from LIMP to LIMITED with
    both readings under their limp-low limits.  Otherwise it changes
    nothing.  No pass goes from UNLIMITED to LIMP or from LIMP to
    UNLIMITED. *)
Theorem pass_moves_mode_one_step
    (readings : list (Q * Q)) (rpm kmh : Q) :
  let l := limiter_after readings in
  let l' := fst (Show.evaluate rpm kmh l) in
  l' = l \/
  l = show_limiter /\ l' = limiter_limited /\
    (inject_Z LIMIT_RPM_HIGH < rpm \/ inject_Z LIMIT_SPEED_HIGH < kmh)%Q \/
  l = limiter_limited /\ l' = show_limiter /\
    (rpm < inject_Z LIMIT_RPM_LOW /\ kmh < inject_Z LIMIT_SPEED_LOW)%Q \/
  l = limiter_limited /\ l' = limiter_limp /\
    (inject_Z LIMP_RPM_HIGH < rpm \/ inject_Z LIMP_SPEED_HIGH < kmh)%Q \/
  l = limiter_limp /\ l' = limiter_limited /\
    (rpm < inject_Z LIMP_RPM_LOW /\ kmh < inject_Z LIMP_SPEED_LOW)%Q.
Proof.
  cbn zeta.
  destruct (limiter_after_three_states readings) as [->|[->| ->]];
    limiter_cases rpm kmh;
    repeat match goal with
           | E : Qltb _ _ = true |- _ => pose proof (proj1 (Qltb_lt _ _) E); revert E
           end; intros;
    limiter_compute;
    first
      [ left; reflexivity
      | right; left; split; [reflexivity|split; [reflexivity|tauto]]
      | right; right; left; split; [reflexivity|split; [reflexivity|tauto]]
      | right; right; right; left;
        split; [reflexivity|split; [reflexivity|tauto]]
      | right; right; right; right;
        split; [reflexivity|split; [reflexivity|tauto]] ].
Qed.

(** X21.  From any state the limiter of [show] gets into, each method
    brings it to the state of its mode and raises nothing; called in the
    mode it sets, it changes nothing. *)
Theorem methods_reach_their_state (readings : list (Q * Q)) :
  let l := limiter_after readings in
  limit l = (limiter_limited, Ok tt) /\
  limp l = (limiter_limp, Ok tt) /\
  free l = (show_limiter, Ok tt).
Proof.
  cbn zeta.
  destruct (limiter_after_three_states readings) as [->|[->| ->]];
    repeat split; reflexivity.
Qed.

(** X22.  A limiter constructed on another pin: [limit] from UNLIMITED
    mode puts the PWM on the pin of the limiter, [limp] from UNLIMITED
    mode puts it on pin 15, whatever that pin is; [free] then drives the
    pin of the limiter again. *)
Theorem limp_drives_pin_15 (p : Z) :
  exists l : Limiter.t,
    Limiter.__init__ p None = Ok l /\
    ign l = Pin p (Some 0) /\
    ign (fst (limit l)) = PWM p (Some FREQ) (Some LIMIT_DUTY) true /\
    ign (fst (limp l)) = PWM 15 (Some FREQ) (Some LIMP_DUTY) true /\
    ign (fst (free (fst (limp l)))) = Pin p (Some 0).
Proof.
  eexists. split; [reflexivity|]. repeat split; reflexivity.
Qed.

End LimiterExtras.

(** ** The loop of [show] *)

Section LoopFacts.
Import Loop.

Lemma safe_ret {A} (a : A) : Loop_safe (ret a : M Loop.t A).
Proof. intros s Hinv. cbn. eauto. Qed.

Lemma safe_bind {A B} (m : M Loop.t A) (k : A -> M Loop.t B) :
  Loop_safe m -> (forall a, Loop_safe (k a)) -> Loop_safe (m ≫= k).
Proof.
  intros Hm Hk s Hinv. unfold mbind, M_bind, bind.
  destruct (Hm s Hinv) as [Hinv1 Hres].
  destruct (m s) as [s1 [a|e|]]; cbn in *.
  - apply Hk. exact Hinv1.
  - destruct Hres as [Hres|[a Ha]]; [|discriminate].
    injection Hres as ->. auto.
  - destruct Hres as [Hres|[a Ha]]; discriminate.
Qed.

Lemma safe_modify (f : Loop.t -> Loop.t) :
  (forall s, Loop_inv s -> Loop_inv (f s)) -> Loop_safe (modify f).
Proof. intros Hf s Hinv. cbn. eauto. Qed.

Lemma safe_emit (o : output) : output_ok o -> Loop_safe (emit o).
Proof.
  intros Ho. apply safe_modify. intros s [Hr Hs Hb Hl Hlog].
  split; cbn; auto. apply Forall_app. auto.
Qed.

Lemma irq_step_inv (s : Loop.t) (e : irq) :
  Loop_inv s -> Loop_inv (irq_step s e).
Proof.
  intros [Hr Hs Hb Hl Hlog]. destruct e as [now|now|e]; cbn.
  - split; cbn; auto. now apply (Rpm_step_wf _ (Edge now)).
  - split; cbn; auto. now apply (Speed_step_wf _ (Edge now)).
  - destruct (is_poll e); split; cbn; auto. now apply Button_step_inv.
Qed.

Lemma safe_irqs (es : list irq) : Loop_safe (irqs es).
Proof.
  apply safe_modify. induction es as [|e es IH]; intros s Hinv; cbn.
  - exact Hinv.
  - apply IH. now apply irq_step_inv.
Qed.

Lemma safe_get_mode : Loop_safe (on_limiter (call_bound 1 0 Limiter.get_mode)).
Proof.
  intros s [Hr Hs Hb Hl Hlog]. cbn. split; [|eauto].
  destruct s; split; cbn in *; auto.
Qed.

Lemma safe_pressed : Loop_safe (on_button (call_bound 1 0 Button.pressed)).
Proof.
  intros s [Hr Hs Hb Hl Hlog]. unfold on_button, call_bound. cbn [Nat.eqb].
  pose proof (Button_step_inv _ Poll Hb) as Hb'. cbn [Button_step] in Hb'.
  unfold Button.pressed in *. run_monad.
  destruct (Button.button_waiting_more_clicks (button s)); cbn in *;
    (split; [split; cbn; auto|eauto]).
Qed.

Lemma safe_avg : Loop_safe (on_rpm (call_bound 1 0 Rpm.avg)).
Proof.
  intros s [Hr Hs Hb Hl Hlog]. unfold on_rpm, call_bound. cbn [Nat.eqb].
  destruct (avg_outcome _ Hr) as (r' & res & -> & Hres & Hwf & _).
  cbn. split; [split; cbn; auto|exact Hres].
Qed.

Lemma safe_get_avg : Loop_safe (on_speed (call_bound 1 0 Speed.get_avg)).
Proof.
  intros s [Hr Hs Hb Hl Hlog]. unfold on_speed, call_bound. cbn [Nat.eqb].
  destruct (get_avg_outcome _ Hs) as (h' & res & -> & Hres & Hwf & _).
  cbn. split; [split; cbn; auto|exact Hres].
Qed.

(** Either statement of the mode update, whatever the mode it was handed:
    the methods it may call bring the limiter to one of its three states
    from any of them. *)
Lemma safe_first_statement (mode : Z) (rpm_avg kmh : Q) :
  Loop_safe (on_limiter (Show.first_statement mode rpm_avg kmh)).
Proof.
  intros s [Hr Hs Hb Hl Hlog]. unfold on_limiter, Show.first_statement.
  destruct (_ && _ && _); [|destruct (_ && _)];
    destruct Hl as [->|[->| ->]]; cbn;
    (split; [split; cbn; auto|eauto]).
Qed.

Lemma safe_second_statement (mode : Z) (rpm_avg kmh : Q) :
  Loop_safe (on_limiter (Show.second_statement mode rpm_avg kmh)).
Proof.
  intros s [Hr Hs Hb Hl Hlog]. unfold on_limiter, Show.second_statement.
  destruct (_ && _); [|destruct (_ && _ && _)];
    destruct Hl as [->|[->| ->]]; cbn;
    (split; [split; cbn; auto|eauto]).
Qed.

Lemma safe_final_sleep :
  Loop_safe (s ← get; emit (Sleep_ms (Button.main_loop_sleep (button s)))).
Proof.
  intros s Hinv. unfold mbind, M_bind, bind, get.
  apply safe_emit; [|exact Hinv]. cbn.
  destruct Hinv as [_ _ [_ _ _ Hsl _ _] _ _]. rewrite Hsl.
  destruct (_ || _); auto.
Qed.

Lemma flash_safe (button_presses : Z) : Loop_safe (flash button_presses).
Proof.
  unfold flash.
  destruct (button_presses >? 0) eqn:Hpos; [|apply safe_ret].
  apply safe_bind; [|intros _]; apply safe_emit; cbn; [lia|auto].
Qed.

Lemma measure_and_limit_safe (a : arrivals) (mode : Z) :
  Loop_safe (measure_and_limit a mode).
Proof.
  unfold measure_and_limit.
  apply safe_bind; [apply safe_irqs|intros _].
  apply safe_bind; [apply safe_avg|intros rpm_avg].
  apply safe_bind; [apply safe_irqs|intros _].
  apply safe_bind; [apply safe_get_avg|intros kmh].
  apply safe_bind; [apply safe_first_statement|intros _].
  apply safe_bind; [apply safe_second_statement|intros _].
  apply safe_bind; [apply safe_irqs|intros _].
  apply safe_bind; [intros s Hinv; cbn; eauto|intros s].
  apply safe_bind.
  { destruct (_ =? _); [apply safe_emit; exact I|].
    destruct (_ =? _); [apply safe_emit; exact I|apply safe_ret]. }
  intros _.
  apply safe_bind; [apply safe_irqs|intros _].
  apply safe_final_sleep.
Qed.

Lemma pass_safe (a : arrivals) : Loop_safe (pass a).
Proof.
  unfold pass.
  apply safe_bind; [apply safe_modify|intros _].
  { intros s [Hr Hs Hb Hl Hlog]. split; cbn; auto. }
  apply safe_bind; [apply safe_get_mode|intros mode].
  apply safe_bind; [apply safe_irqs|intros _].
  apply safe_bind; [apply safe_pressed|intros button_presses].
  apply safe_bind; [apply flash_safe|intros _].
  apply measure_and_limit_safe.
Qed.

Lemma passes_safe (schedule : list arrivals) : Loop_safe (passes schedule).
Proof.
  induction schedule as [|a rest IH]; cbn [passes].
  - apply safe_ret.
  - apply safe_bind; [apply pass_safe|intros _; exact IH].
Qed.

Lemma Loop_inv_init : Loop_inv Loop.init.
Proof.
  split; cbn; auto.
  - apply Rpm_wf_init.
  - apply Speed_wf_fresh.
  - apply (Button_run_inv []).
Qed.

(** X23.  Whatever interrupts arrive, and wherever in the passes: the
    loop of [show] can only be ended by [ZeroDivisionError] (of [avg] or
    [get_avg]); no subscript leaves a buffer, the output object always has
    the method called on it.  At every point the limiter is in one of its
    three states and the detector asks for a polling interval of 50 or
    300 ms. *)
Theorem loop_ends_only_on_zero_division (schedule : list Loop.arrivals) :
  let s := fst (Loop.passes schedule Loop.init) in
  let r := snd (Loop.passes schedule Loop.init) in
  (r = Ok tt \/ r = Raise ZeroDivisionError) /\
  (limiter s = show_limiter \/ limiter s = limiter_limited \/
   limiter s = limiter_limp) /\
  (Button.main_loop_sleep (button s) = Button.BUTTON_CHECK_SLEEP \/
   Button.main_loop_sleep (button s) = Button.NORMAL_SLEEP) /\
  0 <= Rpm.spark_read_index (rpm s) < Rpm.ARRAYSIZE /\
  0 <= Speed.hall_read_index (speed s) < Speed.ARRAYSIZE.
Proof.
  cbn zeta.
  destruct (passes_safe schedule Loop.init Loop_inv_init)
    as [[Hr Hs Hb Hl _] Hres].
  split.
  { destruct Hres as [->|[[] ->]]; auto. }
  split; [exact Hl|].
  destruct Hb as [_ _ _ Hsl _ _]. destruct Hr as [_ _ Hrr _].
  destruct Hs as [_ _ Hsr _].
  split; [rewrite Hsl; destruct (_ || _); auto|].
  split; assumption.
Qed.

(** X24.  What the loop sends out: a press count is flashed only if it
    is at least 1, and the loop never sleeps for anything but 500 ms (after
    a flash), 50 ms or 300 ms. *)
Theorem loop_outputs_are_in_range (schedule : list Loop.arrivals) :
  Forall
    (fun o =>
       match o with
       | Display_speed n => 1 <= n
       | Display_rpm_speed _ _ => True
       | Sleep_ms ms => ms = 500 \/ ms = 50 \/ ms = 300
       end)
    (log (fst (Loop.passes schedule Loop.init))).
Proof.
  destruct (passes_safe schedule Loop.init Loop_inv_init)
    as [[_ _ _ _ Hlog] _].
  exact Hlog.
Qed.

Lemma quiet_ret {A} (a : A) : Loop_quiet (ret a : M Loop.t A).
Proof. intros s. exists []. cbn. now rewrite app_nil_r. Qed.

Lemma quiet_bind {A B} (m : M Loop.t A) (k : A -> M Loop.t B) :
  Loop_quiet m -> (forall a, Loop_quiet (k a)) -> Loop_quiet (m ≫= k).
Proof.
  intros Hm Hk s. unfold mbind, M_bind, bind.
  destruct (Hm s) as (rest & Hlog & Hrest).
  destruct (m s) as [s1 [a|e|]]; cbn in *; eauto.
  destruct (Hk a s1) as (rest' & Hlog' & Hrest').
  exists (rest ++ rest'). rewrite Hlog', Hlog, app_assoc.
  split; [reflexivity|]. rewrite forallb_app, Hrest, Hrest'. reflexivity.
Qed.

Lemma quiet_modify (f : Loop.t -> Loop.t) :
  (forall s, log (f s) = log s) -> Loop_quiet (modify f).
Proof. intros Hf s. exists []. cbn. now rewrite Hf, app_nil_r. Qed.

Lemma quiet_emit (o : output) : is_flash o = false -> Loop_quiet (emit o).
Proof. intros Ho s. exists [o]. cbn. now rewrite Ho. Qed.

Lemma quiet_irqs (es : list irq) : Loop_quiet (irqs es).
Proof.
  apply quiet_modify. induction es as [|e es IH]; intros s; cbn;
    [reflexivity|].
  rewrite IH. destruct e as [now|now|e]; cbn; [reflexivity..|].
  destruct (is_poll e); reflexivity.
Qed.

Lemma quiet_on_rpm {A} (m : M Rpm.t A) : Loop_quiet (on_rpm m).
Proof.
  intros s. exists []. unfold on_rpm. destruct (m (rpm s)). cbn.
  now rewrite app_nil_r.
Qed.

Lemma quiet_on_speed {A} (m : M Speed.t A) : Loop_quiet (on_speed m).
Proof.
  intros s. exists []. unfold on_speed. destruct (m (speed s)). cbn.
  now rewrite app_nil_r.
Qed.

Lemma quiet_on_limiter {A} (m : M Limiter.t A) : Loop_quiet (on_limiter m).
Proof.
  intros s. exists []. unfold on_limiter. destruct (m (limiter s)). cbn.
  now rewrite app_nil_r.
Qed.

Lemma measure_and_limit_quiet (a : arrivals) (mode : Z) :
  Loop_quiet (measure_and_limit a mode).
Proof.
  unfold measure_and_limit.
  apply quiet_bind; [apply quiet_irqs|intros _].
  apply quiet_bind; [apply quiet_on_rpm|intros rpm_avg].
  apply quiet_bind; [apply quiet_irqs|intros _].
  apply quiet_bind; [apply quiet_on_speed|intros kmh].
  apply quiet_bind; [apply quiet_on_limiter|intros _].
  apply quiet_bind; [apply quiet_on_limiter|intros _].
  apply quiet_bind; [apply quiet_irqs|intros _].
  apply quiet_bind; [intros s; exists []; cbn; now rewrite app_nil_r|intros s].
  apply quiet_bind.
  { destruct (_ =? _); [now apply quiet_emit|].
    destruct (_ =? _); [now apply quiet_emit|apply quiet_ret]. }
  intros _.
  apply quiet_bind; [apply quiet_irqs|intros _].
  apply quiet_bind; [intros s'; exists []; cbn; now rewrite app_nil_r|].
  intros s'. now apply quiet_emit.
Qed.

(** X25.  A finished gesture is flashed, once: if the detector is not
    counting and holds [n >= 1] presses when a pass polls it, the pass
    first shows [n] and sleeps 500 ms, and shows no other count. *)
Theorem finished_gesture_is_flashed_once (s : Loop.t) (a : arrivals) :
  let n := Button.button_press_count (button s) in
  before_pressed a = [] ->
  Button.button_waiting_more_clicks (button s) = false ->
  1 <= n ->
  exists rest : list output,
    log (fst (pass a s)) = log s ++ Display_speed n :: Sleep_ms 500 :: rest /\
    forallb (fun o => negb (is_flash o)) rest = true.
Proof.
  intros n Hnone Hwm Hn. unfold pass. rewrite Hnone.
  pose proof (measure_and_limit_quiet a) as Hq.
  set (rest_of_pass := measure_and_limit a) in *. clearbody rest_of_pass.
  unfold flash, emit, on_limiter, on_button, irqs, Limiter.get_mode,
    Button.pressed.
  run_monad. rewrite Hwm. cbn. fold n.
  assert ((n >? 0) = true) as -> by lia. cbn.
  match goal with
  | |- context [rest_of_pass ?m ?s1] =>
      destruct (Hq m s1) as (rest & Hlog & Hrest)
  end.
  exists rest. split; [|exact Hrest].
  rewrite Hlog. cbn. rewrite <- !app_assoc. reflexivity.
Qed.

(** X25 on the detector after three clicks, no interrupt arriving. *)
Lemma finished_gesture_is_flashed_once_witness :
  let clicks :=
    [Press 0; Debounce_timeout 0; Series_tick 1; Series_tick 0;
     Series_tick 1; Series_tick 0; Series_tick 1; Series_tick 1] in
  let s := set_button (Button_run clicks) Loop.init in
  exists rest : list output,
    log (fst (pass (mk_arrivals [] [] [] [] []) s))
    = Display_speed 3 :: Sleep_ms 500 :: rest.
Proof.
  cbn zeta.
  destruct (finished_gesture_is_flashed_once
              (set_button
                 (Button_run
                    [Press 0; Debounce_timeout 0; Series_tick 1;
                     Series_tick 0; Series_tick 1; Series_tick 0;
                     Series_tick 1; Series_tick 1]) Loop.init)
              (mk_arrivals [] [] [] [] []))
    as (rest & Hlog & _).
  - reflexivity.
  - reflexivity.
  - vm_compute. discriminate.
  - exists rest. exact Hlog.
Defined.

End LoopFacts.
